(** * Consumable Macros: dispatch of an attached macro on consumption

    A shallow embedding of [scripts/consumable-macros.js].  The module is a
    set of asynchronous hook callbacks of a virtual-tabletop host.  The
    embedding keeps the two module-level tables of the script
    ([recentlyExecuted], [consumedItems]), the host's timer queue and clock,
    and a trace of the host calls the callbacks make.  An [async] callback is
    a resumption: it runs synchronously up to its next [await], where the
    event loop may run other callbacks before it is resumed.

    Conventions.
    - Strings are UTF-8 byte strings, as string literals are read.  The
      delimiters of the script's patterns are ASCII characters, which occur
      in no other character's encoding, so that they are matched byte by
      byte; white space and line terminators are taken character by
      character, and the letters of a case-blind pattern match only their
      two ASCII forms.
    - Time is in milliseconds since the script was loaded; a timer fires at
      its due time.
    - [console.log] diagnostics are not traced ([console.warn] and
      [console.error] are): they never influence control flow. *)

From Stdlib Require Import ZArith Lia String Ascii.
From stdpp Require Import base gmap sets list strings.

Local Open Scope string_scope.
Local Open Scope nat_scope.

(** ** Host documents *)

Definition MODULE_ID : string := "consumable-macros".
Definition FLAG_MACRO_UUID : string := "macroUuid".

(** An item document: [item.id], [item.name], [item.type],
    [item.system.quantity] (absent when not recorded), the flag area read by
    [item.getFlag(scope, key)], and [item.parent] (the owning actor's id). *)
Record Item := mkItem {
  item_id : string;
  item_name : string;
  item_type : string;
  item_quantity : option Z;
  item_flags : gmap string (gmap string string);
  item_parent : option string
}.

(** A macro document; whether and how its script fails is the host's
    business ([host_execute] below). *)
Record Macro := mkMacro {
  macro_uuid : string;
  macro_name : string;
  macro_type : string
}.

(** What a locator can resolve to. *)
Inductive Doc :=
| DocItem (i : Item)
| DocMacro (m : Macro).

Definition getFlag (i : Item) (scope key : string) : option string :=
  item_flags i !! scope ≫= λ area, area !! key.

Definition doc_name (d : Doc) : string :=
  match d with DocItem i => item_name i | DocMacro m => macro_name m end.

Definition doc_type (d : Doc) : string :=
  match d with DocItem i => item_type i | DocMacro m => macro_type m end.

(** Flags of a macro document are never written by this module. *)
Definition doc_getFlag (d : Doc) (scope key : string) : option string :=
  match d with DocItem i => getFlag i scope key | DocMacro _ => None end.

(** JavaScript truthiness of a possibly absent string ([!s] is its
    negation) and of a possibly absent number. *)
Definition truthy_str (s : option string) : bool :=
  match s with
  | None => false
  | Some s => negb (String.eqb s "")
  end.

Definition truthy_num (n : option Z) : bool :=
  match n with
  | None => false
  | Some n => negb (n =? 0)%Z
  end.

(** [a >= b] on numbers where [b] may be [undefined]: a comparison with
    [undefined] is false. *)
Definition js_ge (a : Z) (b : option Z) : bool :=
  match b with
  | None => false
  | Some b => (b <=? a)%Z
  end.

Record Speaker := mkSpeaker {
  speaker_actor : option string;
  speaker_token : option string
}.

Record Actor := mkActor {
  actor_id : string;
  actor_items : list Item;
  actor_tokens : list string
}.

(** A chat message: [message.item], [message.flavor], [message.content],
    [message.speaker] and the four fields read under [message.flags.pf2e]. *)
Record Message := mkMessage {
  msg_item : option Item;
  msg_flavor : option string;
  msg_content : option string;
  msg_speaker : Speaker;
  msg_context_item : option string;
  msg_origin_uuid : option string;
  msg_origin_name : option string;
  msg_origin_sourceId : option string
}.

(** The object handed to [macro.execute]. *)
Record Context := mkContext {
  ctx_actor : option string;
  ctx_token : option string;
  ctx_character : option string;
  ctx_item : Doc;
  ctx_speaker : Speaker;
  ctx_event : option string;
  ctx_target : option string;
  ctx_message : option Message
}.

(** Result of [await fromUuid(uuid)]. *)
Inductive Resolved :=
| Found (d : Doc)
| NotFound
| Threw (msg : string).

(** What a macro's own logic can fail with, as far as the [catch] block
    reads it: [null] or [undefined], of which no property can be read, or
    any other value, with the text its [message] property shows in a
    template ([None] when it has none, as a thrown string; that shows as
    [undefined]). *)
Inductive Thrown :=
| ThrownNull
| ThrownUndefined
| ThrownValue (message : option string).

(** Result of [await macro.execute(context)]: [Some err] when the macro's
    own logic fails with [err]. *)
Definition Outcome := option Thrown.

(** The host as seen by the script. *)
Record Host := mkHost {
  user_id : string;
  user_character : option string;
  fromUuid : string → Resolved;
  actors_get : string → option Actor;
  world_items : list Item;
  getSpeaker : Speaker;
  getSpeakerFor : Actor → Speaker;
  getSpeakerActor : Speaker → option string;
  tokens_get : option string → option string;
  host_execute : Macro → Context → Outcome
}.

(** ** Host calls recorded in the trace *)

(** What a callback can show: [ui.notifications.error], [console.warn],
    [console.error] with the value it was handed. *)
Inductive Output :=
| NotifyError (msg : string)
| ConsoleWarn (msg : string)
| ConsoleError (msg : string) (err : Thrown).

Inductive Event :=
| EvFromUuid (uuid : string)
| EvSetTimeout (key : string) (delay : nat)
| EvExecute (macro : Macro) (ctx : Context)
| EvOutput (o : Output)
| EvUnhandledRejection (msg : string).

(** Snapshot stored by the pre-delete callback. *)
Record Stored := mkStored {
  st_name : string;
  st_macroUuid : string;
  st_actor : option string
}.

(** ** Module state and event loop state *)

Record Runtime := mkRuntime {
  now : nat;
  recentlyExecuted : gset string;
  timers : list (nat * string);
  consumedItems : gmap string Stored;
  trace : list (nat * Event)
}.

Definition init : Runtime :=
  {| now := 0; recentlyExecuted := ∅; timers := []; consumedItems := ∅;
     trace := [] |}.

Definition emit (e : Event) (g : Runtime) : Runtime :=
  {| now := now g; recentlyExecuted := recentlyExecuted g;
     timers := timers g; consumedItems := consumedItems g;
     trace := trace g ++ [(now g, e)] |}.

Definition set_recentlyExecuted (s : gset string) (g : Runtime) : Runtime :=
  {| now := now g; recentlyExecuted := s; timers := timers g;
     consumedItems := consumedItems g; trace := trace g |}.

Definition set_consumedItems (m : gmap string Stored) (g : Runtime) : Runtime :=
  {| now := now g; recentlyExecuted := recentlyExecuted g;
     timers := timers g; consumedItems := m; trace := trace g |}.

(** [setTimeout(() => recentlyExecuted.delete(key), delay)] *)
Definition setTimeout_delete (key : string) (delay : nat) (g : Runtime) : Runtime :=
  emit (EvSetTimeout key delay)
    {| now := now g; recentlyExecuted := recentlyExecuted g;
       timers := timers g ++ [(now g + delay, key)];
       consumedItems := consumedItems g; trace := trace g |}.

(** ** The duplicate suppressor *)

Definition dedup_key (itemName macroUuid : string) : string :=
  itemName +:+ ":" +:+ macroUuid.

Definition shouldExecuteMacro (itemName macroUuid : string) (g : Runtime)
  : bool * Runtime :=
  let key := dedup_key itemName macroUuid in
  if decide (key ∈ recentlyExecuted g) then (false, g)
  else
    (true,
     setTimeout_delete key 500
       (set_recentlyExecuted ({[key]} ∪ recentlyExecuted g) g)).

(** The clock moves [dt] ms forward; every timer that is due by then runs
    its callback, which deletes its key from [recentlyExecuted]. *)
Definition advance (dt : nat) (g : Runtime) : Runtime :=
  let t := now g + dt in
  {| now := t;
     recentlyExecuted :=
       recentlyExecuted g ∖ list_to_set (filter (λ x, x.1 ≤ t) (timers g)).*2;
     timers := filter (λ x, t < x.1) (timers g);
     consumedItems := consumedItems g;
     trace := trace g |}.

(** ** Asynchronous callbacks as resumptions

    A callback body is a tree of the calls it makes on the module state and
    on the host.  [AwaitFromUuid] and [AwaitExecute] are the script's two
    kinds of [await]; everything between two of them runs without
    interruption. *)

Inductive Prog :=
| Ret
| Throw (msg : string)
| ShouldExecuteMacro (itemName macroUuid : string) (k : bool → Prog)
| ConsumedSet (id : string) (v : Stored) (k : Prog)
| ConsumedGet (id : string) (k : option Stored → Prog)
| ConsumedDelete (id : string) (k : Prog)
| Emit (o : Output) (k : Prog)
| AwaitFromUuid (uuid : string) (k : Resolved → Prog)
| AwaitExecute (macro : Macro) (ctx : Context) (k : Outcome → Prog).

(** A callback suspended at an [await]. *)
Inductive Task :=
| WaitUuid (uuid : string) (k : Resolved → Prog)
| WaitExecute (macro : Macro) (ctx : Context) (k : Outcome → Prog).

(** Run a body up to its next [await] (or to its end).  The host call that
    is awaited is made, and traced, before the callback suspends. *)
Fixpoint run_sync (p : Prog) (g : Runtime) : Runtime * option Task :=
  match p with
  | Ret => (g, None)
  | Throw msg => (emit (EvUnhandledRejection msg) g, None)
  | ShouldExecuteMacro itemName macroUuid k =>
      let '(b, g') := shouldExecuteMacro itemName macroUuid g in
      run_sync (k b) g'
  | ConsumedSet id v k =>
      run_sync k (set_consumedItems (<[id := v]> (consumedItems g)) g)
  | ConsumedGet id k => run_sync (k (consumedItems g !! id)) g
  | ConsumedDelete id k =>
      run_sync k (set_consumedItems (delete id (consumedItems g)) g)
  | Emit o k => run_sync k (emit (EvOutput o) g)
  | AwaitFromUuid uuid k => (emit (EvFromUuid uuid) g, Some (WaitUuid uuid k))
  | AwaitExecute macro ctx k =>
      (emit (EvExecute macro ctx) g, Some (WaitExecute macro ctx k))
  end.

(** The awaited promise settles and the callback continues. *)
Definition resume (h : Host) (t : Task) (g : Runtime) : Runtime * option Task :=
  match t with
  | WaitUuid uuid k => run_sync (k (fromUuid h uuid)) g
  | WaitExecute macro ctx k => run_sync (k (host_execute h macro ctx)) g
  end.

(** ** The callbacks *)

(** The [catch] block shared textually by the five callbacks:
    [console.error(..., err); ui.notifications.error(`...${err.message}`)].
    Reading [err.message] of [null] or [undefined] raises a [TypeError]
    inside the [catch] block, which nothing catches. *)
Definition catch_execute (name : string) (err : Thrown) : Prog :=
  Emit (ConsoleError
          (MODULE_ID +:+ " | Error executing macro for " +:+ name +:+ ":") err)
    match err with
    | ThrownNull => Throw "Cannot read properties of null (reading 'message')"
    | ThrownUndefined =>
        Throw "Cannot read properties of undefined (reading 'message')"
    | ThrownValue message =>
        Emit (NotifyError
                ("Failed to execute macro: " +:+ default "undefined" message))
          Ret
    end.

(** [await macro.execute(ctx)] inside [try]: a resolved document that is not
    a macro has no [execute] method, which raises a [TypeError] inside the
    [try]. *)
Definition try_execute (macro : Doc) (ctx : Context) (name : string) : Prog :=
  match macro with
  | DocMacro m =>
      AwaitExecute m ctx (λ out,
        match out with
        | None => Ret
        | Some err => catch_execute name err
        end)
  | DocItem _ =>
      catch_execute name (ThrownValue (Some "macro.execute is not a function"))
  end.

(** The update payload: [change.system?.quantity]. *)
Record Change := mkChange { change_quantity : option Z }.

Definition preUpdateItem (h : Host) (item : Item) (change : Change)
    (userId : string) : Prog :=
  (* Only process for the current user *)
  if negb (String.eqb userId (user_id h)) then Ret else
  (* Check if this is a consumable item being used *)
  if negb (String.eqb (item_type item) "consumable") then Ret else
  (* if (!change.system?.quantity) return; *)
  if negb (truthy_num (change_quantity change)) then Ret else
  match change_quantity change with
  | None => Ret
  | Some newQuantity =>
    let oldQuantity := item_quantity item in
    (* Only trigger if quantity is decreasing *)
    if js_ge newQuantity oldQuantity then Ret else
    let flag := getFlag item MODULE_ID FLAG_MACRO_UUID in
    if negb (truthy_str flag) then Ret else
    match flag with
    | None => Ret
    | Some macroUuid =>
      AwaitFromUuid macroUuid (λ r,
        match r with
        | Threw e => Throw e
        | NotFound =>
            Emit (ConsoleWarn
                    (MODULE_ID +:+ " | Macro " +:+ macroUuid +:+
                     " not found for item " +:+ item_name item)) Ret
        | Found macro =>
            (* Check for duplicate execution *)
            ShouldExecuteMacro (item_name item) macroUuid (λ ok,
              if negb ok then Ret else
              let speaker := getSpeaker h in
              let actor := getSpeakerActor h speaker in
              let token := tokens_get h (speaker_token speaker) in
              let character := user_character h in
              try_execute macro
                {| ctx_actor := actor; ctx_token := token;
                   ctx_character := character; ctx_item := DocItem item;
                   ctx_speaker := speaker; ctx_event := None;
                   ctx_target := None; ctx_message := None |}
                (item_name item))
        end)
    end
  end.

Definition preDeleteItem (h : Host) (item : Item) (userId : string) : Prog :=
  if negb (String.eqb userId (user_id h)) then Ret else
  if negb (String.eqb (item_type item) "consumable") then Ret else
  let flag := getFlag item MODULE_ID FLAG_MACRO_UUID in
  if negb (truthy_str flag) then Ret else
  match flag with
  | None => Ret
  | Some macroUuid =>
    (* Store the item data and macro for execution after deletion *)
    ConsumedSet (item_id item)
      {| st_name := item_name item; st_macroUuid := macroUuid;
         st_actor := item_parent item |} Ret
  end.

Definition deleteItem (h : Host) (item : Item) (userId : string) : Prog :=
  ConsumedGet (item_id item) (λ stored,
    match stored with
    | None => Ret
    | Some storedData =>
      (* Remove from storage *)
      ConsumedDelete (item_id item)
        (AwaitFromUuid (st_macroUuid storedData) (λ r,
          match r with
          | Threw e => Throw e
          | NotFound =>
              Emit (ConsoleWarn
                      (MODULE_ID +:+ " | Macro " +:+ st_macroUuid storedData
                       +:+ " not found")) Ret
          | Found macro =>
              ShouldExecuteMacro (st_name storedData) (st_macroUuid storedData)
                (λ ok,
                  if negb ok then Ret else
                  let speaker := getSpeaker h in
                  let actor :=
                    match st_actor storedData with
                    | Some a => Some a
                    | None => getSpeakerActor h speaker
                    end in
                  let token := tokens_get h (speaker_token speaker) in
                  let character := user_character h in
                  try_execute macro
                    {| ctx_actor := actor; ctx_token := token;
                       ctx_character := character; ctx_item := DocItem item;
                       ctx_speaker := speaker; ctx_event := None;
                       ctx_target := None; ctx_message := None |}
                    (st_name storedData))
          end))
    end).

Definition pf2e_useItem (h : Host) (item : Item) (event target : string) : Prog :=
  (* Only process consumables *)
  if negb (String.eqb (item_type item) "consumable") then Ret else
  let flag := getFlag item MODULE_ID FLAG_MACRO_UUID in
  if negb (truthy_str flag) then Ret else
  match flag with
  | None => Ret
  | Some macroUuid =>
    AwaitFromUuid macroUuid (λ r,
      match r with
      | Threw e => Throw e
      | NotFound => Ret
      | Found macro =>
          ShouldExecuteMacro (item_name item) macroUuid (λ ok,
            if negb ok then Ret else
            let speaker := getSpeaker h in
            let actor := getSpeakerActor h speaker in
            let token := tokens_get h (speaker_token speaker) in
            let character := user_character h in
            try_execute macro
              {| ctx_actor := actor; ctx_token := token;
                 ctx_character := character; ctx_item := DocItem item;
                 ctx_speaker := speaker; ctx_event := Some event;
                 ctx_target := Some target; ctx_message := None |}
              (item_name item))
      end)
  end.

Definition pf2e_consumeItem (h : Host) (item : Item) (actor : Actor) : Prog :=
  let flag := getFlag item MODULE_ID FLAG_MACRO_UUID in
  if negb (truthy_str flag) then Ret else
  match flag with
  | None => Ret
  | Some macroUuid =>
    AwaitFromUuid macroUuid (λ r,
      match r with
      | Threw e => Throw e
      | NotFound => Ret
      | Found macro =>
          ShouldExecuteMacro (item_name item) macroUuid (λ ok,
            if negb ok then Ret else
            let speaker := getSpeakerFor h actor in
            let token := head (actor_tokens actor) in
            let character := user_character h in
            try_execute macro
              {| ctx_actor := Some (actor_id actor); ctx_token := token;
                 ctx_character := character; ctx_item := DocItem item;
                 ctx_speaker := speaker; ctx_event := None;
                 ctx_target := None; ctx_message := None |}
              (item_name item))
      end)
  end.

(** ** Text matching used by the chat-message callback *)

Definition dquote : ascii := Ascii false true false false false true false false.

Definition lower (c : ascii) : ascii :=
  let n := nat_of_ascii c in
  if (65 <=? n)%nat && (n <=? 90)%nat then ascii_of_nat (n + 32) else c.

Fixpoint contains_char (c : ascii) (s : string) : bool :=
  match s with
  | EmptyString => false
  | String d s' => Ascii.eqb c d || contains_char c s'
  end.

(** The rest of [s] after the literal [p], compared exactly or without
    regard to ASCII case. *)
Fixpoint strip_prefix (ci : bool) (p s : string) : option string :=
  match p, s with
  | EmptyString, _ => Some s
  | String _ _, EmptyString => None
  | String a p', String b s' =>
      if (if ci then Ascii.eqb (lower a) (lower b) else Ascii.eqb a b)
      then strip_prefix ci p' s' else None
  end.

(** Split at the first occurrence of [c]: the text before it and after it. *)
Fixpoint split_at (c : ascii) (s : string) : option (string * string) :=
  match s with
  | EmptyString => None
  | String d s' =>
      if Ascii.eqb c d then Some (EmptyString, s')
      else match split_at c s' with
           | Some (a, b) => Some (String d a, b)
           | None => None
           end
  end.

(** Leftmost position of [s] at which [f] succeeds. *)
Fixpoint first_match {A} (f : string → option A) (s : string) : option A :=
  match f s with
  | Some a => Some a
  | None =>
      match s with
      | EmptyString => None
      | String _ s' => first_match f s'
      end
  end.

(** [s.replace(/<[^>]*>/g, '')] *)
Fixpoint strip_tags_from (inside : bool) (s : string) : string :=
  match s with
  | EmptyString => EmptyString
  | String c s' =>
      if inside then strip_tags_from (negb (Ascii.eqb c ">")) s'
      else if Ascii.eqb c "<" && contains_char ">" s' then strip_tags_from true s'
      else String c (strip_tags_from false s')
  end.

Definition strip_tags (s : string) : string := strip_tags_from false s.

(** *** White space

    The white space of JavaScript, matched by [\s] and removed by [trim]:
    U+0009 to U+000D and U+0020 (one byte), U+00A0 (two bytes), U+1680,
    U+2000 to U+200A, U+2028, U+2029, U+202F, U+205F, U+3000 and U+FEFF
    (three bytes). *)
Definition byte_in (lo hi : nat) (c : ascii) : bool :=
  (lo <=? nat_of_ascii c) && (nat_of_ascii c <=? hi).

Definition space1 (a : ascii) : bool := byte_in 9 13 a || byte_in 32 32 a.

Definition space2 (a b : ascii) : bool :=
  byte_in 194 194 a && byte_in 160 160 b.

Definition space3 (a b c : ascii) : bool :=
  byte_in 225 225 a && byte_in 154 154 b && byte_in 128 128 c
  || byte_in 226 226 a && byte_in 128 128 b
     && (byte_in 128 138 c || byte_in 168 169 c || byte_in 175 175 c)
  || byte_in 226 226 a && byte_in 129 129 b && byte_in 159 159 c
  || byte_in 227 227 a && byte_in 128 128 b && byte_in 128 128 c
  || byte_in 239 239 a && byte_in 187 187 b && byte_in 191 191 c.

(** A text cut into its white space characters and its other bytes. *)
Inductive Piece :=
| Space (bytes : string)
| Other (c : ascii).

Fixpoint pieces (s : string) : list Piece :=
  match s with
  | EmptyString => []
  | String a r1 =>
      if space1 a then Space (String a EmptyString) :: pieces r1 else
      match r1 with
      | String b r2 =>
          if space2 a b then Space (String a (String b EmptyString)) :: pieces r2
          else
            match r2 with
            | String c r3 =>
                if space3 a b c
                then Space (String a (String b (String c EmptyString)))
                       :: pieces r3
                else Other a :: pieces r1
            | EmptyString => Other a :: pieces r1
            end
      | EmptyString => Other a :: pieces r1
      end
  end.

Definition piece_text (p : Piece) : string :=
  match p with Space b => b | Other c => String c EmptyString end.

Definition text (ps : list Piece) : string :=
  foldr (λ p s, piece_text p +:+ s) EmptyString ps.

Definition is_space (p : Piece) : bool :=
  match p with Space _ => true | Other _ => false end.

(** Line terminators, which [.] does not match: U+000A, U+000D, U+2028 and
    U+2029. *)
Definition is_newline (p : Piece) : bool :=
  match p with
  | Space (String a EmptyString) => byte_in 10 10 a || byte_in 13 13 a
  | Space (String a (String b (String c EmptyString))) =>
      byte_in 226 226 a && byte_in 128 128 b && byte_in 168 169 c
  | _ => false
  end.

Fixpoint skip_spaces (ps : list Piece) : list Piece :=
  match ps with
  | [] => []
  | p :: ps' => if is_space p then skip_spaces ps' else ps
  end.

Fixpoint leading_spaces (ps : list Piece) : list Piece :=
  match ps with
  | [] => []
  | p :: ps' => if is_space p then p :: leading_spaces ps' else []
  end.

(** [s.trim()] *)
Definition trim (s : string) : string :=
  text (rev (skip_spaces (rev (skip_spaces (pieces s))))).

Definition any_newline (s : string) : bool := existsb is_newline (pieces s).

(** [s.match(/^Uses\s+(.+)$/i)], the captured group.  [\s+] is greedy; it
    gives characters back only when nothing follows the white space, and
    then one character is enough for [(.+)]. *)
Definition match_uses (s : string) : option string :=
  match strip_prefix true "Uses" s with
  | None => None
  | Some rest =>
      let w := leading_spaces (pieces rest) in
      let r := skip_spaces (pieces rest) in
      match w, r with
      | [], _ => None
      | _, _ :: _ => if existsb is_newline r then None else Some (text r)
      | _ :: _ :: _, [] =>
          match last w with
          | Some c => if is_newline c then None else Some (piece_text c)
          | None => None
          end
      | [_], [] => None
      end
  end.

(** [s.match(/data-item-id=Q[^Q]*Q[^>]*>([^<]+)</)], the captured group,
    where Q stands for the double-quote character. *)
Definition flavor_at (s : string) : option string :=
  rest ← strip_prefix false ("data-item-id=" +:+ String dquote EmptyString) s;
  '(_, rest) ← split_at dquote rest;
  '(_, rest) ← split_at ">" rest;
  '(name, _) ← split_at "<" rest;
  if String.eqb name EmptyString then None else Some name.

Definition match_flavor (s : string) : option string := first_match flavor_at s.

(** [s.match(/data-item-name=Q([^Q]+)Q/)], the captured group. *)
Definition item_name_at (s : string) : option string :=
  rest ← strip_prefix false ("data-item-name=" +:+ String dquote EmptyString) s;
  '(name, _) ← split_at dquote rest;
  if String.eqb name EmptyString then None else Some name.

Definition match_item_name (s : string) : option string :=
  first_match item_name_at s.

(** [s.split('.')] *)
Fixpoint split_dot (s : string) : list string :=
  match s with
  | EmptyString => [EmptyString]
  | String c s' =>
      if Ascii.eqb c "." then EmptyString :: split_dot s'
      else match split_dot s' with
           | p :: ps => String c p :: ps
           | [] => [String c EmptyString]
           end
  end.

(** ** The chat-message callback *)

(** The three patterns that extract an item name from the message
    (flavor text, then content, then origin metadata). *)
Definition extract_item_name (message : Message) : option string :=
  let itemName : option string := None in
  (* Pattern 1: From flavor text *)
  let itemName :=
    match msg_flavor message with
    | Some flavor =>
        if truthy_str (Some flavor) then
          match match_flavor flavor with
          | Some name => Some name
          | None => itemName
          end
        else itemName
    | None => itemName
    end in
  (* Pattern 2: From content, the Uses ItemName format *)
  let itemName :=
    match msg_content message with
    | Some content =>
        if negb (truthy_str itemName) && truthy_str (Some content) then
          let textContent := trim (strip_tags content) in
          match match_uses textContent with
          | Some name => Some (trim name)
          | None =>
              match match_item_name content with
              | Some name => Some name
              | None => itemName
              end
          end
        else itemName
    | None => itemName
    end in
  (* Pattern 3: Look in flags *)
  if negb (truthy_str itemName) && truthy_str (msg_origin_name message)
  then msg_origin_name message
  else itemName.

(** [items.find(i => i.name === itemName && i.type === 'consumable')] *)
Definition find_consumable (itemName : string) (items : list Item) : option Item :=
  List.find
    (λ i, String.eqb (item_name i) itemName && String.eqb (item_type i) "consumable")
    items.

(** [actor.items.get(itemId)], where [itemId] is absent when the locator has
    only three parts. *)
Definition items_get (actor : Actor) (itemId : option string) : option Item :=
  match itemId with
  | None => None
  | Some id => List.find (λ i, String.eqb (item_id i) id) (actor_items actor)
  end.

(** Search by name: the actor's inventory, then the world items, then the
    source document (lines 464 to 532 of the script). *)
Definition createChatMessage_byName (h : Host) (message : Message)
    (actor : Actor) (k : option Doc → Prog) : Prog :=
  let itemName := extract_item_name message in
  if negb (truthy_str itemName) then k None else
  match itemName with
  | None => k None
  | Some itemName =>
    (* First, try the actor's current inventory *)
    let item := find_consumable itemName (actor_items actor) in
    (* If not found in actor, search world items *)
    let item :=
      match item with
      | Some i => Some i
      | None => find_consumable itemName (world_items h)
      end in
    match item with
    | Some i => k (Some (DocItem i))
    | None =>
      (* If still not found, try to get from compendium using sourceId *)
      match msg_origin_sourceId message with
      | Some sourceId =>
          if truthy_str (Some sourceId) then
            AwaitFromUuid sourceId (λ r,
              match r with
              | Found sourceItem =>
                  if String.eqb (doc_name sourceItem) itemName
                  then k (Some sourceItem) else k None
              | NotFound => k None
              | Threw e =>
                  Emit (ConsoleWarn
                          (MODULE_ID +:+
                           " | Could not get source item from compendium: " +:+ e))
                    (k None)
              end)
          else k None
      | None => k None
      end
    end
  end.

(** The locator did not resolve: parse it as [Actor.<id>.Item.<id>] and
    look the item up in that actor (lines 450 to 542). *)
Definition createChatMessage_parse (h : Host) (message : Message)
    (originUuid : string) (k : option Doc → Prog) : Prog :=
  let uuidParts := split_dot originUuid in
  if (3 <=? length uuidParts)%nat
     && bool_decide (uuidParts !! 0%nat = Some "Actor")
     && bool_decide (uuidParts !! 2%nat = Some "Item")
  then
    match uuidParts !! 1%nat with
    | Some actorId =>
        let itemId := uuidParts !! 3%nat in
        match actors_get h actorId with
        | Some actor =>
            match items_get actor itemId with
            | Some i => k (Some (DocItem i))
            | None => createChatMessage_byName h message actor k
            end
        | None => k None
        end
    | None => k None
    end
  else k None.

(** Lines 545 to 592: the part every path ends with. *)
Definition createChatMessage_dispatch (h : Host) (message : Message)
    (item : option Doc) : Prog :=
  match item with
  | None => Ret
  | Some item =>
    (* Only process consumables *)
    if negb (String.eqb (doc_type item) "consumable") then Ret else
    let flag := doc_getFlag item MODULE_ID FLAG_MACRO_UUID in
    if negb (truthy_str flag) then Ret else
    match flag with
    | None => Ret
    | Some macroUuid =>
      AwaitFromUuid macroUuid (λ r,
        match r with
        | Threw e => Throw e
        | NotFound =>
            Emit (ConsoleWarn
                    (MODULE_ID +:+ " | Macro " +:+ macroUuid +:+ " not found")) Ret
        | Found macro =>
            ShouldExecuteMacro (doc_name item) macroUuid (λ ok,
              if negb ok then Ret else
              let speaker := msg_speaker message in
              let actor := getSpeakerActor h speaker in
              let token := tokens_get h (speaker_token speaker) in
              let character := user_character h in
              try_execute macro
                {| ctx_actor := actor; ctx_token := token;
                   ctx_character := character; ctx_item := item;
                   ctx_speaker := speaker; ctx_event := None;
                   ctx_target := None; ctx_message := Some message |}
                (doc_name item))
        end)
    end
  end.

(** [item = await fromUuid(uuid)] inside [try]: the variable keeps its
    value (absent here) when the call throws. *)
Definition try_fromUuid (uuid what : string) (k : option Doc → Prog) : Prog :=
  AwaitFromUuid uuid (λ r,
    match r with
    | Found d => k (Some d)
    | NotFound => k None
    | Threw e =>
        Emit (ConsoleWarn
                (MODULE_ID +:+ " | Could not get item from " +:+ what +:+
                 " UUID: " +:+ e))
          (k None)
    end).

(** Lines 422 to 543: find the item the message is about, then go on
    with [k]. *)
Definition createChatMessage_resolve (h : Host) (message : Message)
    (k : option Doc → Prog) : Prog :=
  let item : option Doc := DocItem <$> msg_item message in
  (* Try getting from origin *)
  let from_origin (item : option Doc) : Prog :=
    match item, msg_origin_uuid message with
    | None, Some originUuid =>
        if truthy_str (Some originUuid) then
          try_fromUuid originUuid "origin" (λ item,
            match item with
            | Some d => k (Some d)
            | None => createChatMessage_parse h message originUuid k
            end)
        else k item
    | _, _ => k item
    end in
  (* If that doesn't work, try getting it from flags *)
  match item, msg_context_item message with
  | None, Some itemUuid =>
      if truthy_str (Some itemUuid) then try_fromUuid itemUuid "context" from_origin
      else from_origin item
  | _, _ => from_origin item
  end.

Definition createChatMessage (h : Host) (message : Message) (userId : string)
  : Prog :=
  (* Only process for the current user *)
  if negb (String.eqb userId (user_id h)) then Ret else
  createChatMessage_resolve h message (createChatMessage_dispatch h message).

(** ** Notifications and the event loop *)

Inductive Notification :=
| NPreUpdateItem (item : Item) (change : Change) (userId : string)
| NPreDeleteItem (item : Item) (userId : string)
| NDeleteItem (item : Item) (userId : string)
| NUseItem (item : Item) (event target : string)
| NConsumeItem (item : Item) (actor : Actor)
| NCreateChatMessage (message : Message) (userId : string).

Definition handler (h : Host) (n : Notification) : Prog :=
  match n with
  | NPreUpdateItem item change userId => preUpdateItem h item change userId
  | NPreDeleteItem item userId => preDeleteItem h item userId
  | NDeleteItem item userId => deleteItem h item userId
  | NUseItem item event target => pf2e_useItem h item event target
  | NConsumeItem item actor => pf2e_consumeItem h item actor
  | NCreateChatMessage message userId => createChatMessage h message userId
  end.

Record Loop := mkLoop {
  rt : Runtime;
  pool : list Task
}.

Definition start : Loop := {| rt := init; pool := [] |}.

(** What the event loop can do next: hand a notification to its callback,
    settle the promise awaited by the [i]-th suspended callback, or let time
    pass. *)
Inductive Action :=
| Deliver (n : Notification)
| Resume (i : nat)
| Advance (dt : nat).

Definition option_list {A} (o : option A) : list A :=
  match o with Some a => [a] | None => [] end.

Definition step (h : Host) (s : Loop) (a : Action) : Loop :=
  match a with
  | Deliver n =>
      let '(g, t) := run_sync (handler h n) (rt s) in
      {| rt := g; pool := pool s ++ option_list t |}
  | Resume i =>
      match pool s !! i with
      | None => s
      | Some t =>
          let '(g, t') := resume h t (rt s) in
          {| rt := g; pool := take i (pool s) ++ option_list t' ++ drop (S i) (pool s) |}
      end
  | Advance dt => {| rt := advance dt (rt s); pool := pool s |}
  end.

Definition run (h : Host) (s : Loop) (sch : list Action) : Loop :=
  foldl (step h) s sch.

(** Handle a callback with every promise it awaits settling at once, so
    that no other callback runs in between. *)
Fixpoint run_alone (h : Host) (p : Prog) (g : Runtime) : Runtime :=
  match p with
  | Ret => g
  | Throw msg => emit (EvUnhandledRejection msg) g
  | ShouldExecuteMacro itemName macroUuid k =>
      let '(b, g') := shouldExecuteMacro itemName macroUuid g in
      run_alone h (k b) g'
  | ConsumedSet id v k =>
      run_alone h k (set_consumedItems (<[id := v]> (consumedItems g)) g)
  | ConsumedGet id k => run_alone h (k (consumedItems g !! id)) g
  | ConsumedDelete id k =>
      run_alone h k (set_consumedItems (delete id (consumedItems g)) g)
  | Emit o k => run_alone h k (emit (EvOutput o) g)
  | AwaitFromUuid uuid k =>
      run_alone h (k (fromUuid h uuid)) (emit (EvFromUuid uuid) g)
  | AwaitExecute macro ctx k =>
      run_alone h (k (host_execute h macro ctx)) (emit (EvExecute macro ctx) g)
  end.

Definition settle (h : Host) (n : Notification) (g : Runtime) : Runtime :=
  run_alone h (handler h n) g.

(** ** Reading the trace *)

Definition invocations (g : Runtime) : list (Macro * Context) :=
  omap (λ e, match e.2 with EvExecute m c => Some (m, c) | _ => None end)
       (trace g).

Definition outputs (g : Runtime) : list Output :=
  omap (λ e, match e.2 with EvOutput o => Some o | _ => None end) (trace g).

Definition notifications (g : Runtime) : list string :=
  omap (λ o, match o with NotifyError m => Some m | _ => None end) (outputs g).

Definition resolutions (g : Runtime) : list string :=
  omap (λ e, match e.2 with EvFromUuid u => Some u | _ => None end) (trace g).

Definition rejections (g : Runtime) : list string :=
  omap (λ e, match e.2 with EvUnhandledRejection m => Some m | _ => None end)
       (trace g).

(** Times and keys of the admissions: each [true] answer of
    [shouldExecuteMacro] sets exactly one timer. *)
Definition admissions (g : Runtime) : list (nat * string) :=
  omap (λ e, match e.2 with EvSetTimeout k _ => Some (e.1, k) | _ => None end)
       (trace g).

(** The user a notification is attributed to; the two pf2e hooks carry
    none. *)
Definition notification_user (n : Notification) : option string :=
  match n with
  | NPreUpdateItem _ _ userId => Some userId
  | NPreDeleteItem _ userId => Some userId
  | NDeleteItem _ userId => Some userId
  | NUseItem _ _ _ => None
  | NConsumeItem _ _ => None
  | NCreateChatMessage _ userId => Some userId
  end.

(** Total time a schedule lets pass. *)
Definition elapsed (sch : list Action) : nat :=
  foldr (λ a n, match a with Advance dt => dt + n | _ => n end) 0 sch.

(** ** A small world to run the callbacks in *)

Module Sample.

Definition heal : Macro :=
  {| macro_uuid := "Macro.heal"; macro_name := "Heal"; macro_type := "script" |}.

Definition attach (uuid : string) : gmap string (gmap string string) :=
  {[ MODULE_ID := {[ FLAG_MACRO_UUID := uuid ]} ]}.

Definition potion : Item :=
  {| item_id := "i1"; item_name := "Healing Potion"; item_type := "consumable";
     item_quantity := Some 1%Z; item_flags := attach "Macro.heal";
     item_parent := Some "a1" |}.

Definition hero : Actor :=
  {| actor_id := "a1"; actor_items := [potion]; actor_tokens := ["t1"] |}.

Definition narrator : Speaker :=
  {| speaker_actor := Some "a1"; speaker_token := Some "t1" |}.

Definition host : Host :=
  {| user_id := "me";
     user_character := Some "a1";
     fromUuid := λ u, if String.eqb u "Macro.heal" then Found (DocMacro heal)
                      else NotFound;
     actors_get := λ a, if String.eqb a "a1" then Some hero else None;
     world_items := [];
     getSpeaker := narrator;
     getSpeakerFor := λ _, narrator;
     getSpeakerActor := speaker_actor;
     tokens_get := λ t, t;
     host_execute := λ _ _, None |}.


Definition uses_potion : Message :=
  {| msg_item := None; msg_flavor := None;
     msg_content := Some "<p>Uses Healing Potion</p>";
     msg_speaker := narrator; msg_context_item := None;
     msg_origin_uuid := Some "Actor.a1.Item.gone";
     msg_origin_name := None; msg_origin_sourceId := None |}.

End Sample.

(** ** Notions used by the statements *)

(** Every key in [recentlyExecuted] has exactly one pending timer, due
    within the next 500 ms, and there is no other timer. *)
Definition wf (g : Runtime) : Prop :=
  NoDup (timers g).*2
  ∧ (∀ k, k ∈ recentlyExecuted g ↔ k ∈ (timers g).*2)
  ∧ (∀ x, x ∈ timers g → now g < x.1 ≤ now g + 500).


(** [g'] is [g] after some locator look-ups, warnings and updates of the
    pending table, and nothing else: the suppressor's table and the timers
    are the same, and nothing was invoked, admitted, rejected or shown to
    the user. *)
Definition quiet_ext (g g' : Runtime) : Prop :=
  now g' = now g
  ∧ recentlyExecuted g' = recentlyExecuted g
  ∧ timers g' = timers g
  ∧ invocations g' = invocations g
  ∧ notifications g' = notifications g
  ∧ rejections g' = rejections g
  ∧ admissions g' = admissions g
  ∧ ∃ ws, outputs g' = (outputs g ++ (ConsoleWarn <$> ws))%list.

(** *** The item resolver as a function of the message

    The fallback chain in the order the design describes it: the direct
    reference, the context locator, the origin locator, the origin locator
    read as [Actor.<id>.Item.<id>], and the search by name. *)

Definition found (r : Resolved) : option Doc :=
  match r with Found d => Some d | _ => None end.

Definition search_by_name (h : Host) (message : Message) (actor : Actor)
  : option Doc :=
  match extract_item_name message with
  | None => None
  | Some itemName =>
    if negb (truthy_str (Some itemName)) then None else
    match find_consumable itemName (actor_items actor) with
    | Some i => Some (DocItem i)
    | None =>
      match find_consumable itemName (world_items h) with
      | Some i => Some (DocItem i)
      | None =>
        match msg_origin_sourceId message with
        | Some sourceId =>
            if truthy_str (Some sourceId) then
              match fromUuid h sourceId with
              | Found d =>
                  if String.eqb (doc_name d) itemName then Some d else None
              | _ => None
              end
            else None
        | None => None
        end
      end
    end
  end.

Definition parse_origin (h : Host) (message : Message) (originUuid : string)
  : option Doc :=
  match split_dot originUuid with
  | owner :: actorId :: kind :: rest =>
      if String.eqb owner "Actor" && String.eqb kind "Item" then
        match actors_get h actorId with
        | Some actor =>
            match items_get actor (head rest) with
            | Some i => Some (DocItem i)
            | None => search_by_name h message actor
            end
        | None => None
        end
      else None
  | _ => None
  end.

Definition resolve_item (h : Host) (message : Message) : option Doc :=
  match msg_item message with
  | Some i => Some (DocItem i)
  | None =>
    let from_context :=
      match msg_context_item message with
      | Some u => if truthy_str (Some u) then found (fromUuid h u) else None
      | None => None
      end in
    match from_context with
    | Some d => Some d
    | None =>
      match msg_origin_uuid message with
      | Some ou =>
          if truthy_str (Some ou) then
            match found (fromUuid h ou) with
            | Some d => Some d
            | None => parse_origin h message ou
            end
          else None
      | None => None
      end
    end
  end.

(** The part the five invoking callbacks end with: resolve the macro
    reference, ask the suppressor, invoke. *)
Definition dispatch (name u : string) (missing : Prog) (ctx : Context) : Prog :=
  AwaitFromUuid u (λ r,
    match r with
    | Threw e => Throw e
    | NotFound => missing
    | Found macro =>
        ShouldExecuteMacro name u (λ ok,
          if negb ok then Ret else try_execute macro ctx name)
    end).

(** The macro reference a notification leads to, if any. *)
Definition macro_ref (h : Host) (g : Runtime) (n : Notification) : option string :=
  match n with
  | NPreUpdateItem item _ _ => getFlag item MODULE_ID FLAG_MACRO_UUID
  | NPreDeleteItem _ _ => None
  | NDeleteItem item _ => st_macroUuid <$> consumedItems g !! item_id item
  | NUseItem item _ _ => getFlag item MODULE_ID FLAG_MACRO_UUID
  | NConsumeItem item _ => getFlag item MODULE_ID FLAG_MACRO_UUID
  | NCreateChatMessage message _ =>
      resolve_item h message ≫= λ d, doc_getFlag d MODULE_ID FLAG_MACRO_UUID
  end.

(** Admissions of one key are at least 500 ms apart. *)
Definition spaced (l : list (nat * string)) : Prop :=
  ∀ i j t1 t2 key, i < j →
    l !! i = Some (t1, key) → l !! j = Some (t2, key) → t1 + 500 ≤ t2.

(** Every admission on record is either still covered by its timer or at
    least 500 ms old. *)
Definition accounted (g : Runtime) : Prop :=
  ∀ t k, (t, k) ∈ admissions g →
    t ≤ now g ∧ ((t + 500, k) ∈ timers g ∨ t + 500 ≤ now g).

(** What holds of the suppressor in every state the event loop reaches. *)
Definition sound (g : Runtime) : Prop :=
  wf g ∧ accounted g ∧ spaced (admissions g).


(** *** One burst of notifications about one consumption *)



(** A body that, with the answers of host [h], looks locators up and warns,
    and then asks the suppressor about [(name, u)] and invokes [m] if
    admitted.  When [sure] is [false] the body may also end before it gets
    to the suppressor. *)
Inductive heads_for (h : Host) (name u : string) (m : Macro) (sure : bool)
  : Prog → Prop :=
| heads_ret : sure = false → heads_for h name u m sure Ret
| heads_warn w p :
    heads_for h name u m sure p →
    heads_for h name u m sure (Emit (ConsoleWarn w) p)
| heads_await u' k :
    heads_for h name u m sure (k (fromUuid h u')) →
    heads_for h name u m sure (AwaitFromUuid u' k)
| heads_check ctx :
    heads_for h name u m sure
      (ShouldExecuteMacro name u (λ ok,
         if negb ok then Ret else try_execute (DocMacro m) ctx name)).

(** A callback suspended at a look-up, on its way to the check. *)
Inductive pending (h : Host) (name u : string) (m : Macro) (sure : bool)
  : Task → Prop :=
| pending_intro u' k :
    heads_for h name u m sure (k (fromUuid h u')) →
    pending h name u m sure (WaitUuid u' k).





(** A notification that passes the guards of its path and so brings the
    key of [(name, u)] to the suppressor once its look-ups have returned. *)
Definition engages (h : Host) (name u : string) (g : Runtime)
    (n : Notification) : Prop :=
  match n with
  | NPreUpdateItem item change userId =>
      userId = user_id h
      ∧ item_type item = "consumable"
      ∧ (∃ new, change_quantity change = Some new ∧ new ≠ 0%Z
                ∧ js_ge new (item_quantity item) = false)
      ∧ getFlag item MODULE_ID FLAG_MACRO_UUID = Some u
      ∧ item_name item = name
  | NPreDeleteItem _ _ => False
  | NDeleteItem item _ =>
      ∃ st, consumedItems g !! item_id item = Some st
            ∧ st_name st = name ∧ st_macroUuid st = u
  | NUseItem item _ _ =>
      item_type item = "consumable"
      ∧ getFlag item MODULE_ID FLAG_MACRO_UUID = Some u
      ∧ item_name item = name
  | NConsumeItem item _ =>
      getFlag item MODULE_ID FLAG_MACRO_UUID = Some u ∧ item_name item = name
  | NCreateChatMessage message userId =>
      userId = user_id h
      ∧ ∃ d, resolve_item h message = Some d
             ∧ doc_type d = "consumable"
             ∧ doc_getFlag d MODULE_ID FLAG_MACRO_UUID = Some u
             ∧ doc_name d = name
  end.





(** ** More notions: text *)

(** No [<] of the text has a [>] somewhere after it: the text holds
    nothing that [/<[^>]*>/] matches. *)
Fixpoint tag_free (s : string) : bool :=
  match s with
  | EmptyString => true
  | String c s' =>
      negb (Ascii.eqb c "<" && contains_char ">" s') && tag_free s'
  end.

(** The no-break space U+00A0 and the line separator U+2028. *)
Definition nbsp : string :=
  String (ascii_of_nat 194) (String (ascii_of_nat 160) EmptyString).

Definition line_separator : string :=
  String (ascii_of_nat 226)
    (String (ascii_of_nat 128) (String (ascii_of_nat 168) EmptyString)).

(** The first piece of a text, and the rest. *)
Definition next_piece (s : string) : option (Piece * string) :=
  match s with
  | EmptyString => None
  | String a r1 =>
      if space1 a then Some (Space (String a EmptyString), r1) else
      match r1 with
      | String b r2 =>
          if space2 a b then Some (Space (String a (String b EmptyString)), r2)
          else
            match r2 with
            | String c r3 =>
                if space3 a b c
                then Some (Space (String a (String b (String c EmptyString))), r3)
                else Some (Other a, r1)
            | EmptyString => Some (Other a, r1)
            end
      | EmptyString => Some (Other a, r1)
      end
  end.

(** A text of white space only; a text that starts, or ends, with a white
    space character. *)
Definition all_space (s : string) : bool := forallb is_space (pieces s).

Definition starts_space (s : string) : bool :=
  match head (pieces s) with Some p => is_space p | None => false end.

Definition ends_space (s : string) : bool :=
  match last (pieces s) with Some p => is_space p | None => false end.

(** ** More notions: the callbacks *)

(** The item a notification hands to its callback directly. *)
Definition notification_item (n : Notification) : option Item :=
  match n with
  | NPreUpdateItem item _ _ => Some item
  | NPreDeleteItem item _ => Some item
  | NDeleteItem _ _ => None
  | NUseItem item _ _ => Some item
  | NConsumeItem item _ => Some item
  | NCreateChatMessage _ _ => None
  end.

(** Whether the callback of the notification tests the type of the item. *)
Definition checks_type (n : Notification) : bool :=
  match n with
  | NPreUpdateItem _ _ _ | NPreDeleteItem _ _ | NUseItem _ _ _ => true
  | _ => false
  end.

(** The identifier whose entry in the pending table the callback of the
    notification writes or removes before its first [await]. *)
Definition deleted_id (n : Notification) : option string :=
  match n with
  | NPreDeleteItem item _ | NDeleteItem item _ => Some (item_id item)
  | _ => None
  end.

(** A body that never writes to the pending table, whatever the host
    answers. *)
Fixpoint table_free (p : Prog) : Prop :=
  match p with
  | Ret | Throw _ => True
  | ShouldExecuteMacro _ _ k => ∀ b, table_free (k b)
  | ConsumedSet _ _ _ | ConsumedDelete _ _ => False
  | ConsumedGet _ k => ∀ o, table_free (k o)
  | Emit _ k => table_free k
  | AwaitFromUuid _ k => ∀ r, table_free (k r)
  | AwaitExecute _ _ k => ∀ o, table_free (k o)
  end.

Definition free_task (t : Task) : Prop :=
  match t with
  | WaitUuid _ k => ∀ r, table_free (k r)
  | WaitExecute _ _ k => ∀ o, table_free (k o)
  end.

(** ** The item sheet (lines 47 to 176 of the script)

    The [renderItemSheet] callback adds a macro section to the details tab
    of a consumable's sheet and binds three handlers to it.  The page is
    kept as what the script asks of it: whether the details tab is there,
    and which of the two bodies the section was given.  The promises a
    handler awaits settle at once. *)

(** [item.setFlag(scope, key, value)] and [item.unsetFlag(scope, key)], as
    they leave the document once the update has gone through. *)
Definition setFlag (i : Item) (scope key value : string) : Item :=
  {| item_id := item_id i; item_name := item_name i; item_type := item_type i;
     item_quantity := item_quantity i;
     item_flags :=
       <[scope := <[key := value]> (default ∅ (item_flags i !! scope))]>
         (item_flags i);
     item_parent := item_parent i |}.

Definition unsetFlag (i : Item) (scope key : string) : Item :=
  {| item_id := item_id i; item_name := item_name i; item_type := item_type i;
     item_quantity := item_quantity i;
     item_flags :=
       match item_flags i !! scope with
       | Some area => <[scope := delete key area]> (item_flags i)
       | None => item_flags i
       end;
     item_parent := item_parent i |}.

(** How the update of a document ends: [Some e] when the host rejects it
    with [e]. *)
Definition Updated := option string.

(** [document.uuid]; an item document's locator is the host's to give. *)
Definition doc_uuid (item_uuid : Item → string) (d : Doc) : string :=
  match d with DocItem i => item_uuid i | DocMacro m => macro_uuid m end.

(** What the drop handler gets out of the dragged text: text that is no
    JSON, the JSON value [null], or a value with its [type] field (absent
    on numbers, strings and objects without one) and its [uuid] field. *)
Inductive DragData :=
| NotJson
| JsonNull
| Dragged (type : option string) (uuid : string).

(** Calls the sheet's handlers make. *)
Inductive UiCall :=
| UiFromUuid (uuid : string)
| UiWarn (msg : string)
| UiError (msg : string)
| UiInfo (msg : string)
| UiSetFlag (scope key value : string)
| UiUnsetFlag (scope key : string)
| UiRender (force : bool)
| UiOpenSheet (d : Doc)
| UiRejection (msg : string).

(** The body of the macro section: the attached macro with its remove
    button, or the invitation to drag a macro in. *)
Inductive MacroSection :=
| MacroContent (macro : Doc)
| MacroPlaceholder.

(** Lines 47 to 110: [detailsTab] tells whether the page has a details
    tab.  The look-up is inside a [try] here. *)
Definition renderItemSheet (h : Host) (item : Item) (detailsTab : bool)
  : list UiCall * option MacroSection :=
  (* Only add to consumable items *)
  if negb (String.eqb (item_type item) "consumable") then ([], None) else
  let macroUuid := getFlag item MODULE_ID FLAG_MACRO_UUID in
  let '(calls, macro) :=
    match macroUuid with
    | Some u =>
        if truthy_str (Some u) then
          match fromUuid h u with
          | Found d => ([UiFromUuid u], Some d)
          | NotFound => ([UiFromUuid u], None)
          | Threw e =>
              ([UiFromUuid u;
                UiWarn (MODULE_ID +:+ " | Could not find macro " +:+ u
                        +:+ " " +:+ e)], None)
          end
        else ([], None)
    | None => ([], None)
    end in
  if negb detailsTab then
    ((calls ++ [UiWarn (MODULE_ID +:+ " | Details tab not found for "
                        +:+ item_name item)])%list, None)
  else
    (calls,
     Some match macro with
          | Some d => MacroContent d
          | None => MacroPlaceholder
          end).

(** Lines 129 to 158, the drop handler; [update] is how the update of the
    document behind [setFlag] ends. *)
Definition sheet_drop (h : Host) (item_uuid : Item → string) (update : Updated)
    (item : Item) (data : DragData) : Item * list UiCall :=
  match data with
  | NotJson => (item, [])
  | JsonNull =>
      (item, [UiRejection "Cannot read properties of null (reading 'type')"])
  | Dragged type uuid =>
    (* Verify it's a macro *)
    if negb (bool_decide (type = Some "Macro")) then (item, []) else
    match fromUuid h uuid with
    | Threw e => (item, [UiFromUuid uuid; UiRejection e])
    | NotFound =>
        (item, [UiFromUuid uuid; UiError "Could not find the dropped macro"])
    | Found droppedMacro =>
        let u := doc_uuid item_uuid droppedMacro in
        match update with
        | Some e =>
            (item, [UiFromUuid uuid; UiSetFlag MODULE_ID FLAG_MACRO_UUID u;
                    UiRejection e])
        | None =>
            (setFlag item MODULE_ID FLAG_MACRO_UUID u,
             [UiFromUuid uuid; UiSetFlag MODULE_ID FLAG_MACRO_UUID u;
              UiInfo ("Macro " +:+ String dquote (doc_name droppedMacro)
                      +:+ String dquote (" attached to " +:+ item_name item));
              UiRender true])
        end
    end
  end.

(** Lines 161 to 166, the remove button. *)
Definition sheet_remove (update : Updated) (item : Item) : Item * list UiCall :=
  match update with
  | Some e => (item, [UiUnsetFlag MODULE_ID FLAG_MACRO_UUID; UiRejection e])
  | None =>
      (unsetFlag item MODULE_ID FLAG_MACRO_UUID,
       [UiUnsetFlag MODULE_ID FLAG_MACRO_UUID;
        UiInfo ("Macro removed from " +:+ item_name item);
        UiRender false])
  end.

(** Lines 169 to 174, a click on the section's body; [on_remove] tells
    whether it fell on the remove button. *)
Definition sheet_click (section : MacroSection) (on_remove : bool) : list UiCall :=
  match section with
  | MacroContent macro => if on_remove then [] else [UiOpenSheet macro]
  | MacroPlaceholder => []
  end.

(** The calls that tell the user a change was made: the info line and the
    new rendering. *)
Definition told (c : UiCall) : bool :=
  match c with
  | UiInfo _ | UiRender _ => true
  | _ => false
  end.

(** ** The earlier version of the script ([unnamed/part_000])

    It stored the macro's identifier under another key. *)
Definition FLAG_MACRO_ID : string := "macroId".

(** Lines 79 to 108 of the earlier version: the drop handler. *)
Definition legacy_drop (h : Host) (doc_id : Doc → string) (update : Updated)
    (item : Item) (data : DragData) : Item * list UiCall :=
  match data with
  | NotJson => (item, [])
  | JsonNull =>
      (item, [UiRejection "Cannot read properties of null (reading 'type')"])
  | Dragged type uuid =>
    if negb (bool_decide (type = Some "Macro")) then (item, []) else
    match fromUuid h uuid with
    | Threw e => (item, [UiFromUuid uuid; UiRejection e])
    | NotFound =>
        (item, [UiFromUuid uuid; UiError "Could not find the dropped macro"])
    | Found droppedMacro =>
        let i := doc_id droppedMacro in
        match update with
        | Some e =>
            (item, [UiFromUuid uuid; UiSetFlag MODULE_ID FLAG_MACRO_ID i;
                    UiRejection e])
        | None =>
            (setFlag item MODULE_ID FLAG_MACRO_ID i,
             [UiFromUuid uuid; UiSetFlag MODULE_ID FLAG_MACRO_ID i;
              UiInfo ("Macro " +:+ String dquote (doc_name droppedMacro)
                      +:+ String dquote (" attached to " +:+ item_name item));
              UiRender false])
        end
    end
  end.

(** Lines 130 to 179, 184 to 218 and 223 to 251 of the earlier version: the
    three callbacks it had.  [macros_get] is [game.macros.get], which
    answers at once; there is no duplicate suppression. *)
Definition legacy_preUpdateItem (h : Host) (macros_get : string → option Macro)
    (item : Item) (change : Change) (userId : string) : Prog :=
  (* Only process for the current user *)
  if negb (String.eqb userId (user_id h)) then Ret else
  if negb (String.eqb (item_type item) "consumable") then Ret else
  if negb (truthy_num (change_quantity change)) then Ret else
  match change_quantity change with
  | None => Ret
  | Some newQuantity =>
    let oldQuantity := item_quantity item in
    if js_ge newQuantity oldQuantity then Ret else
    let flag := getFlag item MODULE_ID FLAG_MACRO_ID in
    if negb (truthy_str flag) then Ret else
    match flag with
    | None => Ret
    | Some macroId =>
      match macros_get macroId with
      | None =>
          Emit (ConsoleWarn
                  (MODULE_ID +:+ " | Macro " +:+ macroId +:+
                   " not found for item " +:+ item_name item)) Ret
      | Some macro =>
          let speaker := getSpeaker h in
          let actor := getSpeakerActor h speaker in
          let token := tokens_get h (speaker_token speaker) in
          let character := user_character h in
          try_execute (DocMacro macro)
            {| ctx_actor := actor; ctx_token := token;
               ctx_character := character; ctx_item := DocItem item;
               ctx_speaker := speaker; ctx_event := None;
               ctx_target := None; ctx_message := None |}
            (item_name item)
      end
    end
  end.

Definition legacy_useItem (h : Host) (macros_get : string → option Macro)
    (item : Item) (event target : string) : Prog :=
  (* Only process consumables *)
  if negb (String.eqb (item_type item) "consumable") then Ret else
  let flag := getFlag item MODULE_ID FLAG_MACRO_ID in
  if negb (truthy_str flag) then Ret else
  match flag with
  | None => Ret
  | Some macroId =>
    match macros_get macroId with
    | None => Ret
    | Some macro =>
        let speaker := getSpeaker h in
        let actor := getSpeakerActor h speaker in
        let token := tokens_get h (speaker_token speaker) in
        let character := user_character h in
        try_execute (DocMacro macro)
          {| ctx_actor := actor; ctx_token := token;
             ctx_character := character; ctx_item := DocItem item;
             ctx_speaker := speaker; ctx_event := Some event;
             ctx_target := Some target; ctx_message := None |}
          (item_name item)
    end
  end.

Definition legacy_consumeItem (h : Host) (macros_get : string → option Macro)
    (item : Item) (actor : Actor) : Prog :=
  let flag := getFlag item MODULE_ID FLAG_MACRO_ID in
  if negb (truthy_str flag) then Ret else
  match flag with
  | None => Ret
  | Some macroId =>
    match macros_get macroId with
    | None => Ret
    | Some macro =>
        let speaker := getSpeakerFor h actor in
        let token := head (actor_tokens actor) in
        let character := user_character h in
        try_execute (DocMacro macro)
          {| ctx_actor := Some (actor_id actor); ctx_token := token;
             ctx_character := character; ctx_item := DocItem item;
             ctx_speaker := speaker; ctx_event := None;
             ctx_target := None; ctx_message := None |}
          (item_name item)
    end
  end.

(** * Properties *)

(** ** The suppressor's tables stay consistent *)

Lemma wf_init : wf init.
Proof.
  split; [constructor|]. split.
  - intros k. cbn. set_solver.
  - intros x Hx. cbn in Hx. set_solver.
Qed.

Lemma wf_emit e g : wf g → wf (emit e g).
Proof. intros H. exact H. Qed.

Lemma wf_set_consumedItems m g : wf g → wf (set_consumedItems m g).
Proof. intros H. exact H. Qed.


Lemma timers_functional (l : list (nat * string)) d d' k :
  NoDup l.*2 → (d, k) ∈ l → (d', k) ∈ l → d = d'.
Proof.
  induction l as [|[d0 k0] l IH]; cbn; intros Hnd H1 H2.
  - by apply not_elem_of_nil in H1.
  - apply NoDup_cons in Hnd as [Hnotin Hnd].
    apply elem_of_cons in H1 as [H1|H1]; apply elem_of_cons in H2 as [H2|H2].
    + congruence.
    + inversion H1; subst. destruct Hnotin.
      apply list_elem_of_fmap. by exists (d', k0).
    + inversion H2; subst. destruct Hnotin.
      apply list_elem_of_fmap. by exists (d, k0).
    + by apply IH.
Qed.

Lemma wf_shouldExecuteMacro name uuid g :
  wf g → wf (shouldExecuteMacro name uuid g).2.
Proof.
  intros Hwf. unfold shouldExecuteMacro.
  destruct (decide (dedup_key name uuid ∈ recentlyExecuted g)) as [Hin|Hnin];
    [exact Hwf|].
  destruct Hwf as (Hnd & Hset & Hdue). split; [|split]; cbn.
  - rewrite fmap_app. cbn. apply NoDup_app. split; [done|]. split.
    + intros k Hk Hk'. apply list_elem_of_singleton in Hk'. subst k.
      by apply Hset in Hk.
    + apply NoDup_singleton.
  - intros k. rewrite fmap_app, elem_of_app, elem_of_union, Hset. cbn.
    rewrite elem_of_singleton, list_elem_of_singleton. tauto.
  - intros x Hx. apply elem_of_app in Hx as [Hx|Hx].
    + apply Hdue in Hx. lia.
    + apply list_elem_of_singleton in Hx. subst x. cbn. lia.
Qed.

Lemma wf_advance dt g : wf g → wf (advance dt g).
Proof.
  intros (Hnd & Hset & Hdue). unfold advance. split; [|split]; cbn.
  - apply (sublist_NoDup _ (timers g).*2); [done|].
    apply fmap_sublist, sublist_filter.
  - intros k. split.
    + intros Hk. apply elem_of_difference in Hk as [Hk Hnot].
      apply Hset in Hk. apply list_elem_of_fmap in Hk as ([d k'] & -> & Hin).
      apply list_elem_of_fmap. exists (d, k'). split; [done|].
      apply list_elem_of_filter. split; [|done]. cbn.
      destruct (decide (now g + dt < d)) as [|Hle]; [done|].
      destruct Hnot. apply elem_of_list_to_set, list_elem_of_fmap.
      exists (d, k'). split; [done|].
      apply list_elem_of_filter. cbn. split; [lia|done].
    + intros Hk. apply list_elem_of_fmap in Hk as ([d k'] & -> & Hin).
      apply list_elem_of_filter in Hin as [Hlt Hin]. cbn in *.
      apply elem_of_difference. split.
      * apply Hset, list_elem_of_fmap. by exists (d, k').
      * intros Hdue'. apply elem_of_list_to_set, list_elem_of_fmap in Hdue'
          as ([d' k''] & Heq & Hin'). cbn in Heq. subst k''.
        apply list_elem_of_filter in Hin' as [Hle Hin']. cbn in Hle.
        pose proof (timers_functional _ _ _ _ Hnd Hin Hin'). lia.
  - intros x Hx. apply list_elem_of_filter in Hx as [Hlt Hin].
    apply Hdue in Hin. lia.
Qed.

(** ** The text matching on examples *)

Example strip_tags_ex :
  strip_tags "<p>Uses <b>Healing Potion</b></p>" = "Uses Healing Potion".
Proof. reflexivity. Qed.

Example strip_tags_open : strip_tags "a < b" = "a < b".
Proof. reflexivity. Qed.

Example match_uses_ex : match_uses "uSeS   Healing Potion" = Some "Healing Potion".
Proof. reflexivity. Qed.

Example match_uses_alone : match_uses "Uses" = None.
Proof. reflexivity. Qed.

Example match_flavor_ex :
  match_flavor
    ("<span data-item-id=" +:+ String dquote "abc" +:+ String dquote " class=x>Elixir</span>")
  = Some "Elixir".
Proof. reflexivity. Qed.

Example match_item_name_ex :
  match_item_name ("<a data-item-name=" +:+ String dquote "Elixir" +:+ String dquote ">")
  = Some "Elixir".
Proof. reflexivity. Qed.

Example split_dot_ex : split_dot "Actor.a1.Item.i9" = ["Actor"; "a1"; "Item"; "i9"].
Proof. reflexivity. Qed.

Example trim_ex : trim "  a b  " = "a b".
Proof. reflexivity. Qed.

Example trim_nbsp : trim (nbsp +:+ " a b" +:+ line_separator) = "a b".
Proof. reflexivity. Qed.

Example match_uses_nbsp :
  match_uses ("Uses" +:+ nbsp +:+ "Healing Potion") = Some "Healing Potion".
Proof. reflexivity. Qed.

Example match_uses_line_separator :
  match_uses ("Uses Healing" +:+ line_separator +:+ "Potion") = None.
Proof. reflexivity. Qed.

Example match_uses_spaces_only : match_uses ("Uses " +:+ nbsp) = Some nbsp.
Proof. reflexivity. Qed.

(** ** The suppressor in the event loop *)

Lemma wf_run_sync p : ∀ g, wf g → wf (run_sync p g).1.
Proof.
  induction p as [| |name uuid k IH|id v k IH|id k IH|id k IH|e k IH| |];
    intros g Hwf; cbn; try done.
  - pose proof (wf_shouldExecuteMacro name uuid g Hwf) as Hwf'.
    destruct (shouldExecuteMacro name uuid g) as [b g']. by apply IH.
  - by apply IH.
  - by apply IH.
  - by apply IH.
  - by apply IH.
Qed.

Lemma wf_resume h t g : wf g → wf (resume h t g).1.
Proof. destruct t; apply wf_run_sync. Qed.

Lemma wf_step h s a : wf (rt s) → wf (rt (step h s a)).
Proof.
  intros Hwf. destruct a as [n|i|dt]; cbn.
  - pose proof (wf_run_sync (handler h n) _ Hwf) as H.
    by destruct (run_sync (handler h n) (rt s)).
  - destruct (pool s !! i) as [t|]; [|done].
    pose proof (wf_resume h t _ Hwf) as H.
    by destruct (resume h t (rt s)).
  - by apply wf_advance.
Qed.

Lemma wf_run h sch : ∀ s, wf (rt s) → wf (rt (run h s sch)).
Proof.
  induction sch as [|a sch IH]; intros s Hwf; [done|].
  cbn. apply IH. by apply wf_step.
Qed.






(** ** Two callbacks on examples *)

Example use_potion_trace :
  trace (settle Sample.host (NUseItem Sample.potion "ev" "tg") init)
  = [(0, EvFromUuid "Macro.heal");
     (0, EvSetTimeout "Healing Potion:Macro.heal" 500);
     (0, EvExecute Sample.heal
           {| ctx_actor := Some "a1"; ctx_token := Some "t1";
              ctx_character := Some "a1"; ctx_item := DocItem Sample.potion;
              ctx_speaker := Sample.narrator; ctx_event := Some "ev";
              ctx_target := Some "tg"; ctx_message := None |})].
Proof. vm_compute. reflexivity. Qed.

Example chat_potion_invocations :
  (invocations (settle Sample.host (NCreateChatMessage Sample.uses_potion "me") init)).*1
  = [Sample.heal].
Proof. vm_compute. reflexivity. Qed.

(** ** The key of the suppressor *)

Lemma contains_char_app c a b :
  contains_char c (a +:+ b) = contains_char c a || contains_char c b.
Proof.
  induction a as [|d a IH]; [done|].
  change (Ascii.eqb c d || contains_char c (a +:+ b)
          = (Ascii.eqb c d || contains_char c a) || contains_char c b).
  rewrite IH. by rewrite orb_assoc.
Qed.

Lemma dedup_key_cons c name uuid :
  dedup_key (String c name) uuid = String c (dedup_key name uuid).
Proof. reflexivity. Qed.

Lemma dedup_key_has_colon name uuid : contains_char ":" (dedup_key name uuid) = true.
Proof.
  unfold dedup_key. rewrite !contains_char_app. cbn. by rewrite orb_true_r.
Qed.

(** The key determines the pair when the names hold no colon. *)
Lemma dedup_key_inj_names n1 : ∀ n2 u1 u2,
  contains_char ":" n1 = false → contains_char ":" n2 = false →
  dedup_key n1 u1 = dedup_key n2 u2 → n1 = n2 ∧ u1 = u2.
Proof.
  induction n1 as [|c n1 IH]; intros [|d n2] u1 u2 H1 H2 Heq.
  - cbn in Heq. by inversion Heq.
  - cbn in Heq. inversion Heq; subst. discriminate H2.
  - cbn in Heq. inversion Heq; subst. discriminate H1.
  - rewrite !dedup_key_cons in Heq. inversion Heq; subst.
    cbn in H1, H2. apply orb_false_elim in H1 as [_ H1].
    apply orb_false_elim in H2 as [_ H2].
    destruct (IH n2 u1 u2 H1 H2) as [-> ->]; done.
Qed.

(** The key determines the pair when the macro references hold no colon. *)
Lemma dedup_key_inj_uuids n1 : ∀ n2 u1 u2,
  contains_char ":" u1 = false → contains_char ":" u2 = false →
  dedup_key n1 u1 = dedup_key n2 u2 → n1 = n2 ∧ u1 = u2.
Proof.
  induction n1 as [|c n1 IH]; intros [|d n2] u1 u2 H1 H2 Heq.
  - cbn in Heq. by inversion Heq.
  - change (String ":" u1 = String d (dedup_key n2 u2)) in Heq.
    inversion Heq as [[Hd Hu]]. rewrite Hu in H1.
    by rewrite dedup_key_has_colon in H1.
  - change (String c (dedup_key n1 u1) = String ":" u2) in Heq.
    inversion Heq as [[Hd Hu]]. rewrite <- Hu in H2.
    by rewrite dedup_key_has_colon in H2.
  - rewrite !dedup_key_cons in Heq. inversion Heq; subst.
    destruct (IH n2 u1 u2 H1 H2) as [-> ->]; done.
Qed.

(** C10, as amended.  On pairs whose item names hold no colon, or whose
    macro references hold none, the key is injective: two distinct pairs
    have distinct keys, and whatever the suppressor did with the first pair
    leaves its answer for the second unchanged. *)
Theorem dedup_key_injective (n1 u1 n2 u2 : string) (g : Runtime) :
  (contains_char ":" n1 = false ∧ contains_char ":" n2 = false)
  ∨ (contains_char ":" u1 = false ∧ contains_char ":" u2 = false) →
  (n1, u1) ≠ (n2, u2) →
  dedup_key n1 u1 ≠ dedup_key n2 u2
  ∧ (shouldExecuteMacro n2 u2 (shouldExecuteMacro n1 u1 g).2).1
    = (shouldExecuteMacro n2 u2 g).1.
Proof.
  intros Hcolon Hne.
  assert (Hkey : dedup_key n1 u1 ≠ dedup_key n2 u2).
  { intros Heq. apply Hne.
    destruct Hcolon as [[H1 H2]|[H1 H2]].
    - destruct (dedup_key_inj_names _ _ _ _ H1 H2 Heq) as [-> ->]; done.
    - destruct (dedup_key_inj_uuids _ _ _ _ H1 H2 Heq) as [-> ->]; done. }
  split; [done|].
  unfold shouldExecuteMacro at 2.
  destruct (decide (dedup_key n1 u1 ∈ recentlyExecuted g)); [done|].
  unfold shouldExecuteMacro. cbn.
  destruct (decide (dedup_key n2 u2 ∈ recentlyExecuted g)) as [Hin|Hnin].
  - rewrite decide_True; [done|]. apply elem_of_union. by right.
  - rewrite decide_False; [done|].
    intros [H|H]%elem_of_union; [|done].
    apply elem_of_singleton in H. congruence.
Qed.

Lemma dedup_key_injective_witness :
  ((contains_char ":" "Healing Potion" = false ∧ contains_char ":" "Elixir" = false)
   ∨ (contains_char ":" "Macro.heal" = false ∧ contains_char ":" "Macro.heal" = false))
  ∧ ("Healing Potion", "Macro.heal") ≠ ("Elixir", "Macro.heal")
  ∧ dedup_key "Healing Potion" "Macro.heal" ≠ dedup_key "Elixir" "Macro.heal"
  ∧ (shouldExecuteMacro "Elixir" "Macro.heal"
       (shouldExecuteMacro "Healing Potion" "Macro.heal" init).2).1
    = (shouldExecuteMacro "Elixir" "Macro.heal" init).1.
Proof.
  assert (H1 : (contains_char ":" "Healing Potion" = false
                ∧ contains_char ":" "Elixir" = false)
               ∨ (contains_char ":" "Macro.heal" = false
                  ∧ contains_char ":" "Macro.heal" = false)).
  { left. split; reflexivity. }
  assert (H2 : ("Healing Potion", "Macro.heal") ≠ ("Elixir", "Macro.heal")).
  { discriminate. }
  split; [exact H1|]. split; [exact H2|].
  exact (dedup_key_injective "Healing Potion" "Macro.heal" "Elixir" "Macro.heal"
           init H1 H2).
Defined.

(** C10 as stated fails: two distinct pairs collide on one key, and
    admitting the first suppresses the second. *)
Lemma dedup_key_collision :
  ("A:B", "C") ≠ ("A", "B:C")
  ∧ dedup_key "A:B" "C" = dedup_key "A" "B:C"
  ∧ (shouldExecuteMacro "A" "B:C" init).1 = true
  ∧ (shouldExecuteMacro "A" "B:C" (shouldExecuteMacro "A:B" "C" init).2).1 = false.
Proof. split; [discriminate|]. vm_compute. done. Qed.

(** ** One callback on its own, inside the event loop *)


Lemma run_cons h s a sch : run h s (a :: sch) = run h (step h s a) sch.
Proof. reflexivity. Qed.

Lemma run_resume_idle h g (P : list Task) k :
  run h {| rt := g; pool := P |} (replicate k (Resume (length P)))
  = {| rt := g; pool := P |}.
Proof.
  induction k as [|k IH]; [done|]. cbn.
  rewrite (lookup_ge_None_2 P (length P)); [exact IH|lia].
Qed.

Lemma step_resume_last h g (P : list Task) t :
  step h {| rt := g; pool := P ++ [t] |} (Resume (length P))
  = {| rt := (resume h t g).1; pool := P ++ option_list (resume h t g).2 |}.
Proof.
  cbn. rewrite lookup_app_r, Nat.sub_diag; [|lia]. cbn.
  destruct (resume h t g) as [g' t']. cbn.
  rewrite take_app_length, drop_ge; [|rewrite length_app; cbn; lia].
  by rewrite app_nil_r.
Qed.

(** Once the callback has been started, resuming it until it ends gives
    what [run_alone] computes; further resumptions find nothing to do. *)
Lemma run_alone_loop h (P : list Task) p : ∀ g, ∃ k, ∀ k', k ≤ k' →
  run h {| rt := (run_sync p g).1; pool := P ++ option_list (run_sync p g).2 |}
      (replicate k' (Resume (length P)))
  = {| rt := run_alone h p g; pool := P |}.
Proof.
  induction p as [| |name uuid k IH|id v k IH|id k IH|id k IH|o k IH
                 |uuid k IH|macro ctx k IH]; intros g; cbn.
  - exists 0. intros k' _. rewrite app_nil_r. apply run_resume_idle.
  - exists 0. intros k' _. rewrite app_nil_r. apply run_resume_idle.
  - destruct (shouldExecuteMacro name uuid g) as [b g']. apply IH.
  - apply IH.
  - apply IH.
  - apply IH.
  - apply IH.
  - destruct (IH (fromUuid h uuid) (emit (EvFromUuid uuid) g)) as [k0 Hk0].
    exists (S k0). intros [|k'] Hle; [lia|].
    cbn [replicate]. rewrite run_cons, step_resume_last. cbn [resume].
    apply Hk0. lia.
  - destruct (IH (host_execute h macro ctx) (emit (EvExecute macro ctx) g))
      as [k0 Hk0].
    exists (S k0). intros [|k'] Hle; [lia|].
    cbn [replicate]. rewrite run_cons, step_resume_last. cbn [resume].
    apply Hk0. lia.
Qed.

(** [settle] is the event loop delivering the notification and then
    resuming its callback, and nothing else, until it has ended. *)
Lemma settle_loop h n g (P : list Task) : ∃ k, ∀ k', k ≤ k' →
  run h {| rt := g; pool := P |} (Deliver n :: replicate k' (Resume (length P)))
  = {| rt := settle h n g; pool := P |}.
Proof.
  destruct (run_alone_loop h P (handler h n) g) as [k Hk].
  exists k. intros k' Hle. rewrite run_cons. cbn [step rt pool].
  specialize (Hk k' Hle).
  destruct (run_sync (handler h n) g) as [g' t]. exact Hk.
Qed.

(** ** What the trace readers see of one more event *)

Lemma quiet_refl g : quiet_ext g g.
Proof.
  repeat split; try done. exists []. by rewrite app_nil_r.
Qed.

Lemma quiet_trans g1 g2 g3 : quiet_ext g1 g2 → quiet_ext g2 g3 → quiet_ext g1 g3.
Proof.
  intros (A1 & A2 & A3 & A5 & A6 & A7 & A8 & ws1 & A9)
         (B1 & B2 & B3 & B5 & B6 & B7 & B8 & ws2 & B9).
  repeat split; try congruence.
  exists (ws1 ++ ws2)%list. by rewrite B9, A9, fmap_app, app_assoc.
Qed.

Lemma quiet_emit_uuid g u : quiet_ext g (emit (EvFromUuid u) g).
Proof.
  repeat split; try done;
    try (unfold invocations, notifications, rejections, admissions, outputs;
         cbn; rewrite ?omap_app; cbn; by rewrite ?app_nil_r).
  exists []. unfold outputs. cbn. rewrite omap_app. done.
Qed.

Lemma quiet_emit_warn g w : quiet_ext g (emit (EvOutput (ConsoleWarn w)) g).
Proof.
  repeat split; try done;
    try (unfold invocations, notifications, rejections, admissions, outputs;
         cbn; rewrite ?omap_app; cbn; by rewrite ?app_nil_r).
  exists [w]. unfold outputs. cbn. rewrite omap_app. done.
Qed.

Lemma quiet_set_consumed g m : quiet_ext g (set_consumedItems m g).
Proof.
  repeat split; try done. exists []. by rewrite app_nil_r.
Qed.

Lemma quiet_wf g g' : quiet_ext g g' → wf g → wf g'.
Proof.
  intros (A1 & A2 & A3 & _) Hwf. unfold wf. by rewrite A1, A2, A3.
Qed.

Ltac quiet :=
  repeat first
    [ apply quiet_refl
    | apply quiet_emit_uuid
    | apply quiet_emit_warn
    | apply quiet_set_consumed
    | eapply quiet_trans;
        [|first [apply quiet_emit_uuid | apply quiet_emit_warn
                | apply quiet_set_consumed]] ].

(** The chat-message callback finds its item as [resolve_item] says, and
    does nothing but look locators up and warn while doing so. *)
Lemma run_alone_byName h message actor k g : ∃ g',
  quiet_ext g g'
  ∧ run_alone h (createChatMessage_byName h message actor k) g
    = run_alone h (k (search_by_name h message actor)) g'.
Proof.
  unfold createChatMessage_byName, search_by_name.
  destruct (extract_item_name message) as [itemName|]; cbn;
    [|eexists; split; [|reflexivity]; quiet].
  destruct (negb (negb (String.eqb itemName ""))); cbn;
    [eexists; split; [|reflexivity]; quiet|].
  destruct (find_consumable itemName (actor_items actor)); cbn;
    [eexists; split; [|reflexivity]; quiet|].
  destruct (find_consumable itemName (world_items h)); cbn;
    [eexists; split; [|reflexivity]; quiet|].
  destruct (msg_origin_sourceId message) as [sourceId|]; cbn;
    [|eexists; split; [|reflexivity]; quiet].
  destruct (negb (String.eqb sourceId "")); cbn;
    [|eexists; split; [|reflexivity]; quiet].
  destruct (fromUuid h sourceId) as [d| |e]; cbn.
  - destruct (String.eqb (doc_name d) itemName);
      (eexists; split; [|reflexivity]; quiet).
  - eexists; split; [|reflexivity]; quiet.
  - eexists; split; [|reflexivity]; quiet.
Qed.

Lemma bool_decide_Some_eqb (a b : string) :
  bool_decide (Some a = Some b) = String.eqb a b.
Proof.
  destruct (String.eqb_spec a b) as [->|Hne].
  - by apply bool_decide_eq_true.
  - apply bool_decide_eq_false. congruence.
Qed.

Lemma run_alone_parse h message originUuid k g : ∃ g',
  quiet_ext g g'
  ∧ run_alone h (createChatMessage_parse h message originUuid k) g
    = run_alone h (k (parse_origin h message originUuid)) g'.
Proof.
  unfold createChatMessage_parse, parse_origin.
  destruct (split_dot originUuid) as [|owner [|actorId [|kind rest]]];
    try (cbn; eexists; split; [|reflexivity]; quiet).
  destruct rest as [|itemId rest];
    cbn -[createChatMessage_byName search_by_name items_get];
    rewrite !bool_decide_Some_eqb.
  all: destruct (String.eqb owner "Actor" && String.eqb kind "Item");
    [|eexists; split; [|reflexivity]; quiet].
  all: destruct (actors_get h actorId) as [actor|];
    [|eexists; split; [|reflexivity]; quiet].
  - destruct (items_get actor None);
      [eexists; split; [|reflexivity]; quiet|]. apply run_alone_byName.
  - destruct (items_get actor (Some itemId));
      [eexists; split; [|reflexivity]; quiet|]. apply run_alone_byName.
Qed.

Lemma run_alone_resolve h message k g : ∃ g',
  quiet_ext g g'
  ∧ run_alone h (createChatMessage_resolve h message k) g
    = run_alone h (k (resolve_item h message)) g'.
Proof.
  unfold createChatMessage_resolve, resolve_item.
  destruct (msg_item message) as [i|]; cbn.
  { destruct (msg_context_item message); eexists; (split; [|reflexivity]); quiet. }
  assert (Horigin : ∀ g0, quiet_ext g g0 → ∃ g',
    quiet_ext g g'
    ∧ run_alone h
        match msg_origin_uuid message with
        | Some originUuid =>
            if truthy_str (Some originUuid) then
              try_fromUuid originUuid "origin" (λ item,
                match item with
                | Some d => k (Some d)
                | None => createChatMessage_parse h message originUuid k
                end)
            else k None
        | None => k None
        end g0
      = run_alone h
          (k match msg_origin_uuid message with
             | Some ou =>
                 if truthy_str (Some ou) then
                   match found (fromUuid h ou) with
                   | Some d => Some d
                   | None => parse_origin h message ou
                   end
                 else None
             | None => None
             end) g').
  { intros g0 Hq.
    destruct (msg_origin_uuid message) as [ou|];
      [|eexists; split; [|reflexivity]; done].
    destruct (truthy_str (Some ou)); [|eexists; split; [|reflexivity]; done].
    cbn. destruct (fromUuid h ou) as [d| |e]; cbn.
    - eexists; split; [|reflexivity]. eapply quiet_trans; [exact Hq|quiet].
    - destruct (run_alone_parse h message ou k (emit (EvFromUuid ou) g0))
        as (g' & Hq' & ->).
      exists g'. split; [|done].
      eapply quiet_trans; [exact Hq|]. eapply quiet_trans; [|exact Hq']. quiet.
    - destruct (run_alone_parse h message ou k
                  (emit (EvOutput (ConsoleWarn
                     (MODULE_ID +:+ " | Could not get item from " +:+ "origin"
                      +:+ " UUID: " +:+ e)))
                     (emit (EvFromUuid ou) g0)))
        as (g' & Hq' & ->).
      exists g'. split; [|done].
      eapply quiet_trans; [exact Hq|]. eapply quiet_trans; [|exact Hq']. quiet. }
  destruct (msg_context_item message) as [u|]; [|apply Horigin; quiet].
  change (truthy_str (Some u)) with (negb (String.eqb u "")).
  destruct (negb (String.eqb u "")); [|apply Horigin; quiet].
  cbn. destruct (fromUuid h u) as [d| |e]; cbn.
  - eexists; split; [|reflexivity]. quiet.
  - apply Horigin. quiet.
  - apply Horigin. quiet.
Qed.

(** ** The pre-update path *)

Ltac readers :=
  unfold invocations, notifications, outputs, rejections, admissions, resolutions;
  cbn; rewrite ?omap_app; cbn; rewrite ?app_nil_r.

Lemma truthy_str_Some u : u ≠ "" → truthy_str (Some u) = true.
Proof.
  intros Hne. cbn. destruct (String.eqb_spec u ""); [done|reflexivity].
Qed.

Lemma invocations_try_execute h m ctx name g :
  invocations (run_alone h (try_execute (DocMacro m) ctx name) g)
  = (invocations g ++ [(m, ctx)])%list.
Proof.
  cbn. destruct (host_execute h m ctx) as [[| |msg]|]; readers; done.
Qed.

(** C4.  For a consumable with an attached, resolvable macro, a recorded
    quantity and no live entry, the pre-update callback invokes the macro
    exactly when the payload carries a quantity that is not zero and is
    below the current one.  A new quantity of zero counts as no quantity
    field at all: the callback returns at once and nothing is invoked. *)
Theorem preUpdateItem_quantity (h : Host) (g : Runtime) (item : Item)
    (change : Change) (userId u : string) (m : Macro) (old : Z) :
  userId = user_id h →
  item_type item = "consumable" →
  getFlag item MODULE_ID FLAG_MACRO_UUID = Some u → u ≠ "" →
  fromUuid h u = Found (DocMacro m) →
  dedup_key (item_name item) u ∉ recentlyExecuted g →
  item_quantity item = Some old →
  let g' := settle h (NPreUpdateItem item change userId) g in
  (invocations g' ≠ invocations g ↔
     ∃ new, change_quantity change = Some new ∧ new ≠ 0%Z ∧ (new < old)%Z)
  ∧ (∀ new, change_quantity change = Some new → new ≠ 0%Z → (new < old)%Z →
       ∃ ctx, ctx_item ctx = DocItem item
              ∧ invocations g' = (invocations g ++ [(m, ctx)])%list)
  ∧ (change_quantity change = Some 0%Z → g' = g).
Proof.
  intros -> Htype Hflag Hu Hres Hfresh Hold g'.
  assert (Hyes : ∀ new, change_quantity change = Some new → new ≠ 0%Z →
            (new < old)%Z →
            ∃ ctx, ctx_item ctx = DocItem item
                   ∧ invocations g' = (invocations g ++ [(m, ctx)])%list).
  { intros new Hnew Hnz Hlt. subst g'.
    unfold settle, handler, preUpdateItem.
    rewrite String.eqb_refl, Htype, Hnew, Hold, Hflag, (truthy_str_Some u Hu).
    cbn [negb String.eqb Ascii.eqb Bool.eqb truthy_num js_ge].
    replace (new =? 0)%Z with false by (symmetry; by apply Z.eqb_neq).
    replace (old <=? new)%Z with false by (symmetry; apply Z.leb_gt; lia).
    cbn [negb run_alone]. rewrite Hres.
    cbn [run_alone]. unfold shouldExecuteMacro.
    rewrite decide_False by (cbn; exact Hfresh).
    cbn [negb]. eexists.
    split; [|rewrite invocations_try_execute; f_equal; readers; done].
    reflexivity. }
  assert (Hno : (∀ new, change_quantity change = Some new →
                   new = 0%Z ∨ (old <= new)%Z) → g' = g).
  { intros Hq. subst g'. unfold settle, handler, preUpdateItem.
    rewrite String.eqb_refl, Htype, Hold.
    cbn [negb String.eqb Ascii.eqb Bool.eqb].
    destruct (change_quantity change) as [new|]; [|reflexivity].
    cbn [truthy_num js_ge].
    destruct (Z.eqb_spec new 0) as [|Hnz]; [reflexivity|].
    destruct (Hq new eq_refl) as [|Hle]; [done|].
    cbn [negb]. replace (old <=? new)%Z with true; [reflexivity|].
    symmetry. by apply Z.leb_le. }
  split; [split|split].
  - intros Hne. destruct (change_quantity change) as [new|] eqn:Hq.
    + destruct (decide (new = 0%Z)) as [->|Hnz].
      { destruct Hne. f_equal. apply Hno. intros ? [= <-]. by left. }
      destruct (decide (new < old)%Z) as [Hlt|Hge]; [by exists new|].
      destruct Hne. f_equal. apply Hno. intros ? [= <-]. right. lia.
    + destruct Hne. f_equal. apply Hno. intros ? [=].
  - intros (new & Hnew & Hnz & Hlt).
    destruct (Hyes new Hnew Hnz Hlt) as (ctx & _ & ->).
    intros Heq. apply (f_equal length) in Heq. rewrite length_app in Heq.
    cbn in Heq. lia.
  - exact Hyes.
  - intros Hzero. apply Hno. intros new Hnew. left. congruence.
Qed.

Lemma preUpdateItem_quantity_witness :
  let change := {| change_quantity := Some 0%Z |} in
  let g' := settle Sample.host (NPreUpdateItem Sample.potion change "me") init in
  "me" = user_id Sample.host
  ∧ item_type Sample.potion = "consumable"
  ∧ getFlag Sample.potion MODULE_ID FLAG_MACRO_UUID = Some "Macro.heal"
  ∧ "Macro.heal" ≠ ""
  ∧ fromUuid Sample.host "Macro.heal" = Found (DocMacro Sample.heal)
  ∧ (dedup_key (item_name Sample.potion) "Macro.heal" ∉ recentlyExecuted init)
  ∧ item_quantity Sample.potion = Some 1%Z
  ∧ (invocations g' ≠ invocations init ↔
       ∃ new, change_quantity change = Some new ∧ new ≠ 0%Z ∧ (new < 1)%Z)
  ∧ (∀ new, change_quantity change = Some new → new ≠ 0%Z → (new < 1)%Z →
       ∃ ctx, ctx_item ctx = DocItem Sample.potion
              ∧ invocations g' = (invocations init ++ [(Sample.heal, ctx)])%list)
  ∧ (change_quantity change = Some 0%Z → g' = init).
Proof.
  intros change g'.
  assert (H1 : "me" = user_id Sample.host) by reflexivity.
  assert (H2 : item_type Sample.potion = "consumable") by reflexivity.
  assert (H3 : getFlag Sample.potion MODULE_ID FLAG_MACRO_UUID = Some "Macro.heal")
    by (vm_compute; reflexivity).
  assert (H4 : "Macro.heal" ≠ "") by discriminate.
  assert (H5 : fromUuid Sample.host "Macro.heal" = Found (DocMacro Sample.heal))
    by reflexivity.
  assert (H6 : dedup_key (item_name Sample.potion) "Macro.heal"
               ∉ recentlyExecuted init) by apply not_elem_of_empty.
  assert (H7 : item_quantity Sample.potion = Some 1%Z) by reflexivity.
  repeat (split; [assumption|]).
  exact (preUpdateItem_quantity Sample.host init Sample.potion change "me"
           "Macro.heal" Sample.heal 1%Z H1 H2 H3 H4 H5 H6 H7).
Defined.

(** The failing input of C4, run: the stack of one potion is used up, the
    payload says quantity zero, and the callback does nothing. *)
Example preUpdateItem_to_zero :
  settle Sample.host
    (NPreUpdateItem Sample.potion {| change_quantity := Some 0%Z |} "me") init
  = init.
Proof. reflexivity. Qed.

Example preUpdateItem_three_to_two :
  (invocations
     (settle Sample.host
        (NPreUpdateItem
           {| item_id := "i1"; item_name := "Healing Potion";
              item_type := "consumable"; item_quantity := Some 3%Z;
              item_flags := Sample.attach "Macro.heal";
              item_parent := Some "a1" |}
           {| change_quantity := Some 2%Z |} "me") init)).*1
  = [Sample.heal].
Proof. vm_compute. reflexivity. Qed.

(** ** Notifications of other users *)

(** C6, as amended.  A pre-update, pre-delete or chat-message notification
    of another user is ignored: the callback returns at once, with no
    look-up, no invocation and no change of state.  The post-delete callback
    does not look at the user; it is ignored whenever the pending table has
    no entry for the item, and only a pre-delete of the session user writes
    one.  (The two pf2e notifications carry no user.) *)
Theorem other_user_ignored (h : Host) (g : Runtime) (n : Notification)
    (userId : string) :
  notification_user n = Some userId →
  userId ≠ user_id h →
  (∀ item uid, n = NDeleteItem item uid → consumedItems g !! item_id item = None) →
  run_sync (handler h n) g = (g, None).
Proof.
  intros Huser Hne Hdel.
  assert (Heqb : String.eqb userId (user_id h) = false)
    by (by apply String.eqb_neq).
  destruct n as [item change uid|item uid|item uid|item ev tg|item actor|msg uid];
    cbn in Huser; try discriminate; injection Huser as ->.
  - cbn. unfold preUpdateItem. by rewrite Heqb.
  - cbn. unfold preDeleteItem. by rewrite Heqb.
  - cbn. by rewrite (Hdel item userId eq_refl).
  - cbn. unfold createChatMessage. by rewrite Heqb.
Qed.

Lemma other_user_ignored_witness :
  let n := NCreateChatMessage Sample.uses_potion "someone" in
  notification_user n = Some "someone"
  ∧ "someone" ≠ user_id Sample.host
  ∧ (∀ item uid, n = NDeleteItem item uid → consumedItems init !! item_id item = None)
  ∧ run_sync (handler Sample.host n) init = (init, None).
Proof.
  intros n.
  assert (H1 : notification_user n = Some "someone") by reflexivity.
  assert (H2 : "someone" ≠ user_id Sample.host) by discriminate.
  assert (H3 : ∀ item uid, n = NDeleteItem item uid →
                 consumedItems init !! item_id item = None) by discriminate.
  repeat (split; [assumption|]).
  exact (other_user_ignored Sample.host init n "someone" H1 H2 H3).
Defined.

(** C6 as stated fails on the post-delete path: with a pending entry for
    the item, a post-delete notification of another user resolves the macro
    and invokes it. *)
Lemma other_user_delete_invokes :
  let g1 := settle Sample.host (NPreDeleteItem Sample.potion "me") init in
  let n := NDeleteItem Sample.potion "someone" in
  notification_user n = Some "someone"
  ∧ "someone" ≠ user_id Sample.host
  ∧ resolutions (settle Sample.host n g1) = ["Macro.heal"]
  ∧ (invocations (settle Sample.host n g1)).*1 = [Sample.heal].
Proof.
  cbn zeta. split; [reflexivity|]. split; [discriminate|].
  vm_compute. split; reflexivity.
Qed.

(** ** Every callback ends in [dispatch], or does nothing to speak of *)

Lemma handler_plan h n g :
  quiet_ext g (settle h n g)
  ∨ ∃ g0 name u missing ctx,
      quiet_ext g g0
      ∧ macro_ref h g n = Some u
      ∧ (missing = Ret ∨ ∃ w, missing = Emit (ConsoleWarn w) Ret)
      ∧ settle h n g = run_alone h (dispatch name u missing ctx) g0.
Proof.
  destruct n as [item change uid|item uid|item uid|item ev tg|item actor|msg uid];
    unfold settle, handler, macro_ref.
  - unfold preUpdateItem.
    destruct (negb (String.eqb uid (user_id h))); [left; quiet|].
    destruct (negb (String.eqb (item_type item) "consumable")); [left; quiet|].
    destruct (negb (truthy_num (change_quantity change))); [left; quiet|].
    destruct (change_quantity change) as [new|]; [|left; quiet].
    destruct (js_ge new (item_quantity item)); [left; quiet|].
    destruct (getFlag item MODULE_ID FLAG_MACRO_UUID) as [u|]; [|left; quiet].
    destruct (negb (truthy_str (Some u))); [left; quiet|].
    right. do 5 eexists. split; [apply quiet_refl|].
    split; [reflexivity|]. split; [right; eexists; reflexivity|]. reflexivity.
  - left. unfold preDeleteItem.
    destruct (negb (String.eqb uid (user_id h))); [quiet|].
    destruct (negb (String.eqb (item_type item) "consumable")); [quiet|].
    destruct (getFlag item MODULE_ID FLAG_MACRO_UUID) as [u|]; [|quiet].
    destruct (negb (truthy_str (Some u))); [quiet|]. cbn. quiet.
  - unfold deleteItem. cbn [run_alone].
    destruct (consumedItems g !! item_id item) as [st|]; [|left; quiet].
    right. cbn [run_alone]. do 5 eexists. split; [apply quiet_set_consumed|].
    split; [reflexivity|]. split; [right; eexists; reflexivity|]. reflexivity.
  - unfold pf2e_useItem.
    destruct (negb (String.eqb (item_type item) "consumable")); [left; quiet|].
    destruct (getFlag item MODULE_ID FLAG_MACRO_UUID) as [u|]; [|left; quiet].
    destruct (negb (truthy_str (Some u))); [left; quiet|].
    right. do 5 eexists. split; [apply quiet_refl|].
    split; [reflexivity|]. split; [by left|]. reflexivity.
  - unfold pf2e_consumeItem.
    destruct (getFlag item MODULE_ID FLAG_MACRO_UUID) as [u|]; [|left; quiet].
    destruct (negb (truthy_str (Some u))); [left; quiet|].
    right. do 5 eexists. split; [apply quiet_refl|].
    split; [reflexivity|]. split; [by left|]. reflexivity.
  - unfold createChatMessage.
    destruct (negb (String.eqb uid (user_id h))); [left; quiet|].
    destruct (run_alone_resolve h msg (createChatMessage_dispatch h msg) g)
      as (g0 & Hq & ->).
    unfold createChatMessage_dispatch.
    destruct (resolve_item h msg) as [d|]; [|left; exact Hq].
    destruct (negb (String.eqb (doc_type d) "consumable")); [left; exact Hq|].
    cbn [mbind option_bind].
    destruct (doc_getFlag d MODULE_ID FLAG_MACRO_UUID) as [u|]; [|left; exact Hq].
    destruct (negb (truthy_str (Some u))); [left; exact Hq|].
    right. do 5 eexists. split; [exact Hq|].
    split; [reflexivity|]. split; [right; eexists; reflexivity|]. reflexivity.
Qed.

Lemma dispatch_missing h name u missing ctx g :
  fromUuid h u = NotFound →
  (missing = Ret ∨ ∃ w, missing = Emit (ConsoleWarn w) Ret) →
  quiet_ext g (run_alone h (dispatch name u missing ctx) g).
Proof.
  intros Hres Hm. cbn. rewrite Hres.
  destruct Hm as [->|[w ->]]; cbn; quiet.
Qed.

Lemma dispatch_live h name u missing ctx g d :
  fromUuid h u = Found d →
  dedup_key name u ∈ recentlyExecuted g →
  quiet_ext g (run_alone h (dispatch name u missing ctx) g).
Proof.
  intros Hres Hlive. cbn. rewrite Hres. cbn. unfold shouldExecuteMacro.
  rewrite decide_True by exact Hlive. cbn. quiet.
Qed.

(** The state right after the suppressor has admitted the key. *)
Lemma dispatch_fresh h name u missing ctx g d :
  fromUuid h u = Found d →
  dedup_key name u ∉ recentlyExecuted g →
  run_alone h (dispatch name u missing ctx) g
  = run_alone h (try_execute d ctx name)
      (shouldExecuteMacro name u (emit (EvFromUuid u) g)).2.
Proof.
  intros Hres Hfresh. cbn. rewrite Hres. cbn. unfold shouldExecuteMacro.
  rewrite decide_False by exact Hfresh. reflexivity.
Qed.

(** ** A macro that is gone, a macro that fails *)

(** C8.  On every path, when the macro reference of the item resolves to
    no document, the callback invokes nothing and shows the user nothing:
    beyond locator look-ups, warnings on the console and the removal of the
    pending entry, the state is as before. *)
Theorem missing_macro_silent (h : Host) (g : Runtime) (n : Notification) :
  (∀ u, macro_ref h g n = Some u → fromUuid h u = NotFound) →
  let g' := settle h n g in
  invocations g' = invocations g
  ∧ notifications g' = notifications g
  ∧ rejections g' = rejections g
  ∧ quiet_ext g g'.
Proof.
  intros Href g'.
  assert (Hq : quiet_ext g g').
  { subst g'. destruct (handler_plan h n g)
      as [Hq|(g0 & name & u & missing & ctx & Hq & Hu & Hm & ->)]; [done|].
    eapply quiet_trans; [exact Hq|].
    apply dispatch_missing; [by apply Href|done]. }
  pose proof Hq as (_ & _ & _ & Hi & Hn & Hr & _). done.
Qed.

Lemma missing_macro_silent_witness :
  let item := {| item_id := "i2"; item_name := "Elixir";
                 item_type := "consumable"; item_quantity := Some 2%Z;
                 item_flags := Sample.attach "Macro.gone";
                 item_parent := Some "a1" |} in
  let n := NUseItem item "ev" "tg" in
  let g' := settle Sample.host n init in
  (∀ u, macro_ref Sample.host init n = Some u → fromUuid Sample.host u = NotFound)
  ∧ invocations g' = invocations init
  ∧ notifications g' = notifications init
  ∧ rejections g' = rejections init
  ∧ quiet_ext init g'.
Proof.
  intros item n g'.
  assert (H : ∀ u, macro_ref Sample.host init n = Some u →
                fromUuid Sample.host u = NotFound).
  { intros u Hu. vm_compute in Hu. injection Hu as <-. reflexivity. }
  split; [exact H|].
  exact (missing_macro_silent Sample.host init n H).
Defined.

Lemma app_singleton_inv {A} (l1 l2 : list A) (x y : A) :
  (l1 ++ [x] = l2 ++ [y])%list → l1 = l2 ∧ x = y.
Proof. intros H. by apply app_inj_tail in H. Qed.

Lemma invocations_try_execute_item h i ctx name g :
  invocations (run_alone h (try_execute (DocItem i) ctx name) g) = invocations g.
Proof. readers. done. Qed.

Lemma quiet_invocations_ne g g' mc :
  quiet_ext g g' → invocations g' ≠ (invocations g ++ [mc])%list.
Proof.
  intros (_ & _ & _ & -> & _) Heq. apply (f_equal length) in Heq.
  rewrite length_app in Heq. cbn in Heq. lia.
Qed.

(** C9.  What the callback does when the macro it has invoked fails
    with [err].  The failure is logged with [console.error] in every case.
    When [err] is a value other than [null] and [undefined], the callback
    then shows one notification that carries the text of [err.message]
    ([undefined] when the value has no such property) and ends; no
    rejection leaves it.  When [err] is [null] or [undefined], reading
    [err.message] raises inside the [catch] block: no notification is
    shown and the callback's promise is rejected.  In every case the
    suppressor's tables are as the invocation left them. *)
Theorem macro_failure_reported (h : Host) (g : Runtime) (n : Notification)
    (m : Macro) (ctx : Context) (err : Thrown) :
  let g' := settle h n g in
  invocations g' = (invocations g ++ [(m, ctx)])%list →
  host_execute h m ctx = Some err →
  match err with
  | ThrownValue message =>
      notifications g'
      = (notifications g
           ++ ["Failed to execute macro: " +:+ default "undefined" message])%list
      ∧ rejections g' = rejections g
  | ThrownNull =>
      notifications g' = notifications g
      ∧ rejections g'
        = (rejections g
             ++ ["Cannot read properties of null (reading 'message')"])%list
  | ThrownUndefined =>
      notifications g' = notifications g
      ∧ rejections g'
        = (rejections g
             ++ ["Cannot read properties of undefined (reading 'message')"])%list
  end
  ∧ (wf g → wf g')
  ∧ ∃ g1 name,
      invocations g1 = invocations g'
      ∧ notifications g1 = notifications g
      ∧ rejections g1 = rejections g
      ∧ outputs g'
        = (outputs g1
             ++ ConsoleError
                  (MODULE_ID +:+ " | Error executing macro for " +:+ name +:+ ":")
                  err
                :: match err with
                   | ThrownValue message =>
                       [NotifyError
                          ("Failed to execute macro: "
                           +:+ default "undefined" message)]
                   | _ => []
                   end)%list.
Proof.
  intros g' Hinv Hexec. subst g'.
  destruct (handler_plan h n g)
    as [Hq|(g0 & name & u & missing & ctx0 & Hq & Hu & Hm & Hplan)].
  { by apply quiet_invocations_ne in Hinv. }
  rewrite Hplan in *. clear Hplan.
  destruct (fromUuid h u) as [d| |e] eqn:Hres.
  - destruct (decide (dedup_key name u ∈ recentlyExecuted g0)) as [Hlive|Hfresh].
    { pose proof (dispatch_live h name u missing ctx0 g0 d Hres Hlive) as Hq'.
      by apply (quiet_invocations_ne g _ (m, ctx) (quiet_trans _ _ _ Hq Hq')) in Hinv. }
    rewrite (dispatch_fresh h name u missing ctx0 g0 d Hres Hfresh) in *.
    set (g1 := (shouldExecuteMacro name u (emit (EvFromUuid u) g0)).2) in *.
    assert (Hg1 : invocations g1 = invocations g ∧ notifications g1 = notifications g
                  ∧ rejections g1 = rejections g ∧ (wf g → wf g1)).
    { pose proof Hq as (_ & _ & _ & Hi & Hn & Hr & _).
      subst g1. unfold shouldExecuteMacro. rewrite decide_False by exact Hfresh.
      split; [|split; [|split]].
      - rewrite <- Hi. readers. done.
      - rewrite <- Hn. readers. done.
      - rewrite <- Hr. readers. done.
      - intros Hwf.
        pose proof (wf_shouldExecuteMacro name u (emit (EvFromUuid u) g0)) as Hw.
        unfold shouldExecuteMacro in Hw. rewrite decide_False in Hw by exact Hfresh.
        apply Hw. eapply quiet_wf; [|exact Hwf].
        eapply quiet_trans; [exact Hq|apply quiet_emit_uuid]. }
    destruct Hg1 as (Hi1 & Hn1 & Hr1 & Hwf1).
    destruct d as [i|m0].
    { exfalso. rewrite invocations_try_execute_item, Hi1 in Hinv.
      apply (f_equal length) in Hinv. rewrite length_app in Hinv.
      cbn in Hinv. lia. }
    rewrite invocations_try_execute, Hi1 in Hinv.
    apply app_singleton_inv in Hinv as [_ [= -> ->]].
    cbn [try_execute run_alone]. rewrite Hexec. clearbody g1.
    split; [|split].
    + destruct err as [| |message]; cbn [catch_execute run_alone];
        (split; [rewrite <- Hn1|rewrite <- Hr1]); readers; done.
    + intros Hwf. specialize (Hwf1 Hwf).
      destruct err as [| |message]; cbn [catch_execute run_alone]; exact Hwf1.
    + exists (emit (EvExecute m ctx) g1), name.
      split; [destruct err; readers; done|].
      split; [rewrite <- Hn1; readers; done|].
      split; [rewrite <- Hr1; readers; done|].
      destruct err as [| |message]; readers; rewrite <- ?app_assoc; done.
  - pose proof (dispatch_missing h name u missing ctx0 g0 Hres Hm) as Hq'.
    by apply (quiet_invocations_ne g _ (m, ctx) (quiet_trans _ _ _ Hq Hq')) in Hinv.
  - exfalso.
    assert (Hsame : invocations (run_alone h (dispatch name u missing ctx0) g0)
                    = invocations g0)
      by (cbn; rewrite Hres; readers; done).
    destruct Hq as (_ & _ & _ & Hi & _). rewrite Hsame, Hi in Hinv.
    apply (f_equal length) in Hinv. rewrite length_app in Hinv.
    cbn in Hinv. lia.
Qed.

Lemma macro_failure_reported_witness :
  let null_host :=
    {| user_id := "me"; user_character := Some "a1";
       fromUuid := fromUuid Sample.host; actors_get := actors_get Sample.host;
       world_items := []; getSpeaker := Sample.narrator;
       getSpeakerFor := λ _, Sample.narrator;
       getSpeakerActor := speaker_actor; tokens_get := λ t, t;
       host_execute := λ _ _, Some ThrownNull |} in
  let n := NUseItem Sample.potion "ev" "tg" in
  let ctx := {| ctx_actor := Some "a1"; ctx_token := Some "t1";
                ctx_character := Some "a1"; ctx_item := DocItem Sample.potion;
                ctx_speaker := Sample.narrator; ctx_event := Some "ev";
                ctx_target := Some "tg"; ctx_message := None |} in
  let g' := settle null_host n init in
  invocations g' = (invocations init ++ [(Sample.heal, ctx)])%list
  ∧ host_execute null_host Sample.heal ctx = Some ThrownNull
  ∧ notifications g' = []
  ∧ rejections g' = ["Cannot read properties of null (reading 'message')"].
Proof.
  intros null_host n ctx g'.
  assert (H1 : invocations g' = (invocations init ++ [(Sample.heal, ctx)])%list)
    by (vm_compute; reflexivity).
  assert (H2 : host_execute null_host Sample.heal ctx = Some ThrownNull)
    by reflexivity.
  split; [exact H1|]. split; [exact H2|].
  destruct (macro_failure_reported null_host init n Sample.heal ctx
              ThrownNull H1 H2) as ([Hn Hr] & _).
  split; [exact Hn|exact Hr].
Defined.

(** ** The pre-delete / post-delete path *)

(** C5, as amended.  For a consumable whose attached macro reference
    resolves to a macro, and with no live entry for its key, the pre-delete
    callback of the session user only writes the snapshot (name, macro
    reference, owning actor) under the item's identifier.  The post-delete
    callback for that identifier takes the entry out and, from the snapshot
    alone, resolves the macro, admits the key and invokes the macro once,
    with the snapshot's actor when it has one.  A further post-delete for
    the identifier finds no entry and does nothing. *)
Theorem delete_path_once (h : Host) (g : Runtime) (item item' : Item)
    (userId uid' u : string) (m : Macro) :
  userId = user_id h →
  item_type item = "consumable" →
  getFlag item MODULE_ID FLAG_MACRO_UUID = Some u → u ≠ "" →
  fromUuid h u = Found (DocMacro m) →
  dedup_key (item_name item) u ∉ recentlyExecuted g →
  item_id item' = item_id item →
  let snapshot := {| st_name := item_name item; st_macroUuid := u;
                     st_actor := item_parent item |} in
  let g1 := settle h (NPreDeleteItem item userId) g in
  let g2 := settle h (NDeleteItem item' uid') g1 in
  g1 = set_consumedItems (<[item_id item := snapshot]> (consumedItems g)) g
  ∧ (∃ ctx, invocations g2 = (invocations g ++ [(m, ctx)])%list
            ∧ ctx_item ctx = DocItem item'
            ∧ ctx_actor ctx = match item_parent item with
                              | Some a => Some a
                              | None => getSpeakerActor h (getSpeaker h)
                              end)
  ∧ resolutions g2 = (resolutions g ++ [u])%list
  ∧ admissions g2 = (admissions g ++ [(now g, dedup_key (item_name item) u)])%list
  ∧ consumedItems g2 = delete (item_id item) (consumedItems g)
  ∧ ∀ item'' uid'', item_id item'' = item_id item →
      settle h (NDeleteItem item'' uid'') g2 = g2.
Proof.
  intros -> Htype Hflag Hu Hres Hfresh Hid snapshot g1 g2.
  assert (Hg1 : g1 = set_consumedItems
                       (<[item_id item := snapshot]> (consumedItems g)) g).
  { subst g1. unfold settle, handler, preDeleteItem.
    rewrite String.eqb_refl, Htype, Hflag, (truthy_str_Some u Hu). reflexivity. }
  assert (Hg2 : g2 = run_alone h
            (try_execute (DocMacro m)
               {| ctx_actor := match item_parent item with
                               | Some a => Some a
                               | None => getSpeakerActor h (getSpeaker h)
                               end;
                  ctx_token := tokens_get h (speaker_token (getSpeaker h));
                  ctx_character := user_character h;
                  ctx_item := DocItem item';
                  ctx_speaker := getSpeaker h; ctx_event := None;
                  ctx_target := None; ctx_message := None |}
               (item_name item))
            (shouldExecuteMacro (item_name item) u
               (emit (EvFromUuid u)
                  (set_consumedItems (delete (item_id item) (consumedItems g)) g))).2).
  { subst g2. rewrite Hg1. unfold settle, handler, deleteItem.
    cbn [run_alone consumedItems set_consumedItems]. rewrite Hid, lookup_insert_eq.
    cbn [run_alone consumedItems set_consumedItems st_macroUuid st_name st_actor snapshot].
    rewrite delete_insert_eq, Hres. cbn [run_alone].
    unfold shouldExecuteMacro. rewrite !decide_False by exact Hfresh. reflexivity. }
  assert (Hadm : (shouldExecuteMacro (item_name item) u
               (emit (EvFromUuid u)
                  (set_consumedItems (delete (item_id item) (consumedItems g)) g))).2
            = setTimeout_delete (dedup_key (item_name item) u) 500
                (set_recentlyExecuted
                   ({[dedup_key (item_name item) u]} ∪ recentlyExecuted g)
                   (emit (EvFromUuid u)
                      (set_consumedItems (delete (item_id item) (consumedItems g)) g)))).
  { unfold shouldExecuteMacro. rewrite decide_False by exact Hfresh. reflexivity. }
  rewrite Hadm in Hg2. clear Hadm.
  split; [exact Hg1|]. split; [|split; [|split; [|split]]].
  - eexists.
    split; [rewrite Hg2, invocations_try_execute; f_equal; readers; done|].
    split; reflexivity.
  - rewrite Hg2. cbn. destruct (host_execute h m _) as [[| |msg]|]; readers; done.
  - rewrite Hg2. cbn. destruct (host_execute h m _) as [[| |msg]|]; readers; done.
  - rewrite Hg2. cbn. destruct (host_execute h m _) as [[| |msg]|]; reflexivity.
  - intros item'' uid'' Hid''. unfold settle, handler, deleteItem.
    cbn [run_alone].
    replace (consumedItems g2 !! item_id item'') with (@None Stored); [done|].
    rewrite Hg2, Hid''. cbn.
    destruct (host_execute h m _) as [[| |msg]|]; cbn; by rewrite lookup_delete_eq.
Qed.

Lemma delete_path_once_witness :
  let g1 := settle Sample.host (NPreDeleteItem Sample.potion "me") init in
  let g2 := settle Sample.host (NDeleteItem Sample.potion "me") g1 in
  "me" = user_id Sample.host
  ∧ item_type Sample.potion = "consumable"
  ∧ getFlag Sample.potion MODULE_ID FLAG_MACRO_UUID = Some "Macro.heal"
  ∧ "Macro.heal" ≠ ""
  ∧ fromUuid Sample.host "Macro.heal" = Found (DocMacro Sample.heal)
  ∧ (dedup_key (item_name Sample.potion) "Macro.heal" ∉ recentlyExecuted init)
  ∧ item_id Sample.potion = item_id Sample.potion
  ∧ (∃ ctx, invocations g2 = (invocations init ++ [(Sample.heal, ctx)])%list
            ∧ ctx_item ctx = DocItem Sample.potion
            ∧ ctx_actor ctx = Some "a1")
  ∧ consumedItems g2 = delete "i1" (consumedItems init)
  ∧ settle Sample.host (NDeleteItem Sample.potion "me") g2 = g2.
Proof.
  intros g1 g2.
  assert (H1 : "me" = user_id Sample.host) by reflexivity.
  assert (H2 : item_type Sample.potion = "consumable") by reflexivity.
  assert (H3 : getFlag Sample.potion MODULE_ID FLAG_MACRO_UUID = Some "Macro.heal")
    by (vm_compute; reflexivity).
  assert (H4 : "Macro.heal" ≠ "") by discriminate.
  assert (H5 : fromUuid Sample.host "Macro.heal" = Found (DocMacro Sample.heal))
    by reflexivity.
  assert (H6 : dedup_key (item_name Sample.potion) "Macro.heal"
               ∉ recentlyExecuted init) by apply not_elem_of_empty.
  assert (H7 : item_id Sample.potion = item_id Sample.potion) by reflexivity.
  repeat (split; [assumption|]).
  destruct (delete_path_once Sample.host init Sample.potion Sample.potion
              "me" "me" "Macro.heal" Sample.heal H1 H2 H3 H4 H5 H6 H7)
    as (_ & Hinv & _ & _ & Hcons & Hagain).
  split; [exact Hinv|]. split; [exact Hcons|].
  exact (Hagain Sample.potion "me" eq_refl).
Defined.

(** C5 as stated fails in two ways.  The consume notification of the same
    consumption has just run the macro, so that the key is live: the
    pre-delete callback writes the snapshot, the post-delete callback takes
    it out, resolves the macro and is refused by the suppressor, and the
    pair adds no invocation.  And with the macro document deleted the pair
    resolves nothing and invokes nothing. *)
Lemma delete_pair_adds_nothing :
  let lost :=
    {| user_id := "me"; user_character := Some "a1";
       fromUuid := λ _, NotFound; actors_get := actors_get Sample.host;
       world_items := []; getSpeaker := Sample.narrator;
       getSpeakerFor := λ _, Sample.narrator;
       getSpeakerActor := speaker_actor; tokens_get := λ t, t;
       host_execute := λ _ _, None |} in
  let g0 := settle Sample.host (NConsumeItem Sample.potion Sample.hero) init in
  let g1 := settle Sample.host (NPreDeleteItem Sample.potion "me") g0 in
  let g2 := settle Sample.host (NDeleteItem Sample.potion "me") g1 in
  let g3 := settle lost (NDeleteItem Sample.potion "me")
              (settle lost (NPreDeleteItem Sample.potion "me") init) in
  (invocations g0).*1 = [Sample.heal]
  ∧ st_macroUuid <$> consumedItems g1 !! "i1" = Some "Macro.heal"
  ∧ resolutions g2 = ["Macro.heal"; "Macro.heal"]
  ∧ consumedItems g2 !! "i1" = None
  ∧ invocations g2 = invocations g0
  ∧ getFlag Sample.potion MODULE_ID FLAG_MACRO_UUID = Some "Macro.heal"
  ∧ resolutions g3 = ["Macro.heal"]
  ∧ invocations g3 = [].
Proof. vm_compute. repeat split; reflexivity. Qed.

(** ** The chat-message path: finding the item by its name *)

Lemma find_filter_head {A} (p : A → bool) (l : list A) :
  List.find p l = head (List.filter p l).
Proof.
  induction l as [|x l IH]; [done|]. cbn. by destruct (p x).
Qed.

(** C7, as amended.  The message carries no item, its context locator (if
    any) and its origin locator do not resolve, and the origin locator has
    the form [Actor.<id>.Item.<id>] and names a known actor that has no item
    of the given identifier.  The flavor text yields no
    name, and the content, tags stripped and trimmed, reads
    [Uses Healing Potion].  The actor owns exactly one consumable of that
    name, with an attached, resolvable macro and no live entry.  Then the
    resolver returns that item and the macro is invoked once, with that item
    and the message in the context.  In general the search by name returns
    what [search_by_name] says: the actor's inventory first, then the world
    items, then the source document if its name matches. *)
Theorem chat_message_by_name (h : Host) (g : Runtime) (message : Message)
    (userId ou aid c u : string) (rest : list string) (actor : Actor)
    (it : Item) (m : Macro) :
  userId = user_id h →
  msg_item message = None →
  (∀ cu, msg_context_item message = Some cu → found (fromUuid h cu) = None) →
  msg_origin_uuid message = Some ou →
  found (fromUuid h ou) = None →
  split_dot ou = "Actor" :: aid :: "Item" :: rest →
  actors_get h aid = Some actor →
  items_get actor (head rest) = None →
  (∀ f, msg_flavor message = Some f → match_flavor f = None) →
  msg_content message = Some c →
  trim (strip_tags c) = "Uses Healing Potion" →
  List.filter
    (λ i, String.eqb (item_name i) "Healing Potion"
          && String.eqb (item_type i) "consumable")
    (actor_items actor) = [it] →
  getFlag it MODULE_ID FLAG_MACRO_UUID = Some u → u ≠ "" →
  fromUuid h u = Found (DocMacro m) →
  dedup_key (item_name it) u ∉ recentlyExecuted g →
  let g' := settle h (NCreateChatMessage message userId) g in
  resolve_item h message = Some (DocItem it)
  ∧ (∃ ctx, invocations g' = (invocations g ++ [(m, ctx)])%list
            ∧ ctx_item ctx = DocItem it
            ∧ ctx_message ctx = Some message)
  ∧ (∀ k g0, ∃ g1, quiet_ext g0 g1
       ∧ run_alone h (createChatMessage_byName h message actor k) g0
         = run_alone h (k (search_by_name h message actor)) g1).
Proof.
  intros -> Hitem Hctx Hou Hounf Hsplit Hactor Hnoid Hflavor Hcontent Htext
         Hone Hflag Hu Hres Hfresh g'.
  assert (Hfind : find_consumable "Healing Potion" (actor_items actor) = Some it).
  { unfold find_consumable. by rewrite find_filter_head, Hone. }
  assert (Hit : item_name it = "Healing Potion" ∧ item_type it = "consumable").
  { unfold find_consumable in Hfind. apply List.find_some in Hfind as [_ Hp].
    apply andb_prop in Hp as [H1 H2].
    split; by apply String.eqb_eq. }
  destruct Hit as [Hname Htype].
  assert (Hc : c ≠ "").
  { intros ->. discriminate Htext. }
  assert (Hextract : extract_item_name message = Some "Healing Potion").
  { unfold extract_item_name. rewrite Hcontent.
    assert (Hfl : match msg_flavor message with
                  | Some flavor =>
                      if truthy_str (Some flavor) then
                        match match_flavor flavor with
                        | Some name => Some name
                        | None => None
                        end
                      else None
                  | None => None
                  end = None).
    { destruct (msg_flavor message) as [f|]; [|done].
      rewrite (Hflavor f eq_refl). by destruct (truthy_str (Some f)). }
    rewrite Hfl, (truthy_str_Some c Hc), Htext. reflexivity. }
  assert (Hsearch : search_by_name h message actor = Some (DocItem it)).
  { unfold search_by_name. rewrite Hextract. cbn [truthy_str negb String.eqb].
    by rewrite Hfind. }
  assert (Hounz : ou ≠ "").
  { intros ->. discriminate Hsplit. }
  assert (Hresolve : resolve_item h message = Some (DocItem it)).
  { unfold resolve_item. rewrite Hitem, Hou, (truthy_str_Some ou Hounz), Hounf.
    assert (Hc0 : match msg_context_item message with
                  | Some u0 => if truthy_str (Some u0) then found (fromUuid h u0) else None
                  | None => None
                  end = None).
    { destruct (msg_context_item message) as [cu|]; [|done].
      rewrite (Hctx cu eq_refl). by destruct (truthy_str (Some cu)). }
    rewrite Hc0. unfold parse_origin. rewrite Hsplit.
    cbn [String.eqb Ascii.eqb Bool.eqb andb]. by rewrite Hactor, Hnoid. }
  split; [exact Hresolve|]. split; [|intros k g0; apply run_alone_byName].
  subst g'. unfold settle, handler, createChatMessage.
  rewrite String.eqb_refl. cbn [negb].
  destruct (run_alone_resolve h message (createChatMessage_dispatch h message) g)
    as (g0 & Hq & ->).
  rewrite Hresolve. unfold createChatMessage_dispatch.
  cbn [doc_type doc_getFlag doc_name]. rewrite Htype, Hflag, (truthy_str_Some u Hu).
  cbn [negb String.eqb Ascii.eqb Bool.eqb run_alone]. rewrite Hres.
  cbn [run_alone]. unfold shouldExecuteMacro.
  destruct Hq as (_ & Hset & _ & Hinv & _).
  rewrite decide_False by (cbn; rewrite Hset; exact Hfresh).
  cbn [negb]. eexists.
  split; [rewrite invocations_try_execute; f_equal; rewrite <- Hinv; readers; done|].
  split; reflexivity.
Qed.

Lemma chat_message_by_name_witness :
  let g' := settle Sample.host (NCreateChatMessage Sample.uses_potion "me") init in
  "me" = user_id Sample.host
  ∧ msg_item Sample.uses_potion = None
  ∧ (∀ cu, msg_context_item Sample.uses_potion = Some cu →
       found (fromUuid Sample.host cu) = None)
  ∧ msg_origin_uuid Sample.uses_potion = Some "Actor.a1.Item.gone"
  ∧ found (fromUuid Sample.host "Actor.a1.Item.gone") = None
  ∧ split_dot "Actor.a1.Item.gone" = ["Actor"; "a1"; "Item"; "gone"]
  ∧ actors_get Sample.host "a1" = Some Sample.hero
  ∧ items_get Sample.hero (head ["gone"]) = None
  ∧ (∀ f, msg_flavor Sample.uses_potion = Some f → match_flavor f = None)
  ∧ msg_content Sample.uses_potion = Some "<p>Uses Healing Potion</p>"
  ∧ trim (strip_tags "<p>Uses Healing Potion</p>") = "Uses Healing Potion"
  ∧ List.filter
      (λ i, String.eqb (item_name i) "Healing Potion"
            && String.eqb (item_type i) "consumable")
      (actor_items Sample.hero) = [Sample.potion]
  ∧ getFlag Sample.potion MODULE_ID FLAG_MACRO_UUID = Some "Macro.heal"
  ∧ "Macro.heal" ≠ ""
  ∧ fromUuid Sample.host "Macro.heal" = Found (DocMacro Sample.heal)
  ∧ (dedup_key (item_name Sample.potion) "Macro.heal" ∉ recentlyExecuted init)
  ∧ resolve_item Sample.host Sample.uses_potion = Some (DocItem Sample.potion)
  ∧ (∃ ctx, invocations g' = (invocations init ++ [(Sample.heal, ctx)])%list
            ∧ ctx_item ctx = DocItem Sample.potion
            ∧ ctx_message ctx = Some Sample.uses_potion).
Proof.
  intros g'.
  assert (H1 : "me" = user_id Sample.host) by reflexivity.
  assert (H2 : msg_item Sample.uses_potion = None) by reflexivity.
  assert (H3 : ∀ cu, msg_context_item Sample.uses_potion = Some cu →
                 found (fromUuid Sample.host cu) = None) by discriminate.
  assert (H4 : msg_origin_uuid Sample.uses_potion = Some "Actor.a1.Item.gone")
    by reflexivity.
  assert (H5 : found (fromUuid Sample.host "Actor.a1.Item.gone") = None)
    by reflexivity.
  assert (H6 : split_dot "Actor.a1.Item.gone" = ["Actor"; "a1"; "Item"; "gone"])
    by reflexivity.
  assert (H7 : actors_get Sample.host "a1" = Some Sample.hero) by reflexivity.
  assert (H8 : items_get Sample.hero (head ["gone"]) = None) by reflexivity.
  assert (H9 : ∀ f, msg_flavor Sample.uses_potion = Some f → match_flavor f = None)
    by discriminate.
  assert (H10 : msg_content Sample.uses_potion = Some "<p>Uses Healing Potion</p>")
    by reflexivity.
  assert (H11 : trim (strip_tags "<p>Uses Healing Potion</p>") = "Uses Healing Potion")
    by reflexivity.
  assert (H12 : List.filter
      (λ i, String.eqb (item_name i) "Healing Potion"
            && String.eqb (item_type i) "consumable")
      (actor_items Sample.hero) = [Sample.potion]) by reflexivity.
  assert (H13 : getFlag Sample.potion MODULE_ID FLAG_MACRO_UUID = Some "Macro.heal")
    by (vm_compute; reflexivity).
  assert (H14 : "Macro.heal" ≠ "") by discriminate.
  assert (H15 : fromUuid Sample.host "Macro.heal" = Found (DocMacro Sample.heal))
    by reflexivity.
  assert (H16 : dedup_key (item_name Sample.potion) "Macro.heal"
                ∉ recentlyExecuted init) by apply not_elem_of_empty.
  repeat (split; [assumption|]).
  destruct (chat_message_by_name Sample.host init Sample.uses_potion "me"
              "Actor.a1.Item.gone" "a1" "<p>Uses Healing Potion</p>" "Macro.heal"
              ["gone"] Sample.hero Sample.potion Sample.heal
              H1 H2 H3 H4 H5 H6 H7 H8 H9 H10 H11 H12 H13 H14 H15 H16)
    as (Hres & Hinv & _).
  split; [exact Hres|exact Hinv].
Defined.

(** C7 as stated fails.  The body reads [Uses Healing Potion] and the
    speaker's actor owns the one consumable of that name, with its macro
    attached; but the search by name is reached only through an origin
    locator of the form [Actor.<id>.Item.<id>] that names the actor.
    Without an origin locator, or with that of a token's actor, nothing is
    resolved and nothing invoked.  With the owner's locator the name is
    taken from the flavor text first: when that names something else the
    body is not read.  And the item once found, the macro is not invoked
    while an entry of its key is live, nor when its document is gone. *)
Lemma chat_by_name_needs_owner_locator :
  let body := Some "<p>Uses Healing Potion</p>" in
  let without_origin :=
    {| msg_item := None; msg_flavor := None; msg_content := body;
       msg_speaker := Sample.narrator; msg_context_item := None;
       msg_origin_uuid := None; msg_origin_name := None;
       msg_origin_sourceId := None |} in
  let token_origin :=
    {| msg_item := None; msg_flavor := None; msg_content := body;
       msg_speaker := Sample.narrator; msg_context_item := None;
       msg_origin_uuid := Some "Scene.s1.Token.t1.Actor.a1.Item.gone";
       msg_origin_name := None; msg_origin_sourceId := None |} in
  let flavored :=
    {| msg_item := None;
       msg_flavor :=
         Some ("<span data-item-id=" +:+ String dquote "x"
               +:+ String dquote ">Elixir</span>");
       msg_content := body;
       msg_speaker := Sample.narrator; msg_context_item := None;
       msg_origin_uuid := Some "Actor.a1.Item.gone";
       msg_origin_name := None; msg_origin_sourceId := None |} in
  let lost :=
    {| user_id := "me"; user_character := Some "a1";
       fromUuid := λ _, NotFound; actors_get := actors_get Sample.host;
       world_items := []; getSpeaker := Sample.narrator;
       getSpeakerFor := λ _, Sample.narrator;
       getSpeakerActor := speaker_actor; tokens_get := λ t, t;
       host_execute := λ _ _, None |} in
  let chat m := NCreateChatMessage m "me" in
  let used := settle Sample.host (NUseItem Sample.potion "ev" "tg") init in
  getSpeakerActor Sample.host Sample.narrator = Some "a1"
  ∧ actors_get Sample.host "a1" = Some Sample.hero
  ∧ find_consumable "Healing Potion" (actor_items Sample.hero)
    = Some Sample.potion
  ∧ getFlag Sample.potion MODULE_ID FLAG_MACRO_UUID = Some "Macro.heal"
  ∧ resolve_item Sample.host without_origin = None
  ∧ invocations (settle Sample.host (chat without_origin) init) = []
  ∧ resolve_item Sample.host token_origin = None
  ∧ invocations (settle Sample.host (chat token_origin) init) = []
  ∧ extract_item_name flavored = Some "Elixir"
  ∧ resolve_item Sample.host flavored = None
  ∧ invocations (settle Sample.host (chat flavored) init) = []
  ∧ resolve_item Sample.host Sample.uses_potion = Some (DocItem Sample.potion)
  ∧ invocations (settle Sample.host (chat Sample.uses_potion) used)
    = invocations used
  ∧ resolve_item lost Sample.uses_potion = Some (DocItem Sample.potion)
  ∧ invocations (settle lost (chat Sample.uses_potion) init) = [].
Proof. vm_compute. repeat split; reflexivity. Qed.

(** ** Suppression under arbitrary interleaving *)

Lemma admissions_emit e g :
  match e with EvSetTimeout _ _ => False | _ => True end →
  admissions (emit e g) = admissions g.
Proof. destruct e; intros H; try done; readers; done. Qed.

Lemma admissions_register key g s :
  admissions (setTimeout_delete key 500 (set_recentlyExecuted s g))
  = (admissions g ++ [(now g, key)])%list.
Proof. readers. done. Qed.

Lemma sound_init : sound init.
Proof.
  split; [apply wf_init|]. split.
  - intros t k Hin. cbn in Hin. by apply not_elem_of_nil in Hin.
  - intros i j t1 t2 key _ Hi. cbn in Hi. by rewrite lookup_nil in Hi.
Qed.

Lemma sound_emit e g :
  match e with EvSetTimeout _ _ => False | _ => True end →
  sound g → sound (emit e g).
Proof.
  intros He (Hwf & Hacc & Hsp). split; [exact Hwf|].
  unfold accounted. rewrite (admissions_emit e g He). split; [exact Hacc|exact Hsp].
Qed.

Lemma sound_set_consumedItems m g : sound g → sound (set_consumedItems m g).
Proof. intros H. exact H. Qed.

Lemma sound_shouldExecuteMacro name uuid g :
  sound g → sound (shouldExecuteMacro name uuid g).2.
Proof.
  intros Hs. pose proof Hs as (Hwf & Hacc & Hsp).
  pose proof (wf_shouldExecuteMacro name uuid g Hwf) as Hwf'.
  unfold shouldExecuteMacro in *.
  destruct (decide (dedup_key name uuid ∈ recentlyExecuted g)) as [Hin|Hfresh];
    [exact Hs|].
  set (key := dedup_key name uuid) in *.
  split; [exact Hwf'|]. cbn [snd] in *. split.
  - intros t k Hin. rewrite admissions_register in Hin.
    cbn [now timers setTimeout_delete set_recentlyExecuted emit].
    apply elem_of_app in Hin as [Hin|Hin].
    + destruct (Hacc t k Hin) as [Hle [Ht|Hold]].
      * split; [done|]. left. apply elem_of_app. by left.
      * split; [done|]. by right.
    + apply list_elem_of_singleton in Hin. injection Hin as -> ->.
      split; [done|]. left. apply elem_of_app. right.
      by apply list_elem_of_singleton.
  - rewrite admissions_register. intros i j t1 t2 k Hij Hi Hj.
    destruct (decide (j < length (admissions g))) as [Hlt|Hge].
    + rewrite lookup_app_l in Hi by lia. rewrite lookup_app_l in Hj by lia.
      exact (Hsp i j t1 t2 k Hij Hi Hj).
    + assert (Hjlen : j = length (admissions g)).
      { apply lookup_lt_Some in Hj. rewrite length_app in Hj. cbn in Hj. lia. }
      subst j. rewrite lookup_app_l in Hi by lia.
      rewrite lookup_app_r, Nat.sub_diag in Hj by lia. cbn in Hj.
      injection Hj as <- <-.
      apply list_elem_of_lookup_2 in Hi.
      destruct (Hacc t1 key Hi) as [_ [Ht|Hold]]; [|exact Hold].
      destruct Hfresh. apply Hwf. apply list_elem_of_fmap.
      by exists (t1 + 500, key).
Qed.

Lemma sound_advance dt g : sound g → sound (advance dt g).
Proof.
  intros (Hwf & Hacc & Hsp). split; [by apply wf_advance|].
  split; [|exact Hsp].
  intros t k Hin. change (admissions (advance dt g)) with (admissions g) in Hin.
  destruct (Hacc t k Hin) as [Hle [Ht|Hold]]; cbn.
  - split; [lia|].
    destruct (decide (now g + dt < t + 500)) as [Hlt|Hge]; [|right; lia].
    left. by apply list_elem_of_filter.
  - split; [lia|]. right. lia.
Qed.

Lemma sound_run_sync p : ∀ g, sound g → sound (run_sync p g).1.
Proof.
  induction p as [|msg|name uuid k IH|id v k IH|id k IH|id k IH|o k IH
                 |uuid k|macro ctx k]; intros g Hs; cbn.
  - done.
  - by apply sound_emit.
  - pose proof (sound_shouldExecuteMacro name uuid g Hs) as Hs'.
    destruct (shouldExecuteMacro name uuid g) as [b g']. by apply IH.
  - by apply IH.
  - by apply IH.
  - by apply IH.
  - apply IH. by apply sound_emit.
  - by apply sound_emit.
  - by apply sound_emit.
Qed.

Lemma sound_step h s a : sound (rt s) → sound (rt (step h s a)).
Proof.
  intros Hs. destruct a as [n|i|dt]; cbn.
  - pose proof (sound_run_sync (handler h n) _ Hs) as H.
    by destruct (run_sync (handler h n) (rt s)).
  - destruct (pool s !! i) as [t|]; [|done].
    assert (H : sound (resume h t (rt s)).1)
      by (destruct t; apply sound_run_sync, Hs).
    by destruct (resume h t (rt s)).
  - by apply sound_advance.
Qed.

Lemma sound_run h sch : ∀ s, sound (rt s) → sound (rt (run h s sch)).
Proof.
  induction sch as [|a sch IH]; intros s Hs; [done|].
  rewrite run_cons. apply IH. by apply sound_step.
Qed.

(** The first stretch of a callback, run when the notification is handed
    over, never gets to the suppressor. *)
Lemma dispatch_delivery_quiet name u missing ctx g :
  quiet_ext g (run_sync (dispatch name u missing ctx) g).1.
Proof. cbn. quiet. Qed.

Lemma chat_dispatch_delivery_quiet h message item g :
  quiet_ext g (run_sync (createChatMessage_dispatch h message item) g).1.
Proof.
  unfold createChatMessage_dispatch. destruct item as [d|]; [|cbn; quiet].
  destruct (negb (String.eqb (doc_type d) "consumable")); [cbn; quiet|].
  destruct (doc_getFlag d MODULE_ID FLAG_MACRO_UUID) as [u|]; [|cbn; quiet].
  destruct (negb (truthy_str (Some u))); cbn; quiet.
Qed.

Lemma byName_delivery_quiet h message actor k g :
  (∀ x g0, quiet_ext g0 (run_sync (k x) g0).1) →
  quiet_ext g (run_sync (createChatMessage_byName h message actor k) g).1.
Proof.
  intros Hk. unfold createChatMessage_byName.
  destruct (negb (truthy_str (extract_item_name message))); [apply Hk|].
  destruct (extract_item_name message) as [itemName|]; [|apply Hk].
  destruct (find_consumable itemName (actor_items actor)); [apply Hk|].
  destruct (find_consumable itemName (world_items h)); [apply Hk|].
  destruct (msg_origin_sourceId message) as [sourceId|]; [|apply Hk].
  destruct (truthy_str (Some sourceId)); [cbn; quiet|apply Hk].
Qed.

Lemma resolve_delivery_quiet h message k g :
  (∀ x g0, quiet_ext g0 (run_sync (k x) g0).1) →
  quiet_ext g (run_sync (createChatMessage_resolve h message k) g).1.
Proof.
  intros Hk. unfold createChatMessage_resolve.
  destruct (msg_item message) as [i|]; cbn [fmap option_fmap option_map].
  { destruct (msg_context_item message); apply Hk. }
  destruct (msg_context_item message) as [cu|].
  { destruct (truthy_str (Some cu)); [cbn; quiet|].
    destruct (msg_origin_uuid message) as [ou|]; [|apply Hk].
    destruct (truthy_str (Some ou)); [cbn; quiet|apply Hk]. }
  destruct (msg_origin_uuid message) as [ou|]; [|apply Hk].
  destruct (truthy_str (Some ou)); [cbn; quiet|apply Hk].
Qed.

Lemma delivery_quiet h n g : quiet_ext g (run_sync (handler h n) g).1.
Proof.
  destruct n as [item change uid|item uid|item uid|item ev tg|item actor|msg uid];
    unfold handler.
  - unfold preUpdateItem.
    destruct (negb (String.eqb uid (user_id h))); [cbn; quiet|].
    destruct (negb (String.eqb (item_type item) "consumable")); [cbn; quiet|].
    destruct (negb (truthy_num (change_quantity change))); [cbn; quiet|].
    destruct (change_quantity change) as [new|]; [|cbn; quiet].
    destruct (js_ge new (item_quantity item)); [cbn; quiet|].
    destruct (getFlag item MODULE_ID FLAG_MACRO_UUID) as [u|]; [|cbn; quiet].
    destruct (negb (truthy_str (Some u))); cbn; quiet.
  - unfold preDeleteItem.
    destruct (negb (String.eqb uid (user_id h))); [cbn; quiet|].
    destruct (negb (String.eqb (item_type item) "consumable")); [cbn; quiet|].
    destruct (getFlag item MODULE_ID FLAG_MACRO_UUID) as [u|]; [|cbn; quiet].
    destruct (negb (truthy_str (Some u))); cbn; quiet.
  - unfold deleteItem. cbn [run_sync].
    destruct (consumedItems g !! item_id item) as [st|]; cbn; quiet.
  - unfold pf2e_useItem.
    destruct (negb (String.eqb (item_type item) "consumable")); [cbn; quiet|].
    destruct (getFlag item MODULE_ID FLAG_MACRO_UUID) as [u|]; [|cbn; quiet].
    destruct (negb (truthy_str (Some u))); cbn; quiet.
  - unfold pf2e_consumeItem.
    destruct (getFlag item MODULE_ID FLAG_MACRO_UUID) as [u|]; [|cbn; quiet].
    destruct (negb (truthy_str (Some u))); cbn; quiet.
  - unfold createChatMessage.
    destruct (negb (String.eqb uid (user_id h))); [cbn; quiet|].
    apply resolve_delivery_quiet. intros x g0.
    apply chat_dispatch_delivery_quiet.
Qed.

(** C2, as amended.  No callback asks the suppressor when the notification
    is handed over: that first stretch leaves the suppressor's table, the
    timers and the admissions as they were, and the question is asked only
    once the awaited look-up of the macro reference has come back.  The
    question and the registration are one uninterrupted step, so in every
    interleaving of deliveries, resumptions and passing time two admissions
    of the same key are at least 500 ms apart: no two notifications get
    past the check together. *)
Theorem suppression_atomic (h : Host) (sch : list Action) :
  (∀ n g, let g' := (run_sync (handler h n) g).1 in
          recentlyExecuted g' = recentlyExecuted g
          ∧ timers g' = timers g
          ∧ admissions g' = admissions g)
  ∧ spaced (admissions (rt (run h start sch))).
Proof.
  split.
  - intros n g g'. subst g'.
    pose proof (delivery_quiet h n g) as (_ & H1 & H2 & _ & _ & _ & H3 & _).
    done.
  - apply (sound_run h sch start). apply sound_init.
Qed.

(** C2 as stated fails: when the notification is handed over the callback
    only starts the look-up of the macro reference and suspends; the
    suppressor has not been asked.  It is asked when the callback resumes. *)
Lemma check_follows_lookup :
  let n := NUseItem Sample.potion "ev" "tg" in
  let s1 := run Sample.host start [Deliver n] in
  let s2 := run Sample.host s1 [Resume 0] in
  recentlyExecuted (rt s1) = ∅
  ∧ admissions (rt s1) = []
  ∧ resolutions (rt s1) = ["Macro.heal"]
  ∧ length (pool s1) = 1
  ∧ admissions (rt s2) = [(0, "Healing Potion:Macro.heal")]
  ∧ (invocations (rt s2)).*1 = [Sample.heal].
Proof. vm_compute. repeat split; reflexivity. Qed.

(** ** One burst, one invocation *)










Lemma elapsed_app sch1 sch2 : elapsed (sch1 ++ sch2) = elapsed sch1 + elapsed sch2.
Proof.
  induction sch1 as [|a sch1 IH]; [done|].
  change (elapsed ((a :: sch1) ++ sch2))
    with (match a with
          | Advance dt => dt + elapsed (sch1 ++ sch2)
          | _ => elapsed (sch1 ++ sch2)
          end).
  change (elapsed (a :: sch1))
    with (match a with Advance dt => dt + elapsed sch1 | _ => elapsed sch1 end).
  rewrite IH. destruct a; lia.
Qed.



(** *** The trace only grows *)






Section Burst.
Variables (h : Host) (name u : string) (m : Macro).

Lemma heads_weaken sure p :
  heads_for h name u m sure p → heads_for h name u m false p.
Proof.
  induction 1 as [Hs|w p Hp IH|u' k Hk IH|ctx].
  - by constructor.
  - by constructor.
  - by constructor.
  - constructor.
Qed.

Lemma pending_weaken sure t :
  pending h name u m sure t → pending h name u m false t.
Proof. intros [u' k Hk]. constructor. by eapply heads_weaken. Qed.




End Burst.

(** ** The notifications of a burst, path by path *)




Section Delivery.
Variables (h : Host) (name u : string) (m : Macro).
Hypothesis Hu : u ≠ "".
Hypothesis Hres : fromUuid h u = Found (DocMacro m).




End Delivery.

(** ** The phases of a burst *)

Section Phases.
Variables (h : Host) (name u : string) (m : Macro).
Hypothesis Hu : u ≠ "".
Hypothesis Hres : fromUuid h u = Found (DocMacro m).
Variables (inv0 : list (Macro * Context)) (adm0 : list (nat * string)).





End Phases.





(** ** Properties of the text functions *)

Lemma strip_tags_from_inside_no_gt s :
  contains_char ">" s = false → strip_tags_from true s = EmptyString.
Proof.
  induction s as [|c s IH]; [done|].
  cbn [contains_char strip_tags_from]. intros H.
  apply orb_false_elim in H as [Hc Hs].
  rewrite Ascii.eqb_sym, Hc. cbn [negb]. by apply IH.
Qed.

Lemma contains_gt_strip_tags b s :
  contains_char ">" (strip_tags_from b s) = true → contains_char ">" s = true.
Proof.
  revert b. induction s as [|c s IH]; intros b; [by destruct b|].
  cbn [strip_tags_from contains_char]. destruct b.
  - intros H. apply IH in H. rewrite H. apply orb_true_r.
  - destruct (Ascii.eqb c "<" && contains_char ">" s) eqn:E.
    + intros H. apply IH in H. rewrite H. apply orb_true_r.
    + cbn [contains_char]. intros H. apply orb_prop in H as [H|H].
      * by rewrite H.
      * apply IH in H. rewrite H. apply orb_true_r.
Qed.

Lemma tag_free_strip_tags_from b s : tag_free (strip_tags_from b s) = true.
Proof.
  revert b. induction s as [|c s IH]; intros b; [by destruct b|].
  cbn [strip_tags_from]. destruct b; [apply IH|].
  destruct (Ascii.eqb c "<" && contains_char ">" s) eqn:E; [apply IH|].
  cbn [tag_free]. rewrite IH, andb_true_r.
  destruct (Ascii.eqb c "<") eqn:Ec; [|done]. cbn [andb negb] in E |- *.
  destruct (contains_char ">" (strip_tags_from false s)) eqn:Hc; [|done].
  apply contains_gt_strip_tags in Hc. congruence.
Qed.

Lemma strip_tags_tag_free s : tag_free s = true → strip_tags s = s.
Proof.
  unfold strip_tags. induction s as [|c s IH]; [done|].
  cbn [tag_free strip_tags_from]. intros H.
  apply andb_prop in H as [Hc Hs]. apply negb_true_iff in Hc.
  rewrite Hc. f_equal. by apply IH.
Qed.

(** X1.  After [strip_tags] nothing is left that the tag pattern matches:
    no [<] of the result has a [>] after it.  So stripping twice is
    stripping once, and a text that holds no tag comes back unchanged. *)
Theorem strip_tags_idempotent (s : string) :
  tag_free (strip_tags s) = true
  ∧ strip_tags (strip_tags s) = strip_tags s
  ∧ (contains_char "<" s = false → strip_tags s = s).
Proof.
  split; [apply tag_free_strip_tags_from|].
  split; [apply strip_tags_tag_free, tag_free_strip_tags_from|].
  intros H. apply strip_tags_tag_free.
  induction s as [|c s IH]; [done|]. cbn [contains_char tag_free] in H |- *.
  apply orb_false_elim in H as [Hc Hs]. rewrite Ascii.eqb_sym, Hc.
  cbn [andb negb]. by apply IH.
Qed.


(** *** Texts and their pieces *)

Lemma string_app_cons c a b : String c a +:+ b = String c (a +:+ b).
Proof. reflexivity. Qed.

Lemma string_app_nil_l a : EmptyString +:+ a = a.
Proof. reflexivity. Qed.

Lemma string_app_empty_r s : s +:+ EmptyString = s.
Proof.
  induction s as [|c s IH]; [done|]. by rewrite string_app_cons, IH.
Qed.

Lemma string_app_assoc a b c : (a +:+ b) +:+ c = a +:+ (b +:+ c).
Proof.
  induction a as [|x a IH]; [done|]. by rewrite !string_app_cons, IH.
Qed.

Lemma string_app_inv_l a b c : a +:+ b = a +:+ c → b = c.
Proof.
  induction a as [|x a IH]; [done|]. rewrite !string_app_cons.
  intros [= H]. by apply IH.
Qed.

Lemma pieces_next s :
  pieces s = match next_piece s with
             | None => []
             | Some (p, r) => p :: pieces r
             end.
Proof.
  destruct s as [|a [|b [|c r]]]; cbn [pieces next_piece]; [done| | |].
  - by destruct (space1 a).
  - destruct (space1 a); [done|]. by destruct (space2 a b).
  - destruct (space1 a); [done|]. destruct (space2 a b); [done|].
    by destruct (space3 a b c).
Qed.

Lemma next_piece_text s p r : next_piece s = Some (p, r) → s = piece_text p +:+ r.
Proof.
  destruct s as [|a [|b [|c r3]]]; cbn [next_piece]; [done| | |].
  - destruct (space1 a); by intros [= <- <-].
  - destruct (space1 a); [by intros [= <- <-]|].
    destruct (space2 a b); by intros [= <- <-].
  - destruct (space1 a); [by intros [= <- <-]|].
    destruct (space2 a b); [by intros [= <- <-]|].
    destruct (space3 a b c); by intros [= <- <-].
Qed.

Lemma next_piece_nonempty s p r :
  next_piece s = Some (p, r) → piece_text p ≠ EmptyString.
Proof.
  destruct s as [|a [|b [|c r3]]]; cbn [next_piece]; [done| | |].
  - destruct (space1 a); by intros [= <- <-].
  - destruct (space1 a); [by intros [= <- <-]|].
    destruct (space2 a b); by intros [= <- <-].
  - destruct (space1 a); [by intros [= <- <-]|].
    destruct (space2 a b); [by intros [= <- <-]|].
    destruct (space3 a b c); by intros [= <- <-].
Qed.

Lemma next_piece_None s : next_piece s = None → s = EmptyString.
Proof.
  destruct s as [|a [|b [|c r3]]]; cbn [next_piece]; [done| | |].
  - by destruct (space1 a).
  - destruct (space1 a); [done|]. by destruct (space2 a b).
  - destruct (space1 a); [done|]. destruct (space2 a b); [done|].
    by destruct (space3 a b c).
Qed.

(** A white space character stays one whatever follows it. *)
Lemma next_piece_space_app s b r e :
  next_piece s = Some (Space b, r) →
  next_piece (s +:+ e) = Some (Space b, r +:+ e).
Proof.
  destruct s as [|a [|b0 [|c r3]]]; cbn [next_piece]; [done| | |];
    rewrite ?string_app_cons; cbn [next_piece].
  - destruct (space1 a); [by intros [= <- <-]|done].
  - destruct (space1 a); [by intros [= <- <-]|].
    destruct (space2 a b0); [by intros [= <- <-]|done].
  - destruct (space1 a); [by intros [= <- <-]|].
    destruct (space2 a b0); [by intros [= <- <-]|].
    destruct (space3 a b0 c); [by intros [= <- <-]|done].
Qed.

(** The first piece of a text is the first piece of the text cut after it
    or later. *)
Lemma next_piece_cut x s e q :
  next_piece (x +:+ s +:+ e) = Some (q, s +:+ e) → piece_text q = x →
  next_piece (x +:+ s) = Some (q, s).
Proof.
  intros Hn Hq.
  destruct q as [b|a]; cbn [piece_text] in Hq; subst x.
  - destruct b as [|a [|b0 [|c [|d b']]]];
      rewrite ?string_app_cons, ?string_app_nil_l in Hn |- *;
      cbn [next_piece] in Hn |- *.
    + by apply next_piece_nonempty in Hn.
    + destruct (space1 a); [done|]. exfalso.
      destruct (s +:+ e) as [|b1 [|c1 r1]]; [done| |].
      * destruct (space2 a b1); congruence.
      * destruct (space2 a b1); [congruence|].
        destruct (space3 a b1 c1); congruence.
    + destruct (space1 a); [congruence|].
      destruct (space2 a b0); [done|]. exfalso.
      destruct (s +:+ e) as [|c1 r1]; [done|].
      destruct (space3 a b0 c1); congruence.
    + destruct (space1 a); [congruence|].
      destruct (space2 a b0); [congruence|].
      destruct (space3 a b0 c); [done|congruence].
    + exfalso. destruct (space1 a); [congruence|].
      destruct (space2 a b0); [congruence|].
      destruct (space3 a b0 c); congruence.
  - rewrite ?string_app_cons, ?string_app_nil_l in Hn |- *.
    cbn [next_piece] in Hn |- *.
    destruct (space1 a); [done|].
    destruct s as [|b s2]; [done|].
    rewrite ?string_app_cons, ?string_app_nil_l in Hn.
    destruct (space2 a b); [done|].
    destruct s2 as [|c s3]; [done|].
    rewrite ?string_app_cons, ?string_app_nil_l in Hn.
    by destruct (space3 a b c).
Qed.

Lemma text_app ps qs : text (ps ++ qs) = text ps +:+ text qs.
Proof.
  induction ps as [|p ps IH]; [done|]. cbn [app text foldr].
  fold (text (ps ++ qs)). fold (text ps). by rewrite IH, string_app_assoc.
Qed.

Lemma text_cons p ps : text (p :: ps) = piece_text p +:+ text ps.
Proof. reflexivity. Qed.

Lemma string_length_app a b :
  String.length (a +:+ b) = String.length a + String.length b.
Proof.
  induction a as [|c a IH]; [done|]. rewrite string_app_cons. cbn. by rewrite IH.
Qed.

Lemma text_pieces s : text (pieces s) = s.
Proof.
  remember (String.length s) as n eqn:Hn. revert s Hn.
  induction n as [n IH] using lt_wf_ind. intros s Hn.
  rewrite pieces_next. destruct (next_piece s) as [[p r]|] eqn:E.
  - pose proof (next_piece_text _ _ _ E) as Hs.
    pose proof (next_piece_nonempty _ _ _ E) as Hp.
    rewrite text_cons, (IH (String.length r)); [done| |done].
    subst n. rewrite Hs, string_length_app. clear -Hp.
    destruct (piece_text p) as [|c t]; [done|]. cbn. lia.
  - by apply next_piece_None in E.
Qed.

Lemma pieces_cons_inv s p ps :
  pieces s = p :: ps → ∃ r, next_piece s = Some (p, r) ∧ pieces r = ps.
Proof.
  rewrite pieces_next. destruct (next_piece s) as [[q r]|]; [|done].
  intros [= -> <-]. by exists r.
Qed.

Lemma pieces_nil_inv s : pieces s = [] → s = EmptyString.
Proof.
  rewrite pieces_next. destruct (next_piece s) as [[q r]|] eqn:E; [done|].
  intros _. by apply next_piece_None.
Qed.

(** A list of pieces that is the cutting of its own text stays so when
    pieces are taken off either end. *)
Lemma pieces_text_tail p ps :
  pieces (text (p :: ps)) = p :: ps → pieces (text ps) = ps.
Proof.
  intros H. apply pieces_cons_inv in H as (r & Hn & Hr).
  apply next_piece_text in Hn. rewrite text_cons in Hn.
  apply string_app_inv_l in Hn. by rewrite Hn.
Qed.

Lemma pieces_text_init ps : ∀ p,
  pieces (text (ps ++ [p])) = (ps ++ [p])%list → pieces (text ps) = ps.
Proof.
  induction ps as [|q ps IH]; intros p H; [done|].
  cbn [app] in H. pose proof (pieces_text_tail _ _ H) as Htail.
  specialize (IH p Htail).
  apply pieces_cons_inv in H as (r & Hn & Hr).
  pose proof (next_piece_text _ _ _ Hn) as Ht. rewrite text_cons in Ht.
  apply string_app_inv_l in Ht. subst r.
  rewrite text_cons, text_app in Hn.
  apply next_piece_cut in Hn; [|done].
  rewrite text_cons, pieces_next, Hn. by rewrite IH.
Qed.

Lemma pieces_text_middle ps1 ps2 ps3 :
  pieces (text (ps1 ++ ps2 ++ ps3)) = (ps1 ++ ps2 ++ ps3)%list →
  pieces (text ps2) = ps2.
Proof.
  induction ps1 as [|p ps1 IH]; cbn [app].
  - induction ps3 as [|q ps3 IH] using rev_ind.
    + by rewrite app_nil_r.
    + rewrite app_assoc. intros H. apply pieces_text_init in H. by apply IH.
  - intros H. apply pieces_text_tail in H. by apply IH.
Qed.

Lemma pieces_sub ps1 ps2 ps3 s :
  pieces s = (ps1 ++ ps2 ++ ps3)%list → pieces (text ps2) = ps2.
Proof.
  intros H. apply (pieces_text_middle ps1 ps2 ps3).
  by rewrite <- H, text_pieces.
Qed.

Lemma pieces_nonempty s : Forall (λ p, piece_text p ≠ EmptyString) (pieces s).
Proof.
  remember (pieces s) as ps eqn:Hps. revert s Hps.
  induction ps as [|p ps IH]; intros s Hps; [constructor|].
  symmetry in Hps. apply pieces_cons_inv in Hps as (r & Hn & Hr).
  constructor; [by eapply next_piece_nonempty|]. by apply (IH r).
Qed.

(** White space in front of a text is cut as it is alone. *)
Lemma pieces_app_space x : ∀ ps w,
  pieces w = ps → forallb is_space ps = true →
  pieces (w +:+ x) = (ps ++ pieces x)%list.
Proof.
  induction ps as [|p ps IH]; intros w Hw Hall.
  - apply pieces_nil_inv in Hw. by subst w.
  - apply pieces_cons_inv in Hw as (r & Hn & Hr).
    cbn [forallb] in Hall. apply andb_prop in Hall as [Hp Hall].
    destruct p as [b|c]; [|done].
    rewrite pieces_next, (next_piece_space_app _ _ _ x Hn).
    cbn [app]. f_equal. by apply IH.
Qed.

(** *** Skipping white space *)

Lemma skip_leading ps : ps = (leading_spaces ps ++ skip_spaces ps)%list.
Proof.
  induction ps as [|p ps IH]; [done|]. cbn.
  destruct (is_space p); cbn; [by f_equal|done].
Qed.

Lemma leading_spaces_all ps : forallb is_space (leading_spaces ps) = true.
Proof.
  induction ps as [|p ps IH]; [done|]. cbn.
  destruct (is_space p) eqn:E; cbn; [by rewrite E|done].
Qed.

Lemma skip_spaces_head ps :
  match head (skip_spaces ps) with Some p => is_space p = false | None => True end.
Proof.
  induction ps as [|p ps IH]; [done|]. cbn.
  by destruct (is_space p) eqn:E.
Qed.

Lemma skip_spaces_fixed ps :
  match head ps with Some p => is_space p = false | None => True end →
  skip_spaces ps = ps.
Proof. destruct ps as [|p ps]; [done|]. cbn. by intros ->. Qed.

Lemma skip_spaces_all ps : forallb is_space ps = true → skip_spaces ps = [].
Proof.
  induction ps as [|p ps IH]; [done|]. cbn. intros H.
  apply andb_prop in H as [-> H]. by apply IH.
Qed.

Lemma skip_spaces_nil ps : skip_spaces ps = [] → forallb is_space ps = true.
Proof.
  induction ps as [|p ps IH]; [done|]. cbn.
  destruct (is_space p); [exact IH|done].
Qed.

Lemma leading_app_all ps qs :
  forallb is_space ps = true →
  match head qs with Some p => is_space p = false | None => True end →
  leading_spaces (ps ++ qs) = ps ∧ skip_spaces (ps ++ qs) = qs.
Proof.
  intros Hps Hqs. induction ps as [|p ps IH]; cbn.
  - destruct qs as [|q qs]; [done|]. cbn in *. by rewrite Hqs.
  - cbn in Hps. apply andb_prop in Hps as [-> Hps].
    destruct (IH Hps) as [-> ->]. done.
Qed.

Lemma last_rev_head {A} (l : list A) : last (rev l) = head l.
Proof. destruct l as [|x l]; [done|]. cbn [rev]. apply last_snoc. Qed.

(** What is left when white space is taken off both ends. *)
Lemma trim_pieces ps :
  ∃ l1 l2, ps = (l1 ++ rev (skip_spaces (rev (skip_spaces ps))) ++ l2)%list
           ∧ forallb is_space l1 = true ∧ forallb is_space l2 = true.
Proof.
  exists (leading_spaces ps), (rev (leading_spaces (rev (skip_spaces ps)))).
  split; [|split].
  - rewrite <- rev_app_distr, <- skip_leading, rev_involutive.
    apply skip_leading.
  - apply leading_spaces_all.
  - rewrite forallb_forall. intros p Hp. apply in_rev in Hp.
    revert p Hp. rewrite <- forallb_forall. apply leading_spaces_all.
Qed.

Lemma trim_pieces_ends ps :
  let qs := rev (skip_spaces (rev (skip_spaces ps))) in
  match head qs with Some p => is_space p = false | None => True end
  ∧ match last qs with Some p => is_space p = false | None => True end.
Proof.
  intros qs. subst qs.
  assert (Hlast : match last (rev (skip_spaces (rev (skip_spaces ps)))) with
                  | Some p => is_space p = false
                  | None => True
                  end).
  { rewrite last_rev_head. apply skip_spaces_head. }
  split; [|exact Hlast].
  pose proof (skip_spaces_head ps) as Hh.
  destruct (skip_spaces ps) as [|p qs] eqn:E; [done|]. cbn in Hh.
  destruct (rev (skip_spaces (rev (p :: qs)))) as [|q rs] eqn:E2; [done|].
  cbn.
  assert (Hpre : ∃ l, (p :: qs) = ((q :: rs) ++ l)%list).
  { exists (rev (leading_spaces (rev (p :: qs)))).
    rewrite <- E2, <- rev_app_distr, <- skip_leading. by rewrite rev_involutive. }
  destruct Hpre as [l Hl]. cbn in Hl. injection Hl as <- _. exact Hh.
Qed.

Lemma pieces_trim s :
  pieces (trim s) = rev (skip_spaces (rev (skip_spaces (pieces s)))).
Proof.
  unfold trim. destruct (trim_pieces (pieces s)) as (l1 & l2 & Heq & _).
  by apply (pieces_sub l1 _ l2 s).
Qed.

Lemma head_rev_last {A} (l : list A) : head (rev l) = last l.
Proof. by rewrite <- (last_rev_head (rev l)), rev_involutive. Qed.

Lemma trim_pieces_fixed qs :
  match head qs with Some p => is_space p = false | None => True end →
  match last qs with Some p => is_space p = false | None => True end →
  rev (skip_spaces (rev (skip_spaces qs))) = qs.
Proof.
  intros Hh Hl. rewrite (skip_spaces_fixed qs Hh), skip_spaces_fixed.
  - apply rev_involutive.
  - by rewrite head_rev_last.
Qed.

Lemma strip_prefix_app ci p q r :
  strip_prefix ci p q = Some EmptyString → strip_prefix ci p (q +:+ r) = Some r.
Proof.
  revert q. induction p as [|a p IH]; intros q.
  - cbn. destruct q; [done|]. intros [=].
  - destruct q as [|b q]; [done|].
    rewrite string_app_cons. cbn [strip_prefix].
    destruct (if ci then _ else _); [apply IH|done].
Qed.

(** X3.  The pattern [/^Uses\s+(.+)$/i] captures the name as it is
    written: for the word in any letter case, followed by at least one
    white space character and then a text that is not empty, does not start
    with a white space character and holds no line terminator, the captured
    group is exactly that text. *)
Theorem match_uses_captures (p w x : string) :
  strip_prefix true "Uses" p = Some EmptyString →
  w ≠ EmptyString → all_space w = true →
  x ≠ EmptyString → starts_space x = false →
  any_newline x = false →
  match_uses (p +:+ w +:+ x) = Some x.
Proof.
  intros Hp Hw Hall Hx Hstart Hnl. unfold match_uses.
  rewrite (strip_prefix_app _ _ _ _ Hp).
  rewrite (pieces_app_space x (pieces w) w eq_refl Hall).
  assert (Hhead : match head (pieces x) with
                  | Some q => is_space q = false
                  | None => True
                  end).
  { unfold starts_space in Hstart. by destruct (head (pieces x)). }
  destruct (leading_app_all (pieces w) (pieces x) Hall Hhead) as [-> ->].
  destruct (pieces w) as [|q qs] eqn:Ew.
  { by apply pieces_nil_inv in Ew. }
  destruct (pieces x) as [|y ys] eqn:Ex.
  { by apply pieces_nil_inv in Ex. }
  unfold any_newline in Hnl. rewrite Ex in Hnl. rewrite Hnl.
  rewrite <- Ex, text_pieces. by destruct qs.
Qed.

Lemma match_uses_captures_witness :
  strip_prefix true "Uses" "uSES" = Some EmptyString
  ∧ " " ≠ EmptyString ∧ all_space " " = true
  ∧ "Elixir of Life" ≠ EmptyString
  ∧ starts_space "Elixir of Life" = false
  ∧ any_newline "Elixir of Life" = false
  ∧ match_uses ("uSES" +:+ " " +:+ "Elixir of Life") = Some "Elixir of Life".
Proof.
  assert (H1 : strip_prefix true "Uses" "uSES" = Some EmptyString) by reflexivity.
  assert (H2 : " " ≠ EmptyString) by discriminate.
  assert (H3 : all_space " " = true) by reflexivity.
  assert (H4 : "Elixir of Life" ≠ EmptyString) by discriminate.
  assert (H5 : starts_space "Elixir of Life" = false) by reflexivity.
  assert (H6 : any_newline "Elixir of Life" = false) by reflexivity.
  repeat (split; [assumption|]).
  exact (match_uses_captures "uSES" " " "Elixir of Life" H1 H2 H3 H4 H5 H6).
Defined.
Lemma split_dot_nonempty s : split_dot s ≠ [].
Proof.
  destruct s as [|c s]; [done|]. cbn [split_dot].
  destruct (Ascii.eqb c "."); [done|]. by destruct (split_dot s).
Qed.

Lemma split_dot_no_dot s : contains_char "." s = false → split_dot s = [s].
Proof.
  induction s as [|c s IH]; [done|]. cbn [contains_char split_dot]. intros H.
  apply orb_false_elim in H as [Hc Hs]. rewrite Ascii.eqb_sym, Hc.
  by rewrite (IH Hs).
Qed.

Lemma split_dot_app a b :
  contains_char "." a = false →
  split_dot (a +:+ "." +:+ b) = a :: split_dot b.
Proof.
  induction a as [|c a IH]; [done|]. cbn [contains_char]. intros H.
  apply orb_false_elim in H as [Hc Ha].
  change (String c a +:+ "." +:+ b) with (String c (a +:+ "." +:+ b)).
  cbn [split_dot]. rewrite Ascii.eqb_sym, Hc. by rewrite (IH Ha).
Qed.

(** X4.  [split('.')] loses nothing: joining the parts with dots gives the
    text back, no part holds a dot, and there is always at least one part. *)
Theorem split_dot_join (s : string) :
  String.concat "." (split_dot s) = s
  ∧ Forall (λ p, contains_char "." p = false) (split_dot s)
  ∧ 1 ≤ length (split_dot s).
Proof.
  induction s as [|c s (Hj & Hf & Hl)].
  - repeat split; [repeat constructor|done].
  - cbn [split_dot]. destruct (Ascii.eqb_spec c ".") as [->|Hne].
    + split; [|split].
      * destruct (split_dot s) as [|p ps] eqn:E; [by apply split_dot_nonempty in E|].
        change (String.concat "." (EmptyString :: p :: ps))
          with (String "." (String.concat "." (p :: ps))).
        by rewrite Hj.
      * constructor; [done|exact Hf].
      * cbn. lia.
    + destruct (split_dot s) as [|p ps] eqn:E; [by apply split_dot_nonempty in E|].
      split; [|split].
      * rewrite <- Hj. by destruct ps.
      * apply Forall_cons in Hf as [Hp Hps]. constructor; [|exact Hps].
        cbn [contains_char]. rewrite Hp, orb_false_r.
        destruct (Ascii.eqb_spec "." c); [congruence|done].
      * cbn. lia.
Qed.

(** ** The item resolver of the chat-message callback *)

Lemma split_dot_locator a iid :
  contains_char "." a = false → contains_char "." iid = false →
  split_dot ("Actor." +:+ a +:+ ".Item." +:+ iid) = ["Actor"; a; "Item"; iid].
Proof.
  intros Ha Hi.
  change ("Actor." +:+ a +:+ ".Item." +:+ iid)
    with ("Actor" +:+ "." +:+ (a +:+ "." +:+ ("Item" +:+ "." +:+ iid))).
  rewrite (split_dot_app "Actor") by reflexivity.
  rewrite (split_dot_app a) by exact Ha.
  rewrite (split_dot_app "Item") by reflexivity.
  by rewrite (split_dot_no_dot iid Hi).
Qed.

(** X5.  A message without a direct item whose locators do not resolve,
    but whose origin locator is [Actor.<a>.Item.<i>] for a known actor [a]
    that has an item with identifier [i]: the callback goes on with that
    item, found by its identifier alone, whatever the text of the message
    says and whatever the item's name and type are. *)
Theorem chat_item_by_locator (h : Host) (message : Message) (a iid : string)
    (actor : Actor) (it : Item) (k : option Doc → Prog) (g : Runtime) :
  msg_item message = None →
  (∀ cu, msg_context_item message = Some cu → found (fromUuid h cu) = None) →
  contains_char "." a = false → contains_char "." iid = false →
  msg_origin_uuid message = Some ("Actor." +:+ a +:+ ".Item." +:+ iid) →
  found (fromUuid h ("Actor." +:+ a +:+ ".Item." +:+ iid)) = None →
  actors_get h a = Some actor →
  items_get actor (Some iid) = Some it →
  ∃ g', quiet_ext g g'
        ∧ run_alone h (createChatMessage_resolve h message k) g
          = run_alone h (k (Some (DocItem it))) g'.
Proof.
  intros Hitem Hctx Ha Hi Hou Hnf Hactor Hget.
  destruct (run_alone_resolve h message k g) as (g' & Hq & ->).
  exists g'. split; [exact Hq|]. f_equal. f_equal.
  unfold resolve_item. rewrite Hitem, Hou.
  assert (Hc0 : match msg_context_item message with
                | Some u0 => if truthy_str (Some u0) then found (fromUuid h u0) else None
                | None => None
                end = None).
  { destruct (msg_context_item message) as [cu|]; [|done].
    rewrite (Hctx cu eq_refl). by destruct (truthy_str (Some cu)). }
  rewrite Hc0, Hnf. cbn [truthy_str String.append String.eqb negb].
  unfold parse_origin.
  change (String "A" ("ctor." +:+ a +:+ ".Item." +:+ iid))
    with ("Actor." +:+ a +:+ ".Item." +:+ iid).
  rewrite (split_dot_locator a iid Ha Hi).
  cbn [String.eqb Ascii.eqb Bool.eqb andb head]. by rewrite Hactor, Hget.
Qed.

Lemma chat_item_by_locator_witness :
  let message :=
    {| msg_item := None; msg_flavor := None;
       msg_content := Some "Uses Something Else";
       msg_speaker := Sample.narrator; msg_context_item := None;
       msg_origin_uuid := Some ("Actor." +:+ "a1" +:+ ".Item." +:+ "i1");
       msg_origin_name := None; msg_origin_sourceId := None |} in
  msg_item message = None
  ∧ (∀ cu, msg_context_item message = Some cu →
       found (fromUuid Sample.host cu) = None)
  ∧ contains_char "." "a1" = false ∧ contains_char "." "i1" = false
  ∧ msg_origin_uuid message = Some ("Actor." +:+ "a1" +:+ ".Item." +:+ "i1")
  ∧ found (fromUuid Sample.host ("Actor." +:+ "a1" +:+ ".Item." +:+ "i1")) = None
  ∧ actors_get Sample.host "a1" = Some Sample.hero
  ∧ items_get Sample.hero (Some "i1") = Some Sample.potion
  ∧ ∃ g', quiet_ext init g'
          ∧ run_alone Sample.host
              (createChatMessage_resolve Sample.host message
                 (createChatMessage_dispatch Sample.host message)) init
            = run_alone Sample.host
                (createChatMessage_dispatch Sample.host message
                   (Some (DocItem Sample.potion))) g'.
Proof.
  intros message.
  assert (H1 : msg_item message = None) by reflexivity.
  assert (H2 : ∀ cu, msg_context_item message = Some cu →
                 found (fromUuid Sample.host cu) = None) by discriminate.
  assert (H3 : contains_char "." "a1" = false) by reflexivity.
  assert (H4 : contains_char "." "i1" = false) by reflexivity.
  assert (H5 : msg_origin_uuid message
               = Some ("Actor." +:+ "a1" +:+ ".Item." +:+ "i1")) by reflexivity.
  assert (H6 : found (fromUuid Sample.host ("Actor." +:+ "a1" +:+ ".Item." +:+ "i1"))
               = None) by reflexivity.
  assert (H7 : actors_get Sample.host "a1" = Some Sample.hero) by reflexivity.
  assert (H8 : items_get Sample.hero (Some "i1") = Some Sample.potion) by reflexivity.
  repeat (split; [assumption|]).
  exact (chat_item_by_locator Sample.host message "a1" "i1" Sample.hero
           Sample.potion (createChatMessage_dispatch Sample.host message) init
           H1 H2 H3 H4 H5 H6 H7 H8).
Defined.

Lemma find_consumable_app name l1 i l2 :
  Forall (λ j, String.eqb (item_name j) name
               && String.eqb (item_type j) "consumable" = false) l1 →
  item_name i = name → item_type i = "consumable" →
  find_consumable name (l1 ++ i :: l2) = Some i.
Proof.
  intros Hl1 Hn Ht. unfold find_consumable.
  induction Hl1 as [|j l1 Hj _ IH].
  - cbn [app List.find]. by rewrite Hn, Ht, !String.eqb_refl.
  - cbn [app List.find]. by rewrite Hj.
Qed.

(** X6.  When several consumables share the name, the search by name takes
    the first one in the actor's inventory, and takes it before anything in
    the world items or the source document is looked at. *)
Theorem search_takes_first (h : Host) (message : Message) (actor : Actor)
    (name : string) (l1 l2 : list Item) (i : Item)
    (k : option Doc → Prog) (g : Runtime) :
  extract_item_name message = Some name → name ≠ EmptyString →
  actor_items actor = (l1 ++ i :: l2)%list →
  Forall (λ j, String.eqb (item_name j) name
               && String.eqb (item_type j) "consumable" = false) l1 →
  item_name i = name → item_type i = "consumable" →
  run_sync (createChatMessage_byName h message actor k) g
  = run_sync (k (Some (DocItem i))) g.
Proof.
  intros Hex Hne Hitems Hl1 Hn Ht. unfold createChatMessage_byName.
  rewrite Hex, (truthy_str_Some name Hne), Hitems.
  by rewrite (find_consumable_app name l1 i l2 Hl1 Hn Ht).
Qed.

Lemma search_takes_first_witness :
  let twin := {| item_id := "i7"; item_name := "Healing Potion";
                 item_type := "consumable"; item_quantity := Some 5%Z;
                 item_flags := ∅; item_parent := Some "a1" |} in
  let sword := {| item_id := "i3"; item_name := "Healing Potion";
                  item_type := "weapon"; item_quantity := Some 1%Z;
                  item_flags := ∅; item_parent := Some "a1" |} in
  let actor := {| actor_id := "a1"; actor_items := [sword; Sample.potion; twin];
                  actor_tokens := [] |} in
  extract_item_name Sample.uses_potion = Some "Healing Potion"
  ∧ "Healing Potion" ≠ EmptyString
  ∧ actor_items actor = ([sword] ++ Sample.potion :: [twin])%list
  ∧ Forall (λ j, String.eqb (item_name j) "Healing Potion"
                 && String.eqb (item_type j) "consumable" = false) [sword]
  ∧ item_name Sample.potion = "Healing Potion"
  ∧ item_type Sample.potion = "consumable"
  ∧ run_sync (createChatMessage_byName Sample.host Sample.uses_potion actor
                (createChatMessage_dispatch Sample.host Sample.uses_potion)) init
    = run_sync (createChatMessage_dispatch Sample.host Sample.uses_potion
                  (Some (DocItem Sample.potion))) init.
Proof.
  intros twin sword actor.
  assert (H1 : extract_item_name Sample.uses_potion = Some "Healing Potion")
    by reflexivity.
  assert (H2 : "Healing Potion" ≠ EmptyString) by discriminate.
  assert (H3 : actor_items actor = ([sword] ++ Sample.potion :: [twin])%list)
    by reflexivity.
  assert (H4 : Forall (λ j, String.eqb (item_name j) "Healing Potion"
                 && String.eqb (item_type j) "consumable" = false) [sword])
    by (repeat constructor).
  assert (H5 : item_name Sample.potion = "Healing Potion") by reflexivity.
  assert (H6 : item_type Sample.potion = "consumable") by reflexivity.
  repeat (split; [assumption|]).
  exact (search_takes_first Sample.host Sample.uses_potion actor "Healing Potion"
           [sword] [twin] Sample.potion
           (createChatMessage_dispatch Sample.host Sample.uses_potion) init
           H1 H2 H3 H4 H5 H6).
Defined.

Lemma parse_origin_unknown h message ou :
  (∀ a rest, split_dot ou = "Actor" :: a :: "Item" :: rest → actors_get h a = None) →
  parse_origin h message ou = None.
Proof.
  intros H. unfold parse_origin.
  destruct (split_dot ou) as [|owner [|actorId [|kind rest]]]; try done.
  destruct (String.eqb_spec owner "Actor") as [->|]; [|done].
  destruct (String.eqb_spec kind "Item") as [->|]; [|done].
  cbn [andb]. by rewrite (H actorId rest eq_refl).
Qed.

(** X7.  The search by name is reached only through an origin locator of
    the form [Actor.<a>.Item.<i>] that names a known actor.  A message with
    no direct item, no resolving locator and no such origin locator is
    dropped, whatever its flavor, content, origin name and source say:
    nothing is invoked, admitted, rejected or shown. *)
Theorem chat_without_actor_ignored (h : Host) (g : Runtime) (message : Message)
    (userId : string) :
  msg_item message = None →
  (∀ cu, msg_context_item message = Some cu → found (fromUuid h cu) = None) →
  (∀ ou, msg_origin_uuid message = Some ou →
     found (fromUuid h ou) = None
     ∧ ∀ a rest, split_dot ou = "Actor" :: a :: "Item" :: rest →
                 actors_get h a = None) →
  quiet_ext g (settle h (NCreateChatMessage message userId) g).
Proof.
  intros Hitem Hctx Hou. unfold settle, handler, createChatMessage.
  destruct (negb (String.eqb userId (user_id h))); [apply quiet_refl|].
  destruct (run_alone_resolve h message (createChatMessage_dispatch h message) g)
    as (g' & Hq & ->).
  replace (resolve_item h message) with (@None Doc); [exact Hq|].
  unfold resolve_item. rewrite Hitem.
  assert (Hc0 : match msg_context_item message with
                | Some u0 => if truthy_str (Some u0) then found (fromUuid h u0) else None
                | None => None
                end = None).
  { destruct (msg_context_item message) as [cu|]; [|done].
    rewrite (Hctx cu eq_refl). by destruct (truthy_str (Some cu)). }
  rewrite Hc0. destruct (msg_origin_uuid message) as [ou|]; [|done].
  destruct (Hou ou eq_refl) as [Hnf Hact]. rewrite Hnf.
  rewrite (parse_origin_unknown h message ou Hact).
  by destruct (truthy_str (Some ou)).
Qed.

Lemma chat_without_actor_ignored_witness :
  let message :=
    {| msg_item := None; msg_flavor := None;
       msg_content := Some "Uses Healing Potion";
       msg_speaker := Sample.narrator; msg_context_item := None;
       msg_origin_uuid := Some "Item.i1";
       msg_origin_name := Some "Healing Potion";
       msg_origin_sourceId := Some "Macro.heal" |} in
  msg_item message = None
  ∧ (∀ cu, msg_context_item message = Some cu →
       found (fromUuid Sample.host cu) = None)
  ∧ (∀ ou, msg_origin_uuid message = Some ou →
       found (fromUuid Sample.host ou) = None
       ∧ ∀ a rest, split_dot ou = "Actor" :: a :: "Item" :: rest →
                   actors_get Sample.host a = None)
  ∧ quiet_ext init (settle Sample.host (NCreateChatMessage message "me") init).
Proof.
  intros message.
  assert (H1 : msg_item message = None) by reflexivity.
  assert (H2 : ∀ cu, msg_context_item message = Some cu →
                 found (fromUuid Sample.host cu) = None) by discriminate.
  assert (H3 : ∀ ou, msg_origin_uuid message = Some ou →
       found (fromUuid Sample.host ou) = None
       ∧ ∀ a rest, split_dot ou = "Actor" :: a :: "Item" :: rest →
                   actors_get Sample.host a = None).
  { intros ou [= <-]. split; [reflexivity|]. intros a rest Hs.
    vm_compute in Hs. discriminate Hs. }
  repeat (split; [assumption|]).
  exact (chat_without_actor_ignored Sample.host init message "me" H1 H2 H3).
Defined.

(** ** What the guards let through *)

Lemma unflagged_run_sync (h : Host) (g : Runtime) (n : Notification)
    (item : Item) :
  notification_item n = Some item →
  truthy_str (getFlag item MODULE_ID FLAG_MACRO_UUID) = false →
  run_sync (handler h n) g = (g, None).
Proof.
  intros Hn Hflag.
  destruct n as [it change uid|it uid|it uid|it ev tg|it actor|msg uid];
    cbn in Hn; try discriminate; injection Hn as ->; cbn [handler].
  - unfold preUpdateItem. rewrite Hflag.
    destruct (negb (String.eqb uid (user_id h))); [done|].
    destruct (negb (String.eqb (item_type item) "consumable")); [done|].
    destruct (negb (truthy_num (change_quantity change))); [done|].
    destruct (change_quantity change) as [new|]; [|done].
    by destruct (js_ge new (item_quantity item)).
  - unfold preDeleteItem. rewrite Hflag.
    destruct (negb (String.eqb uid (user_id h))); [done|].
    by destruct (negb (String.eqb (item_type item) "consumable")).
  - unfold pf2e_useItem. rewrite Hflag.
    by destruct (negb (String.eqb (item_type item) "consumable")).
  - unfold pf2e_consumeItem. by rewrite Hflag.
Qed.

(** X8.  An item with no macro attached (no flag, or an empty one) is left
    alone on the pre-update, pre-delete, use and consume paths: the callback
    returns at once, without a look-up, without touching the tables. *)
Theorem no_macro_no_action (h : Host) (g : Runtime) (n : Notification)
    (item : Item) :
  notification_item n = Some item →
  truthy_str (getFlag item MODULE_ID FLAG_MACRO_UUID) = false →
  run_sync (handler h n) g = (g, None).
Proof. apply unflagged_run_sync. Qed.

Lemma no_macro_no_action_witness :
  let bare := {| item_id := "i4"; item_name := "Ale"; item_type := "consumable";
                 item_quantity := Some 2%Z; item_flags := Sample.attach "";
                 item_parent := Some "a1" |} in
  let n := NPreUpdateItem bare {| change_quantity := Some 1%Z |} "me" in
  notification_item n = Some bare
  ∧ truthy_str (getFlag bare MODULE_ID FLAG_MACRO_UUID) = false
  ∧ run_sync (handler Sample.host n) init = (init, None).
Proof.
  intros bare n.
  assert (H1 : notification_item n = Some bare) by reflexivity.
  assert (H2 : truthy_str (getFlag bare MODULE_ID FLAG_MACRO_UUID) = false)
    by (vm_compute; reflexivity).
  repeat (split; [assumption|]).
  exact (no_macro_no_action Sample.host init n bare H1 H2).
Defined.

(** X9.  The pre-update, pre-delete and use callbacks leave every item
    whose type is not [consumable] alone, without a look-up and without
    touching the tables, macro attached or not. *)
Theorem other_types_ignored (h : Host) (g : Runtime) (n : Notification)
    (item : Item) :
  notification_item n = Some item →
  checks_type n = true →
  item_type item ≠ "consumable" →
  run_sync (handler h n) g = (g, None).
Proof.
  intros Hn Hc Htype.
  assert (Hb : String.eqb (item_type item) "consumable" = false)
    by (by apply String.eqb_neq).
  destruct n as [it change uid|it uid|it uid|it ev tg|it actor|msg uid];
    cbn in Hn, Hc; try discriminate; injection Hn as ->; cbn [handler].
  - unfold preUpdateItem. rewrite Hb.
    by destruct (negb (String.eqb uid (user_id h))).
  - unfold preDeleteItem. rewrite Hb.
    by destruct (negb (String.eqb uid (user_id h))).
  - unfold pf2e_useItem. by rewrite Hb.
Qed.

Lemma other_types_ignored_witness :
  let sword := {| item_id := "i3"; item_name := "Sword"; item_type := "weapon";
                  item_quantity := Some 1%Z;
                  item_flags := Sample.attach "Macro.heal";
                  item_parent := Some "a1" |} in
  let n := NUseItem sword "ev" "tg" in
  notification_item n = Some sword
  ∧ checks_type n = true
  ∧ item_type sword ≠ "consumable"
  ∧ run_sync (handler Sample.host n) init = (init, None).
Proof.
  intros sword n.
  assert (H1 : notification_item n = Some sword) by reflexivity.
  assert (H2 : checks_type n = true) by reflexivity.
  assert (H3 : item_type sword ≠ "consumable") by discriminate.
  repeat (split; [assumption|]).
  exact (other_types_ignored Sample.host init n sword H1 H2 H3).
Defined.

(** X10.  The consume callback does not test the type of the item: for an
    item of any type with an attached, resolvable macro and no live entry it
    admits the key and invokes the macro, with the actor it was given and
    that actor's first active token in the context. *)
Theorem consume_any_type (h : Host) (g : Runtime) (item : Item) (actor : Actor)
    (u : string) (m : Macro) :
  getFlag item MODULE_ID FLAG_MACRO_UUID = Some u → u ≠ EmptyString →
  fromUuid h u = Found (DocMacro m) →
  dedup_key (item_name item) u ∉ recentlyExecuted g →
  let g' := settle h (NConsumeItem item actor) g in
  invocations g'
  = (invocations g
     ++ [(m, {| ctx_actor := Some (actor_id actor);
                ctx_token := head (actor_tokens actor);
                ctx_character := user_character h;
                ctx_item := DocItem item;
                ctx_speaker := getSpeakerFor h actor;
                ctx_event := None; ctx_target := None;
                ctx_message := None |})])%list
  ∧ admissions g'
    = (admissions g ++ [(now g, dedup_key (item_name item) u)])%list.
Proof.
  intros Hflag Hu Hres Hfresh g'. subst g'.
  unfold settle, handler, pf2e_consumeItem.
  rewrite Hflag, (truthy_str_Some u Hu). cbn [negb run_alone]. rewrite Hres.
  cbn [run_alone]. unfold shouldExecuteMacro.
  rewrite decide_False by exact Hfresh. cbn [negb].
  split.
  - rewrite invocations_try_execute. f_equal. readers. done.
  - cbn. destruct (host_execute h m _) as [[| |msg]|]; readers; done.
Qed.

Lemma consume_any_type_witness :
  let sword := {| item_id := "i3"; item_name := "Sword"; item_type := "weapon";
                  item_quantity := Some 1%Z;
                  item_flags := Sample.attach "Macro.heal";
                  item_parent := Some "a1" |} in
  let g' := settle Sample.host (NConsumeItem sword Sample.hero) init in
  getFlag sword MODULE_ID FLAG_MACRO_UUID = Some "Macro.heal"
  ∧ "Macro.heal" ≠ EmptyString
  ∧ fromUuid Sample.host "Macro.heal" = Found (DocMacro Sample.heal)
  ∧ (dedup_key (item_name sword) "Macro.heal" ∉ recentlyExecuted init)
  ∧ (invocations g').*1 = [Sample.heal]
  ∧ admissions g' = [(0, "Sword:Macro.heal")].
Proof.
  intros sword g'.
  assert (H1 : getFlag sword MODULE_ID FLAG_MACRO_UUID = Some "Macro.heal")
    by (vm_compute; reflexivity).
  assert (H2 : "Macro.heal" ≠ EmptyString) by discriminate.
  assert (H3 : fromUuid Sample.host "Macro.heal" = Found (DocMacro Sample.heal))
    by reflexivity.
  assert (H4 : dedup_key (item_name sword) "Macro.heal" ∉ recentlyExecuted init)
    by apply not_elem_of_empty.
  repeat (split; [assumption|]).
  destruct (consume_any_type Sample.host init sword Sample.hero "Macro.heal"
              Sample.heal H1 H2 H3 H4) as [Hi Ha].
  split; [|exact Ha]. subst g'. by rewrite Hi.
Defined.

(** X24.  The chat-message callback has the same two guards, applied to
    whatever document the resolver found: when that document is no
    consumable, or carries no macro flag, the message is dropped after the
    resolver's look-ups: nothing is invoked, admitted, rejected or shown. *)
Theorem chat_guards (h : Host) (g : Runtime) (message : Message)
    (userId : string) :
  (∀ d, resolve_item h message = Some d →
     doc_type d ≠ "consumable"
     ∨ truthy_str (doc_getFlag d MODULE_ID FLAG_MACRO_UUID) = false) →
  quiet_ext g (settle h (NCreateChatMessage message userId) g).
Proof.
  intros Hguard. unfold settle, handler, createChatMessage.
  destruct (negb (String.eqb userId (user_id h))); [apply quiet_refl|].
  destruct (run_alone_resolve h message (createChatMessage_dispatch h message) g)
    as (g' & Hq & ->).
  destruct (resolve_item h message) as [d|] eqn:Hres; [|exact Hq].
  unfold createChatMessage_dispatch.
  destruct (Hguard d eq_refl) as [Htype|Hflag].
  - apply String.eqb_neq in Htype. rewrite Htype. exact Hq.
  - rewrite Hflag. cbn [negb].
    by destruct (negb (String.eqb (doc_type d) "consumable")).
Qed.

Lemma chat_guards_witness :
  let sword := {| item_id := "i9"; item_name := "Sword"; item_type := "weapon";
                  item_quantity := Some 1%Z;
                  item_flags := Sample.attach "Macro.heal";
                  item_parent := Some "a1" |} in
  let message := {| msg_item := Some sword; msg_flavor := None;
                    msg_content := None; msg_speaker := Sample.narrator;
                    msg_context_item := None; msg_origin_uuid := None;
                    msg_origin_name := None; msg_origin_sourceId := None |} in
  (∀ d, resolve_item Sample.host message = Some d →
     doc_type d ≠ "consumable"
     ∨ truthy_str (doc_getFlag d MODULE_ID FLAG_MACRO_UUID) = false)
  ∧ invocations (settle Sample.host (NCreateChatMessage message "me") init) = [].
Proof.
  intros sword message.
  assert (H : ∀ d, resolve_item Sample.host message = Some d →
                doc_type d ≠ "consumable"
                ∨ truthy_str (doc_getFlag d MODULE_ID FLAG_MACRO_UUID) = false).
  { intros d [= <-]. left. discriminate. }
  split; [exact H|].
  destruct (chat_guards Sample.host init message "me" H)
    as (_ & _ & _ & Hinv & _).
  exact Hinv.
Defined.

(** ** Edges of the pre-update guard and of the dispatch *)

(** X11.  When the item's current quantity is not recorded, the comparison
    with the new quantity is false whatever the new quantity is, and the
    pre-update callback goes on: any non-zero quantity in the payload leads
    to an invocation, a restock as much as a consumption. *)
Theorem preUpdateItem_unrecorded (h : Host) (g : Runtime) (item : Item)
    (new : Z) (userId u : string) (m : Macro) :
  userId = user_id h →
  item_type item = "consumable" →
  item_quantity item = None →
  new ≠ 0%Z →
  getFlag item MODULE_ID FLAG_MACRO_UUID = Some u → u ≠ EmptyString →
  fromUuid h u = Found (DocMacro m) →
  dedup_key (item_name item) u ∉ recentlyExecuted g →
  ∃ ctx, ctx_item ctx = DocItem item
         ∧ invocations
             (settle h (NPreUpdateItem item {| change_quantity := Some new |} userId) g)
           = (invocations g ++ [(m, ctx)])%list.
Proof.
  intros -> Htype Hq Hnz Hflag Hu Hres Hfresh.
  unfold settle, handler, preUpdateItem.
  rewrite String.eqb_refl, Htype, Hq, Hflag, (truthy_str_Some u Hu).
  cbn [negb String.eqb Ascii.eqb Bool.eqb truthy_num js_ge change_quantity].
  replace (new =? 0)%Z with false by (symmetry; by apply Z.eqb_neq).
  cbn [negb run_alone]. rewrite Hres. cbn [run_alone].
  unfold shouldExecuteMacro. rewrite decide_False by (cbn; exact Hfresh).
  cbn [negb]. eexists.
  split; [|rewrite invocations_try_execute; f_equal; readers; done].
  reflexivity.
Qed.

Lemma preUpdateItem_unrecorded_witness :
  let item := {| item_id := "i5"; item_name := "Rations";
                 item_type := "consumable"; item_quantity := None;
                 item_flags := Sample.attach "Macro.heal";
                 item_parent := Some "a1" |} in
  "me" = user_id Sample.host
  ∧ item_type item = "consumable"
  ∧ item_quantity item = None
  ∧ 9%Z ≠ 0%Z
  ∧ getFlag item MODULE_ID FLAG_MACRO_UUID = Some "Macro.heal"
  ∧ "Macro.heal" ≠ EmptyString
  ∧ fromUuid Sample.host "Macro.heal" = Found (DocMacro Sample.heal)
  ∧ (dedup_key (item_name item) "Macro.heal" ∉ recentlyExecuted init)
  ∧ ∃ ctx, ctx_item ctx = DocItem item
           ∧ invocations
               (settle Sample.host
                  (NPreUpdateItem item {| change_quantity := Some 9%Z |} "me") init)
             = (invocations init ++ [(Sample.heal, ctx)])%list.
Proof.
  intros item.
  assert (H1 : "me" = user_id Sample.host) by reflexivity.
  assert (H2 : item_type item = "consumable") by reflexivity.
  assert (H3 : item_quantity item = None) by reflexivity.
  assert (H4 : 9%Z ≠ 0%Z) by discriminate.
  assert (H5 : getFlag item MODULE_ID FLAG_MACRO_UUID = Some "Macro.heal")
    by (vm_compute; reflexivity).
  assert (H6 : "Macro.heal" ≠ EmptyString) by discriminate.
  assert (H7 : fromUuid Sample.host "Macro.heal" = Found (DocMacro Sample.heal))
    by reflexivity.
  assert (H8 : dedup_key (item_name item) "Macro.heal" ∉ recentlyExecuted init)
    by apply not_elem_of_empty.
  repeat (split; [assumption|]).
  exact (preUpdateItem_unrecorded Sample.host init item 9%Z "me" "Macro.heal"
           Sample.heal H1 H2 H3 H4 H5 H6 H7 H8).
Defined.

Lemma dispatch_threw h name u missing ctx g e :
  fromUuid h u = Threw e →
  run_alone h (dispatch name u missing ctx) g
  = emit (EvUnhandledRejection e) (emit (EvFromUuid u) g).
Proof. intros Hres. cbn. by rewrite Hres. Qed.

(** A callback that passes the guards of its path ends in [dispatch]. *)
Lemma engages_plan h name u g n :
  u ≠ "" → engages h name u g n →
  ∃ g0 missing ctx,
    quiet_ext g g0
    ∧ settle h n g = run_alone h (dispatch name u missing ctx) g0.
Proof.
  intros Hu He.
  destruct n as [item change uid|item uid|item uid|item ev tg|item actor|msg uid];
    cbn [engages] in He; unfold settle, handler.
  - destruct He as (-> & Htype & (new & Hnew & Hnz & Hge) & Hflag & <-).
    unfold preUpdateItem.
    rewrite String.eqb_refl, Htype, Hnew, Hge, Hflag, (truthy_str_Some u Hu).
    cbn [negb String.eqb Ascii.eqb Bool.eqb truthy_num].
    replace (new =? 0)%Z with false by (symmetry; by apply Z.eqb_neq).
    cbn [negb]. do 3 eexists. split; [apply quiet_refl|]. reflexivity.
  - done.
  - destruct He as (st & Hst & <- & <-). unfold deleteItem. cbn [run_alone].
    rewrite Hst. cbn [run_alone]. do 3 eexists.
    split; [apply quiet_set_consumed|]. reflexivity.
  - destruct He as (Htype & Hflag & <-). unfold pf2e_useItem.
    rewrite Htype, Hflag, (truthy_str_Some u Hu).
    cbn [negb String.eqb Ascii.eqb Bool.eqb].
    do 3 eexists. split; [apply quiet_refl|]. reflexivity.
  - destruct He as (Hflag & <-). unfold pf2e_consumeItem.
    rewrite Hflag, (truthy_str_Some u Hu). cbn [negb].
    do 3 eexists. split; [apply quiet_refl|]. reflexivity.
  - destruct He as (-> & d & Hd & Htype & Hflag & <-).
    unfold createChatMessage. rewrite String.eqb_refl. cbn [negb].
    destruct (run_alone_resolve h msg (createChatMessage_dispatch h msg) g)
      as (g0 & Hq & ->).
    rewrite Hd. unfold createChatMessage_dispatch.
    rewrite Htype, Hflag, (truthy_str_Some u Hu).
    cbn [negb String.eqb Ascii.eqb Bool.eqb].
    do 3 eexists. split; [exact Hq|]. reflexivity.
Qed.

(** X12.  The look-up of the macro reference is awaited outside any [try].
    When it throws [e], the callback of every notification that passes the
    guards of its path ends there: its promise is rejected with [e], and
    nothing is invoked, admitted or shown to the user. *)
Theorem lookup_failure_escapes (h : Host) (g : Runtime) (n : Notification)
    (name u e : string) :
  u ≠ "" →
  engages h name u g n →
  fromUuid h u = Threw e →
  let g' := settle h n g in
  rejections g' = (rejections g ++ [e])%list
  ∧ invocations g' = invocations g
  ∧ notifications g' = notifications g
  ∧ admissions g' = admissions g
  ∧ recentlyExecuted g' = recentlyExecuted g.
Proof.
  intros Hu He Hres g'. subst g'.
  destruct (engages_plan h name u g n Hu He) as (g0 & missing & ctx & Hq & ->).
  rewrite (dispatch_threw h name u missing ctx g0 e Hres).
  destruct Hq as (_ & H2 & _ & H4 & H5 & H6 & H7 & _).
  split; [rewrite <- H6; readers; done|].
  split; [rewrite <- H4; readers; done|].
  split; [rewrite <- H5; readers; done|].
  split; [rewrite <- H7; readers; done|]. exact H2.
Qed.

Lemma lookup_failure_escapes_witness :
  let broken :=
    {| user_id := "me"; user_character := None;
       fromUuid := λ _, Threw "offline";
       actors_get := actors_get Sample.host; world_items := [];
       getSpeaker := Sample.narrator; getSpeakerFor := λ _, Sample.narrator;
       getSpeakerActor := speaker_actor; tokens_get := λ t, t;
       host_execute := λ _ _, None |} in
  let n := NCreateChatMessage Sample.uses_potion "me" in
  "Macro.heal" ≠ ""
  ∧ engages broken "Healing Potion" "Macro.heal" init n
  ∧ fromUuid broken "Macro.heal" = Threw "offline"
  ∧ rejections (settle broken n init) = ["offline"]
  ∧ invocations (settle broken n init) = []
  ∧ notifications (settle broken n init) = [].
Proof.
  intros broken n.
  assert (H1 : "Macro.heal" ≠ "") by discriminate.
  assert (H2 : engages broken "Healing Potion" "Macro.heal" init n).
  { split; [reflexivity|]. exists (DocItem Sample.potion).
    split; [by vm_compute|]. split; [reflexivity|].
    split; [by vm_compute|reflexivity]. }
  assert (H3 : fromUuid broken "Macro.heal" = Threw "offline") by reflexivity.
  repeat (split; [assumption|]).
  destruct (lookup_failure_escapes broken init n "Healing Potion" "Macro.heal"
              "offline" H1 H2 H3) as (Hr & Hi & Hn & _).
  split; [exact Hr|]. split; [exact Hi|exact Hn].
Defined.

(** X13.  A reference that resolves to a document which is no macro gets
    past the look-up and the suppressor on every path: nothing is invoked
    and nothing is rejected, but the key is admitted for 500 ms and the
    user is told that [macro.execute] is not a function (unless a guard or
    a live entry had stopped the callback before). *)
Theorem non_macro_document_reported (h : Host) (g : Runtime)
    (n : Notification) :
  (∀ u, macro_ref h g n = Some u → ∃ i, fromUuid h u = Found (DocItem i)) →
  let g' := settle h n g in
  invocations g' = invocations g
  ∧ rejections g' = rejections g
  ∧ ((notifications g' = notifications g ∧ admissions g' = admissions g)
     ∨ ∃ key,
         notifications g'
         = (notifications g
              ++ ["Failed to execute macro: macro.execute is not a function"])%list
         ∧ admissions g' = (admissions g ++ [(now g, key)])%list
         ∧ key ∈ recentlyExecuted g').
Proof.
  intros Href g'. subst g'.
  destruct (handler_plan h n g)
    as [Hq|(g0 & name & u & missing & ctx & Hq & Hu & Hm & ->)].
  - destruct Hq as (_ & _ & _ & H4 & H5 & H6 & H7 & _).
    split; [done|]. split; [done|]. by left.
  - destruct (Href u Hu) as [i Hres].
    destruct Hq as (H1 & H2 & _ & H4 & H5 & H6 & H7 & _).
    destruct (decide (dedup_key name u ∈ recentlyExecuted g0)) as [Hlive|Hfresh].
    + destruct (dispatch_live h name u missing ctx g0 _ Hres Hlive)
        as (_ & _ & _ & K4 & K5 & K6 & K7 & _).
      split; [congruence|]. split; [congruence|]. left. split; congruence.
    + rewrite (dispatch_fresh h name u missing ctx g0 _ Hres Hfresh).
      unfold shouldExecuteMacro. rewrite decide_False by (cbn; exact Hfresh).
      split; [rewrite <- H4; readers; done|].
      split; [rewrite <- H6; readers; done|].
      right. exists (dedup_key name u).
      split; [rewrite <- H5; readers; done|].
      split; [rewrite <- H7, <- H1; readers; done|].
      change (dedup_key name u ∈ {[dedup_key name u]} ∪ recentlyExecuted g0).
      apply elem_of_union. left. by apply elem_of_singleton.
Qed.

Lemma non_macro_document_reported_witness :
  let mixed :=
    {| user_id := "me"; user_character := None;
       fromUuid := λ _, Found (DocItem Sample.potion);
       actors_get := λ _, None; world_items := [];
       getSpeaker := Sample.narrator; getSpeakerFor := λ _, Sample.narrator;
       getSpeakerActor := speaker_actor; tokens_get := λ t, t;
       host_execute := λ _ _, None |} in
  let n := NConsumeItem Sample.potion Sample.hero in
  (∀ u, macro_ref mixed init n = Some u →
     ∃ i, fromUuid mixed u = Found (DocItem i))
  ∧ invocations (settle mixed n init) = []
  ∧ notifications (settle mixed n init)
    = ["Failed to execute macro: macro.execute is not a function"].
Proof.
  intros mixed n.
  assert (H : ∀ u, macro_ref mixed init n = Some u →
                ∃ i, fromUuid mixed u = Found (DocItem i))
    by (intros u _; by exists Sample.potion).
  split; [exact H|].
  destruct (non_macro_document_reported mixed init n H) as (Hi & _ & _).
  split; [exact Hi|]. reflexivity.
Defined.




(** ** The two tables over time *)

(** X15.  The suppressor does not leak: in every state the event loop
    reaches, the set holds as many keys as there are timers pending, and
    once 500 ms pass in one stretch the set is empty and no timer is left. *)
Theorem suppressor_drains (h : Host) (sch : list Action) (dt : nat) :
  500 ≤ dt →
  let s := run h start sch in
  let g' := rt (step h s (Advance dt)) in
  size (recentlyExecuted (rt s)) = length (timers (rt s))
  ∧ recentlyExecuted g' = ∅
  ∧ timers g' = [].
Proof.
  intros Hdt s g'.
  assert (Hwf : wf (rt s)) by (apply wf_run, wf_init).
  assert (Hwf' : wf g') by (by apply wf_step).
  split; [|].
  - destruct Hwf as (Hnd & Hset & _).
    assert (Heq : recentlyExecuted (rt s) = list_to_set (timers (rt s)).*2).
    { apply set_eq. intros k. rewrite Hset, elem_of_list_to_set. done. }
    rewrite Heq, size_list_to_set by exact Hnd. by rewrite length_fmap.
  - assert (Ht : timers g' = []).
    { subst g'. cbn. destruct Hwf as (_ & _ & Hdue). revert Hdue.
      generalize (now (rt s)). induction (timers (rt s)) as [|x l IH];
        intros t Hdue; [done|].
      rewrite filter_cons, decide_False.
      - apply IH. intros y Hy. apply Hdue. by right.
      - specialize (Hdue x (list_elem_of_here _ _)). lia. }
    split; [|exact Ht].
    destruct Hwf' as (_ & Hset & _). apply set_eq. intros k.
    rewrite Hset, Ht. cbn. rewrite elem_of_empty. split; [|done].
    intros Hk. by apply not_elem_of_nil in Hk.
Qed.

Lemma suppressor_drains_witness :
  let sch := [Deliver (NUseItem Sample.potion "ev" "tg"); Resume 0; Resume 0;
              Advance 100] in
  500 ≤ 500
  ∧ size (recentlyExecuted (rt (run Sample.host start sch))) = 1
  ∧ recentlyExecuted (rt (step Sample.host (run Sample.host start sch)
                            (Advance 500))) = ∅.
Proof.
  intros sch.
  assert (H : 500 ≤ 500) by lia.
  split; [exact H|].
  destruct (suppressor_drains Sample.host sch 500 H) as (Hsize & Hempty & _).
  split; [|exact Hempty]. rewrite Hsize. reflexivity.
Defined.

(** *** Who writes to the pending table *)

Lemma consumedItems_shouldExecuteMacro name u g :
  consumedItems (shouldExecuteMacro name u g).2 = consumedItems g.
Proof.
  unfold shouldExecuteMacro.
  by destruct (decide (dedup_key name u ∈ recentlyExecuted g)).
Qed.

Lemma free_run_sync p : ∀ g,
  table_free p →
  consumedItems (run_sync p g).1 = consumedItems g
  ∧ from_option free_task True (run_sync p g).2.
Proof.
  induction p as [|msg|name uuid k IH|id v k IH|id k IH|id k IH|o k IH
                 |uuid k|macro ctx k]; intros g Hf; cbn in *; try done.
  - pose proof (consumedItems_shouldExecuteMacro name uuid g) as Hc.
    destruct (shouldExecuteMacro name uuid g) as [b g']. cbn in Hc.
    rewrite <- Hc. apply IH, Hf.
  - apply IH, Hf.
  - apply (IH (emit (EvOutput o) g)), Hf.
Qed.

Lemma free_resume h t g :
  free_task t →
  consumedItems (resume h t g).1 = consumedItems g
  ∧ from_option free_task True (resume h t g).2.
Proof. destruct t; intros Hf; cbn; apply free_run_sync, Hf. Qed.

Lemma catch_execute_free name err : table_free (catch_execute name err).
Proof. by destruct err. Qed.

Lemma try_execute_free d ctx name : table_free (try_execute d ctx name).
Proof. destruct d; cbn; [done|]. by intros [[| |msg]|]. Qed.

Lemma byName_free h message actor k :
  (∀ d, table_free (k d)) → table_free (createChatMessage_byName h message actor k).
Proof.
  intros Hk. unfold createChatMessage_byName.
  destruct (negb (truthy_str (extract_item_name message))); [apply Hk|].
  destruct (extract_item_name message) as [itemName|]; [|apply Hk].
  destruct (find_consumable itemName (actor_items actor)); [apply Hk|].
  destruct (find_consumable itemName (world_items h)); [apply Hk|].
  destruct (msg_origin_sourceId message) as [sourceId|]; [|apply Hk].
  destruct (truthy_str (Some sourceId)); [|apply Hk].
  intros [d| |e]; [|apply Hk|apply Hk].
  destruct (String.eqb (doc_name d) itemName); apply Hk.
Qed.

Lemma parse_free h message originUuid k :
  (∀ d, table_free (k d)) → table_free (createChatMessage_parse h message originUuid k).
Proof.
  intros Hk. unfold createChatMessage_parse.
  destruct (_ && _); [|apply Hk].
  destruct (split_dot originUuid !! 1) as [actorId|]; [|apply Hk].
  destruct (actors_get h actorId) as [actor|]; [|apply Hk].
  destruct (items_get actor _); [apply Hk|]. by apply byName_free.
Qed.

Lemma try_fromUuid_free uuid what k :
  (∀ d, table_free (k d)) → table_free (try_fromUuid uuid what k).
Proof. intros Hk [d| |e]; apply Hk. Qed.

Lemma resolve_free h message k :
  (∀ d, table_free (k d)) → table_free (createChatMessage_resolve h message k).
Proof.
  intros Hk.
  assert (Hfrom : ∀ item,
    table_free
      match item, msg_origin_uuid message with
      | None, Some originUuid =>
          if truthy_str (Some originUuid) then
            try_fromUuid originUuid "origin" (λ item,
              match item with
              | Some d => k (Some d)
              | None => createChatMessage_parse h message originUuid k
              end)
          else k item
      | _, _ => k item
      end).
  { intros [d|]; [apply Hk|].
    destruct (msg_origin_uuid message) as [originUuid|]; [|apply Hk].
    destruct (truthy_str (Some originUuid)); [|apply Hk].
    apply try_fromUuid_free. intros [d|]; [apply Hk|]. by apply parse_free. }
  unfold createChatMessage_resolve.
  destruct (msg_item message) as [i|]; cbn [fmap option_fmap option_map].
  - apply (Hfrom (Some (DocItem i))).
  - destruct (msg_context_item message) as [itemUuid|]; [|apply (Hfrom None)].
    destruct (truthy_str (Some itemUuid)); [|apply (Hfrom None)].
    apply try_fromUuid_free. exact Hfrom.
Qed.

Lemma chat_dispatch_free h message d :
  table_free (createChatMessage_dispatch h message d).
Proof.
  destruct d as [d|]; [|done]. unfold createChatMessage_dispatch.
  destruct (negb (String.eqb (doc_type d) "consumable")); [done|].
  destruct (negb (truthy_str _)); [done|].
  destruct (doc_getFlag d MODULE_ID FLAG_MACRO_UUID) as [u|]; [|done].
  intros [macro| |e]; [|done|done]. intros [|]; [|done].
  apply try_execute_free.
Qed.

Lemma handler_free h n : deleted_id n = None → table_free (handler h n).
Proof.
  destruct n as [item change uid|item uid|item uid|item ev tg|item actor|msg uid];
    cbn [deleted_id handler]; try discriminate; intros _.
  - unfold preUpdateItem.
    destruct (negb (String.eqb uid (user_id h))); [done|].
    destruct (negb (String.eqb (item_type item) "consumable")); [done|].
    destruct (negb (truthy_num (change_quantity change))); [done|].
    destruct (change_quantity change) as [new|]; [|done].
    destruct (js_ge new (item_quantity item)); [done|].
    destruct (negb (truthy_str _)); [done|].
    destruct (getFlag item MODULE_ID FLAG_MACRO_UUID) as [u|]; [|done].
    intros [macro| |e]; [|done|done]. intros [|]; [|done].
    apply try_execute_free.
  - unfold pf2e_useItem.
    destruct (negb (String.eqb (item_type item) "consumable")); [done|].
    destruct (negb (truthy_str _)); [done|].
    destruct (getFlag item MODULE_ID FLAG_MACRO_UUID) as [u|]; [|done].
    intros [macro| |e]; [|done|done]. intros [|]; [|done].
    apply try_execute_free.
  - unfold pf2e_consumeItem.
    destruct (negb (truthy_str _)); [done|].
    destruct (getFlag item MODULE_ID FLAG_MACRO_UUID) as [u|]; [|done].
    intros [macro| |e]; [|done|done]. intros [|]; [|done].
    apply try_execute_free.
  - unfold createChatMessage.
    destruct (negb (String.eqb uid (user_id h))); [done|].
    apply resolve_free. apply chat_dispatch_free.
Qed.

(** The two callbacks of the delete path write to the entry of their own
    item, before their first [await], and to no other. *)
Lemma delete_run_sync h n g id :
  deleted_id n ≠ Some id →
  consumedItems (run_sync (handler h n) g).1 !! id = consumedItems g !! id.
Proof.
  destruct (deleted_id n) as [id'|] eqn:Hd.
  - destruct n as [item change uid|item uid|item uid|item ev tg|item actor|msg uid];
      cbn [deleted_id] in Hd; try discriminate; injection Hd as <-;
      intros Hid; assert (Hne : item_id item ≠ id) by congruence;
      cbn [handler].
    + unfold preDeleteItem.
      destruct (negb (String.eqb uid (user_id h))); [done|].
      destruct (negb (String.eqb (item_type item) "consumable")); [done|].
      destruct (negb (truthy_str _)); [done|].
      destruct (getFlag item MODULE_ID FLAG_MACRO_UUID) as [u|]; [|done].
      cbn. by apply lookup_insert_ne.
    + unfold deleteItem. cbn [run_sync].
      destruct (consumedItems g !! item_id item) as [stored|]; [|done].
      cbn. by apply lookup_delete_ne.
  - intros _.
    destruct (free_run_sync (handler h n) g (handler_free h n Hd)) as [Hc _].
    by rewrite Hc.
Qed.

(** Whatever is handed over, what the callback leaves suspended writes to
    the table no more. *)
Lemma handler_task_free h n g :
  from_option free_task True (run_sync (handler h n) g).2.
Proof.
  destruct (deleted_id n) as [id'|] eqn:Hd.
  - destruct n as [item change uid|item uid|item uid|item ev tg|item actor|msg uid];
      cbn [deleted_id] in Hd; try discriminate; cbn [handler].
    + unfold preDeleteItem.
      destruct (negb (String.eqb uid (user_id h))); [done|].
      destruct (negb (String.eqb (item_type item) "consumable")); [done|].
      destruct (negb (truthy_str _)); [done|].
      by destruct (getFlag item MODULE_ID FLAG_MACRO_UUID) as [u|].
    + unfold deleteItem. cbn [run_sync].
      destruct (consumedItems g !! item_id item) as [stored|]; [|done].
      cbn. intros [macro| |e]; [|done|done]. intros [|]; [|done].
      apply try_execute_free.
  - by destruct (free_run_sync (handler h n) g (handler_free h n Hd)).
Qed.

Lemma free_pool_step h s a :
  Forall free_task (pool s) → Forall free_task (pool (step h s a)).
Proof.
  intros Hpool. destruct a as [n|i|dt]; cbn [step].
  - pose proof (handler_task_free h n (rt s)) as Ht.
    destruct (run_sync (handler h n) (rt s)) as [g t]. cbn in *.
    apply Forall_app. split; [exact Hpool|].
    destruct t; cbn; [by apply Forall_singleton|apply Forall_nil_2].
  - destruct (pool s !! i) as [t|] eqn:Hi; [|done].
    assert (Hf : free_task t)
      by (eapply Forall_lookup_1; [exact Hpool|exact Hi]).
    destruct (free_resume h t (rt s) Hf) as [_ Ht].
    destruct (resume h t (rt s)) as [g t']. cbn in *.
    apply Forall_app. split; [by apply Forall_take|].
    apply Forall_app. split; [|by apply Forall_drop].
    destruct t'; cbn; [by apply Forall_singleton|apply Forall_nil_2].
  - done.
Qed.

Lemma free_pool_run h sch : ∀ s,
  Forall free_task (pool s) → Forall free_task (pool (run h s sch)).
Proof.
  induction sch as [|a sch IH]; intros s Hpool; [done|].
  rewrite run_cons. by apply IH, free_pool_step.
Qed.

Lemma persists_step h s a id :
  Forall free_task (pool s) →
  (∀ n, a = Deliver n → deleted_id n ≠ Some id) →
  consumedItems (rt (step h s a)) !! id = consumedItems (rt s) !! id.
Proof.
  intros Hpool Ha. destruct a as [n|i|dt]; cbn [step].
  - pose proof (delete_run_sync h n (rt s) id (Ha n eq_refl)) as Hc.
    by destruct (run_sync (handler h n) (rt s)) as [g t].
  - destruct (pool s !! i) as [t|] eqn:Hi; [|done].
    assert (Hf : free_task t)
      by (eapply Forall_lookup_1; [exact Hpool|exact Hi]).
    destruct (free_resume h t (rt s) Hf) as [Hc _].
    destruct (resume h t (rt s)) as [g t']. cbn in *. by rewrite Hc.
  - done.
Qed.

Lemma persists_run h sch id : ∀ s,
  Forall free_task (pool s) →
  (∀ n, Deliver n ∈ sch → deleted_id n ≠ Some id) →
  consumedItems (rt (run h s sch)) !! id = consumedItems (rt s) !! id.
Proof.
  induction sch as [|a sch IH]; intros s Hpool Hsch; [done|].
  rewrite run_cons, IH.
  - apply persists_step; [exact Hpool|]. intros n ->. apply Hsch. by left.
  - by apply free_pool_step.
  - intros n Hn. apply Hsch. by right.
Qed.

(** X16.  Unlike the suppressor, the pending table has no timer: from any
    state the event loop reaches, the entry of an item stays as it is,
    or stays absent, however much time passes and whatever other
    notifications are handled, as long as no pre-delete or post-delete
    notification for that item's identifier is handed over. *)
Theorem pending_entry_persists (h : Host) (sch0 sch : list Action)
    (id : string) :
  (∀ n, Deliver n ∈ sch → deleted_id n ≠ Some id) →
  consumedItems (rt (run h (run h start sch0) sch)) !! id
  = consumedItems (rt (run h start sch0)) !! id.
Proof.
  intros Hsch. apply persists_run; [|exact Hsch].
  apply free_pool_run, Forall_nil_2.
Qed.

Lemma pending_entry_persists_witness :
  let sch0 := [Deliver (NPreDeleteItem Sample.potion "me")] in
  let sch := [Advance 3000; Deliver (NUseItem Sample.potion "ev" "tg");
              Resume 0; Resume 0; Advance 3000] in
  (∀ n, Deliver n ∈ sch → deleted_id n ≠ Some "i1")
  ∧ st_macroUuid
      <$> consumedItems (rt (run Sample.host (run Sample.host start sch0) sch))
          !! "i1"
    = Some "Macro.heal".
Proof.
  intros sch0 sch.
  assert (H : ∀ n, Deliver n ∈ sch → deleted_id n ≠ Some "i1").
  { intros n Hn. subst sch.
    repeat (apply elem_of_cons in Hn as [Hn|Hn];
            [try discriminate; injection Hn as ->; discriminate|]).
    by apply not_elem_of_nil in Hn. }
  split; [exact H|].
  rewrite (pending_entry_persists Sample.host sch0 sch "i1" H). reflexivity.
Defined.

(** ** The item sheet *)

Lemma getFlag_setFlag i s k v s' k' :
  getFlag (setFlag i s k v) s' k'
  = if decide (s = s' ∧ k = k') then Some v else getFlag i s' k'.
Proof.
  unfold getFlag, setFlag. cbn [item_flags]. rewrite lookup_insert.
  destruct (decide (s = s')) as [<-|Hs].
  - cbn. rewrite lookup_insert. destruct (decide (k = k')) as [<-|Hk].
    + by rewrite decide_True.
    + rewrite decide_False by (intros [_ ?]; done).
      destruct (item_flags i !! s); [done|]. cbn. apply lookup_empty.
  - by rewrite decide_False by (intros [? _]; done).
Qed.

Lemma getFlag_unsetFlag i s k s' k' :
  getFlag (unsetFlag i s k) s' k'
  = if decide (s = s' ∧ k = k') then None else getFlag i s' k'.
Proof.
  unfold getFlag, unsetFlag. cbn [item_flags].
  destruct (item_flags i !! s) as [area|] eqn:Harea.
  - rewrite lookup_insert. destruct (decide (s = s')) as [<-|Hs].
    + cbn. rewrite Harea, lookup_delete. cbn.
      destruct (decide (k = k')) as [<-|Hk].
      * by rewrite decide_True.
      * by rewrite decide_False by (intros [_ ?]; done).
    + by rewrite decide_False by (intros [? _]; done).
  - destruct (decide (s = s' ∧ k = k')) as [[<- _]|]; [|done].
    by rewrite Harea.
Qed.

Lemma getFlag_other i i' :
  (∀ s k, getFlag i' s k
          = if decide (MODULE_ID = s ∧ FLAG_MACRO_UUID = k) then getFlag i' s k
            else getFlag i s k) →
  ∀ s k, (s, k) ≠ (MODULE_ID, FLAG_MACRO_UUID) → getFlag i' s k = getFlag i s k.
Proof.
  intros H s k Hne. rewrite H. apply decide_False. intros [<- <-]. done.
Qed.

(** X17.  Dragging a macro onto the sheet of a consumable and then using
    the item runs that macro: the drop stores the locator of the document
    the dragged locator resolved to, the sheet drawn again shows that
    macro, and a use of the item, as it is after the drop, invokes it, with
    the item in the context. *)
Theorem attach_then_use (h : Host) (item_uuid : Item → string) (item : Item)
    (uuid ev tg : string) (m : Macro) (g : Runtime) :
  fromUuid h uuid = Found (DocMacro m) →
  fromUuid h (macro_uuid m) = Found (DocMacro m) →
  macro_uuid m ≠ EmptyString →
  item_type item = "consumable" →
  dedup_key (item_name item) (macro_uuid m) ∉ recentlyExecuted g →
  let item' :=
    (sheet_drop h item_uuid None item (Dragged (Some "Macro") uuid)).1 in
  getFlag item' MODULE_ID FLAG_MACRO_UUID = Some (macro_uuid m)
  ∧ (renderItemSheet h item' true).2 = Some (MacroContent (DocMacro m))
  ∧ ∃ ctx, ctx_item ctx = DocItem item'
           ∧ invocations (settle h (NUseItem item' ev tg) g)
             = (invocations g ++ [(m, ctx)])%list.
Proof.
  intros Hdrag Hres Hu Htype Hfresh item'.
  assert (Hitem : item' = setFlag item MODULE_ID FLAG_MACRO_UUID (macro_uuid m)).
  { subst item'. unfold sheet_drop. rewrite bool_decide_true by done.
    cbn [negb]. by rewrite Hdrag. }
  assert (Hflag : getFlag item' MODULE_ID FLAG_MACRO_UUID = Some (macro_uuid m)).
  { rewrite Hitem, getFlag_setFlag. by rewrite decide_True. }
  assert (Htype' : item_type item' = "consumable") by (by rewrite Hitem).
  assert (Hname : item_name item' = item_name item) by (by rewrite Hitem).
  clearbody item'.
  split; [exact Hflag|]. split.
  - unfold renderItemSheet.
    rewrite Htype', Hflag, (truthy_str_Some _ Hu), Hres. reflexivity.
  - unfold settle, handler, pf2e_useItem.
    rewrite Htype', Hflag, (truthy_str_Some _ Hu).
    cbn [negb String.eqb Ascii.eqb Bool.eqb run_alone]. rewrite Hres.
    cbn [run_alone]. unfold shouldExecuteMacro.
    rewrite decide_False by (rewrite Hname; exact Hfresh). cbn [negb].
    eexists. split; [|rewrite invocations_try_execute; f_equal; readers; done].
    reflexivity.
Qed.

Lemma attach_then_use_witness :
  let bare := {| item_id := "i6"; item_name := "Elixir";
                 item_type := "consumable"; item_quantity := Some 1%Z;
                 item_flags := ∅; item_parent := Some "a1" |} in
  let item' :=
    (sheet_drop Sample.host item_id None bare
       (Dragged (Some "Macro") "Macro.heal")).1 in
  fromUuid Sample.host "Macro.heal" = Found (DocMacro Sample.heal)
  ∧ fromUuid Sample.host (macro_uuid Sample.heal) = Found (DocMacro Sample.heal)
  ∧ macro_uuid Sample.heal ≠ EmptyString
  ∧ item_type bare = "consumable"
  ∧ (dedup_key (item_name bare) (macro_uuid Sample.heal) ∉ recentlyExecuted init)
  ∧ getFlag item' MODULE_ID FLAG_MACRO_UUID = Some "Macro.heal"
  ∧ (renderItemSheet Sample.host item' true).2
    = Some (MacroContent (DocMacro Sample.heal))
  ∧ ∃ ctx, ctx_item ctx = DocItem item'
           ∧ invocations (settle Sample.host (NUseItem item' "ev" "tg") init)
             = (invocations init ++ [(Sample.heal, ctx)])%list.
Proof.
  intros bare item'.
  assert (H1 : fromUuid Sample.host "Macro.heal" = Found (DocMacro Sample.heal))
    by reflexivity.
  assert (H2 : fromUuid Sample.host (macro_uuid Sample.heal)
               = Found (DocMacro Sample.heal)) by reflexivity.
  assert (H3 : macro_uuid Sample.heal ≠ EmptyString) by discriminate.
  assert (H4 : item_type bare = "consumable") by reflexivity.
  assert (H5 : dedup_key (item_name bare) (macro_uuid Sample.heal)
               ∉ recentlyExecuted init) by apply not_elem_of_empty.
  repeat (split; [assumption|]).
  exact (attach_then_use Sample.host item_id bare "Macro.heal" "ev" "tg"
           Sample.heal init H1 H2 H3 H4 H5).
Defined.

(** X18.  A drop attaches all or nothing.  Either the item is left as it
    was and the user is not told of a change, nor is the sheet drawn again;
    or the dragged data said [Macro], its locator resolved, the update went
    through, the macro flag now reads the resolved document's locator, every
    other flag reads as before, and the sheet is drawn again in full. *)
Theorem drop_all_or_nothing (h : Host) (item_uuid : Item → string)
    (update : Updated) (item : Item) (data : DragData) :
  let r := sheet_drop h item_uuid update item data in
  (r.1 = item ∧ Forall (λ c, told c = false) r.2)
  ∨ (∃ u d, data = Dragged (Some "Macro") u
            ∧ fromUuid h u = Found d
            ∧ update = None
            ∧ getFlag r.1 MODULE_ID FLAG_MACRO_UUID = Some (doc_uuid item_uuid d)
            ∧ (∀ s k, (s, k) ≠ (MODULE_ID, FLAG_MACRO_UUID) →
                 getFlag r.1 s k = getFlag item s k)
            ∧ UiRender true ∈ r.2).
Proof.
  intros r. subst r. unfold sheet_drop.
  destruct data as [| |type u].
  - left. split; [done|]. constructor.
  - left. split; [done|]. by repeat constructor.
  - destruct (bool_decide_reflect (type = Some "Macro")) as [->|Hne]; cbn [negb].
    + destruct (fromUuid h u) as [d| |e] eqn:Hres.
      * destruct update as [e|].
        -- left. split; [done|]. by repeat constructor.
        -- right. exists u, d. split; [done|]. split; [done|]. split; [done|].
           cbn [fst snd]. split.
           ++ rewrite getFlag_setFlag. by rewrite decide_True.
           ++ split.
              ** intros s k Hne. rewrite getFlag_setFlag. apply decide_False.
                 intros [<- <-]. done.
              ** do 3 apply list_elem_of_further. apply list_elem_of_here.
      * left. split; [done|]. by repeat constructor.
      * left. split; [done|]. by repeat constructor.
    + left. split; [done|]. constructor.
Qed.

(** X19.  The remove button undoes the attachment: once its update has
    gone through the macro flag reads absent and every other flag reads as
    before, the sheet of a consumable shows the invitation to drag a macro
    in, and the pre-update, pre-delete, use and consume callbacks leave the
    item alone. *)
Theorem remove_then_ignored (h : Host) (item : Item) :
  let item' := (sheet_remove None item).1 in
  getFlag item' MODULE_ID FLAG_MACRO_UUID = None
  ∧ (∀ s k, (s, k) ≠ (MODULE_ID, FLAG_MACRO_UUID) →
       getFlag item' s k = getFlag item s k)
  ∧ (item_type item = "consumable" →
       (renderItemSheet h item' true).2 = Some MacroPlaceholder)
  ∧ (∀ n g, notification_item n = Some item' →
       run_sync (handler h n) g = (g, None)).
Proof.
  intros item'. subst item'. cbn [sheet_remove fst].
  assert (Hflag : getFlag (unsetFlag item MODULE_ID FLAG_MACRO_UUID)
                    MODULE_ID FLAG_MACRO_UUID = None)
    by (rewrite getFlag_unsetFlag; by rewrite decide_True).
  split; [exact Hflag|]. split; [|split].
  - intros s k Hne. rewrite getFlag_unsetFlag. apply decide_False.
    intros [<- <-]. done.
  - intros Htype. unfold renderItemSheet. rewrite Hflag.
    change (item_type (unsetFlag item MODULE_ID FLAG_MACRO_UUID))
      with (item_type item). by rewrite Htype.
  - intros n g Hn. apply (unflagged_run_sync h g n _ Hn). by rewrite Hflag.
Qed.

(** X20.  What the sheet shows.  The section holds the macro exactly when
    the item is a consumable, the page has a details tab, the flag is set
    and its locator resolves; no section is added exactly when the item is
    no consumable or the page has no details tab; and the callback never
    ends in a rejection, also when the look-up throws. *)
Theorem sheet_shows_resolved_macro (h : Host) (item : Item) (detailsTab : bool) :
  let r := renderItemSheet h item detailsTab in
  (∀ d, r.2 = Some (MacroContent d)
        ↔ item_type item = "consumable" ∧ detailsTab = true
          ∧ ∃ u, getFlag item MODULE_ID FLAG_MACRO_UUID = Some u
                 ∧ u ≠ EmptyString ∧ fromUuid h u = Found d)
  ∧ (r.2 = None ↔ item_type item ≠ "consumable" ∨ detailsTab = false)
  ∧ Forall (λ c, match c with UiRejection _ => False | _ => True end) r.1.
Proof.
  intros r. subst r. unfold renderItemSheet.
  destruct (String.eqb_spec (item_type item) "consumable") as [Htype|Htype];
    cbn [negb].
  2:{ split; [|split].
      - intros d. split; [done|]. by intros [? _].
      - split; [by left|done].
      - constructor. }
  destruct (getFlag item MODULE_ID FLAG_MACRO_UUID) as [u|].
  2:{ destruct detailsTab; cbn [negb fst snd app]; (split; [|split]).
      - intros d. split; [done|]. by intros (_ & _ & u & ? & _).
      - split; [done|]. by intros [?|?].
      - constructor.
      - intros d. split; [done|]. by intros (_ & ? & _).
      - split; [by right|done].
      - by repeat constructor. }
  change (truthy_str (Some u)) with (negb (String.eqb u "")).
  destruct (String.eqb_spec u "") as [->|Hu]; cbn [negb].
  { destruct detailsTab; cbn [negb fst snd app]; (split; [|split]).
    - intros d. split; [done|].
      intros (_ & _ & u & Heq & Hne & _). congruence.
    - split; [done|]. by intros [?|?].
    - constructor.
    - intros d. split; [done|]. by intros (_ & ? & _).
    - split; [by right|done].
    - by repeat constructor. }
  destruct (fromUuid h u) as [d0| |e] eqn:Hres;
    destruct detailsTab; cbn [negb fst snd app]; (split; [|split]);
    try (by repeat constructor);
    try (split; [done|by intros [?|?]]);
    try (split; [by right|done]);
    try (intros d; split; [done|by intros (_ & ? & _)]).
  - intros d. split.
    + intros [= <-]. split; [done|]. split; [done|]. by exists u.
    + intros (_ & _ & u' & [= <-] & _ & Hd). congruence.
  - intros d. split; [done|]. intros (_ & _ & u' & [= <-] & _ & Hd). congruence.
  - intros d. split; [done|]. intros (_ & _ & u' & [= <-] & _ & Hd). congruence.
Qed.

(** X21.  An attachment made by the earlier version of the script is not
    seen by this one: the earlier drop handler wrote the macro's identifier
    under the key [macroId], which no callback of this script reads.  An
    item that carries only such an attachment is left alone on the
    pre-update, pre-delete, use and consume paths, and its sheet invites
    to drag a macro in. *)
Theorem legacy_attachment_ignored (h : Host) (doc_id : Doc → string)
    (item : Item) (uuid : string) (d : Doc) :
  fromUuid h uuid = Found d →
  truthy_str (getFlag item MODULE_ID FLAG_MACRO_UUID) = false →
  let item' :=
    (legacy_drop h doc_id None item (Dragged (Some "Macro") uuid)).1 in
  getFlag item' MODULE_ID FLAG_MACRO_ID = Some (doc_id d)
  ∧ (∀ n g, notification_item n = Some item' →
       run_sync (handler h n) g = (g, None))
  ∧ (item_type item = "consumable" →
       (renderItemSheet h item' true).2 = Some MacroPlaceholder).
Proof.
  intros Hres Hflag item'.
  assert (Hitem : item' = setFlag item MODULE_ID FLAG_MACRO_ID (doc_id d)).
  { subst item'. unfold legacy_drop. rewrite bool_decide_true by done.
    cbn [negb]. by rewrite Hres. }
  assert (Hsame : getFlag item' MODULE_ID FLAG_MACRO_UUID
                  = getFlag item MODULE_ID FLAG_MACRO_UUID).
  { rewrite Hitem, getFlag_setFlag. apply decide_False. intros [_ ?]. done. }
  assert (Htype : item_type item' = item_type item) by (by rewrite Hitem).
  split; [|split].
  - rewrite Hitem, getFlag_setFlag. by rewrite decide_True.
  - intros n g Hn. apply (unflagged_run_sync h g n _ Hn). by rewrite Hsame.
  - intros Hc. unfold renderItemSheet. rewrite Htype, Hc, Hsame.
    cbn [negb String.eqb Ascii.eqb Bool.eqb].
    destruct (getFlag item MODULE_ID FLAG_MACRO_UUID) as [u|]; [|done].
    by rewrite Hflag.
Qed.

Lemma legacy_attachment_ignored_witness :
  let bare := {| item_id := "i7"; item_name := "Antidote";
                 item_type := "consumable"; item_quantity := Some 1%Z;
                 item_flags := ∅; item_parent := Some "a1" |} in
  let item' :=
    (legacy_drop Sample.host doc_name None bare
       (Dragged (Some "Macro") "Macro.heal")).1 in
  fromUuid Sample.host "Macro.heal" = Found (DocMacro Sample.heal)
  ∧ truthy_str (getFlag bare MODULE_ID FLAG_MACRO_UUID) = false
  ∧ getFlag item' MODULE_ID FLAG_MACRO_ID = Some "Heal"
  ∧ run_sync (handler Sample.host (NUseItem item' "ev" "tg")) init = (init, None).
Proof.
  intros bare item'.
  assert (H1 : fromUuid Sample.host "Macro.heal" = Found (DocMacro Sample.heal))
    by reflexivity.
  assert (H2 : truthy_str (getFlag bare MODULE_ID FLAG_MACRO_UUID) = false)
    by (vm_compute; reflexivity).
  split; [exact H1|]. split; [exact H2|].
  destruct (legacy_attachment_ignored Sample.host doc_name bare "Macro.heal"
              (DocMacro Sample.heal) H1 H2) as (Hf & Hn & _).
  split; [exact Hf|]. apply Hn. reflexivity.
Defined.

(** ** The name taken from a chat message *)

Lemma first_match_Some {A} (f : string → option A) s a :
  first_match f s = Some a → ∃ s', f s' = Some a.
Proof.
  induction s as [|c s IH]; cbn [first_match].
  - destruct (f EmptyString) eqn:E; [|done]. intros [= <-]. by eexists.
  - destruct (f (String c s)) eqn:E; [intros [= <-]; by eexists|]. exact IH.
Qed.

Lemma flavor_at_nonempty s n : flavor_at s = Some n → n ≠ EmptyString.
Proof.
  unfold flavor_at. intros H.
  destruct (strip_prefix false _ s) as [r0|]; [|done]. cbn in H.
  destruct (split_at dquote r0) as [[a r1]|]; [|done]. cbn in H.
  destruct (split_at ">" r1) as [[b r2]|]; [|done]. cbn in H.
  destruct (split_at "<" r2) as [[name r3]|]; [|done]. cbn in H.
  destruct (String.eqb_spec name EmptyString); [done|]. congruence.
Qed.

Lemma item_name_at_nonempty s n : item_name_at s = Some n → n ≠ EmptyString.
Proof.
  unfold item_name_at. intros H.
  destruct (strip_prefix false _ s) as [r0|]; [|done]. cbn in H.
  destruct (split_at dquote r0) as [[name r1]|]; [|done]. cbn in H.
  destruct (String.eqb_spec name EmptyString); [done|]. congruence.
Qed.

(** A byte that matches a letter of the word, in either case, is a piece
    of its own. *)
Lemma letter_piece (l a : ascii) r :
  l = "U"%char ∨ l = "s"%char ∨ l = "e"%char →
  Ascii.eqb (lower l) (lower a) = true →
  next_piece (String a r) = Some (Other a, r).
Proof.
  intros Hl Hm.
  assert (Ha : space1 a = false
               ∧ byte_in 194 194 a = false
               ∧ byte_in 225 225 a = false ∧ byte_in 226 226 a = false
               ∧ byte_in 227 227 a = false ∧ byte_in 239 239 a = false).
  { destruct Hl as [-> | [-> | ->]];
      destruct a as [b0 b1 b2 b3 b4 b5 b6 b7];
      destruct b0, b1, b2, b3, b4, b5, b6, b7; try discriminate Hm;
      by vm_compute. }
  destruct Ha as (H1 & H2 & H3 & H4 & H5 & H6).
  cbn [next_piece]. rewrite H1. destruct r as [|b [|c r]]; [done| |].
  - unfold space2. by rewrite H2.
  - unfold space2, space3. by rewrite H2, H3, H4, H5, H6.
Qed.

Lemma strip_prefix_uses_pieces s rest :
  strip_prefix true "Uses" s = Some rest →
  ∃ l, pieces s = (l ++ pieces rest)%list
       ∧ forallb (λ p, negb (is_space p)) l = true.
Proof.
  destruct s as [|c1 [|c2 [|c3 [|c4 r]]]]; cbn [strip_prefix]; try done.
  - by destruct (Ascii.eqb _ _).
  - destruct (Ascii.eqb _ _); [|done]. by destruct (Ascii.eqb _ _).
  - destruct (Ascii.eqb _ _); [|done]. destruct (Ascii.eqb _ _); [|done].
    by destruct (Ascii.eqb _ _).
  - destruct (Ascii.eqb (lower "U") (lower c1)) eqn:E1; [|done].
    destruct (Ascii.eqb (lower "s") (lower c2)) eqn:E2; [|done].
    destruct (Ascii.eqb (lower "e") (lower c3)) eqn:E3; [|done].
    destruct (Ascii.eqb (lower "s") (lower c4)) eqn:E4; [|done].
    intros [= <-]. exists [Other c1; Other c2; Other c3; Other c4].
    split; [|done].
    rewrite pieces_next, (letter_piece "U" c1) by (auto; done).
    rewrite pieces_next, (letter_piece "s" c2) by (auto; done).
    rewrite pieces_next, (letter_piece "e" c3) by (auto; done).
    rewrite pieces_next, (letter_piece "s" c4) by (auto; done).
    reflexivity.
Qed.

Lemma text_nil_inv ps :
  Forall (λ p, piece_text p ≠ EmptyString) ps → text ps = EmptyString → ps = [].
Proof.
  destruct ps as [|p ps]; [done|]. intros Hf. apply Forall_cons in Hf as [Hp _].
  rewrite text_cons. by destruct (piece_text p).
Qed.

(** In a trimmed text the pattern captures a name that does not trim to
    nothing. *)
Lemma match_uses_trimmed t n :
  match_uses (trim t) = Some n → trim n ≠ EmptyString.
Proof.
  unfold match_uses.
  destruct (strip_prefix true "Uses" (trim t)) as [rest|] eqn:Hp; [|done].
  destruct (strip_prefix_uses_pieces _ _ Hp) as (l & Hl & Hnsp).
  pose proof (trim_pieces_ends (pieces t)) as [_ Hlast]. cbn zeta in Hlast.
  rewrite <- pieces_trim, Hl in Hlast.
  pose proof (skip_leading (pieces rest)) as Hsplit.
  pose proof (leading_spaces_all (pieces rest)) as Hw.
  pose proof (skip_spaces_head (pieces rest)) as Hr.
  destruct (leading_spaces (pieces rest)) as [|w1 ws] eqn:Ew; [done|].
  destruct (skip_spaces (pieces rest)) as [|y ys] eqn:Er.
  - (* nothing but white space after the word: not in a trimmed text *)
    intros _. exfalso. rewrite app_nil_r in Hsplit. rewrite Hsplit in Hlast.
    rewrite last_app in Hlast.
    destruct (last (w1 :: ws)) as [p|] eqn:Elast.
    + apply last_Some in Elast as [l' Hl'].
      assert (Hp' : is_space p = true).
      { rewrite Hl' in Hw. rewrite forallb_app in Hw.
        apply andb_prop in Hw as [_ Hw]. cbn in Hw. by destruct (is_space p). }
      congruence.
    + by apply last_None in Elast.
  - destruct (existsb is_newline (y :: ys)); [by destruct ws|].
    intros Hn. assert (n = text (y :: ys)) by (destruct ws; congruence).
    subst n. clear Hn. cbn in Hr.
    assert (Hsub : pieces (text (y :: ys)) = y :: ys).
    { apply (pieces_sub (l ++ w1 :: ws) (y :: ys) [] (trim t)).
      by rewrite Hl, Hsplit, app_nil_r, <- app_assoc. }
    unfold trim. rewrite Hsub. cbn [skip_spaces]. rewrite Hr.
    intros Hempty. apply text_nil_inv in Hempty.
    + apply (f_equal (@rev Piece)) in Hempty. rewrite rev_involutive in Hempty.
      cbn [rev] in Hempty. apply skip_spaces_nil in Hempty.
      rewrite forallb_app in Hempty. apply andb_prop in Hempty as [_ Hy].
      cbn in Hy. by rewrite Hr in Hy.
    + destruct (trim_pieces (y :: ys)) as (l1 & l2 & Heq & _).
      cbn [skip_spaces] in Heq. rewrite Hr in Heq.
      pose proof (pieces_nonempty (text (y :: ys))) as Hne. rewrite Hsub in Hne.
      rewrite Heq in Hne. apply Forall_app in Hne as [_ Hne].
      by apply Forall_app in Hne as [Hne _].
Qed.
(** X2.  [trim] takes white space, in the full sense of the language, off
    both ends and nothing else: the text is the trimmed text between two
    runs of white space, and the trimmed text neither starts nor ends with
    a white space character.  So trimming again changes nothing, and a text
    of white space only trims to the empty text.  In the chat-message
    callback: when the flavor text gives no name and the body [s], tags
    stripped and trimmed, matches the pattern with the group [x], the name
    the callback goes on with is [trim x], which is not empty. *)
Theorem trim_spec (s : string) :
  (∃ a b, s = a +:+ trim s +:+ b ∧ all_space a = true ∧ all_space b = true)
  ∧ starts_space (trim s) = false
  ∧ ends_space (trim s) = false
  ∧ trim (trim s) = trim s
  ∧ (all_space s = true → trim s = EmptyString)
  ∧ (∀ message x,
       (∀ f, msg_flavor message = Some f → match_flavor f = None) →
       msg_content message = Some s →
       match_uses (trim (strip_tags s)) = Some x →
       extract_item_name message = Some (trim x) ∧ trim x ≠ EmptyString).
Proof.
  pose proof (trim_pieces_ends (pieces s)) as [Hh Hl]. cbn zeta in Hh, Hl.
  split; [|split; [|split; [|split; [|split]]]].
  - destruct (trim_pieces (pieces s)) as (l1 & l2 & Heq & H1 & H2).
    exists (text l1), (text l2). split; [|split].
    + rewrite <- (text_pieces s) at 1. rewrite Heq at 1.
      by rewrite !text_app.
    + unfold all_space. by rewrite (pieces_sub [] l1 _ s Heq).
    + unfold all_space.
      rewrite (pieces_sub
                 (l1 ++ rev (skip_spaces (rev (skip_spaces (pieces s)))))
                 l2 [] s); [done|].
      by rewrite app_nil_r, <- app_assoc.
  - unfold starts_space. rewrite pieces_trim.
    destruct (head _) as [p|]; [by destruct (is_space p)|done].
  - unfold ends_space. rewrite pieces_trim.
    destruct (last _) as [p|]; [by destruct (is_space p)|done].
  - unfold trim at 1. rewrite pieces_trim, trim_pieces_fixed by done.
    reflexivity.
  - intros Hall. unfold trim. by rewrite (skip_spaces_all _ Hall).
  - intros message x Hf Hc Hm.
    pose proof (match_uses_trimmed _ _ Hm) as Hx. split; [|exact Hx].
    assert (Hs : s ≠ EmptyString) by (intros ->; discriminate Hm).
    unfold extract_item_name. rewrite Hc.
    assert (H1 : match msg_flavor message with
                 | Some flavor =>
                     if truthy_str (Some flavor) then
                       match match_flavor flavor with
                       | Some name => Some name
                       | None => None
                       end
                     else None
                 | None => None
                 end = None).
    { destruct (msg_flavor message) as [f|]; [|done].
      rewrite (Hf f eq_refl). by destruct (truthy_str (Some f)). }
    rewrite H1. change (truthy_str None) with false.
    rewrite (truthy_str_Some s Hs). cbn [negb andb]. rewrite Hm.
    rewrite (truthy_str_Some _ Hx). reflexivity.
Qed.

Lemma trim_spec_witness :
  extract_item_name Sample.uses_potion = Some (trim "Healing Potion")
  ∧ trim "Healing Potion" ≠ EmptyString.
Proof.
  apply (proj2 (proj2 (proj2 (proj2 (proj2
           (trim_spec "<p>Uses Healing Potion</p>")))))
           Sample.uses_potion "Healing Potion").
  - intros f Hf. discriminate Hf.
  - reflexivity.
  - vm_compute. reflexivity.
Defined.

(** X22.  The name the chat-message callback takes from a message is never
    the empty text: whichever of the three patterns gave it (flavor text,
    body, origin metadata), it has at least one character, so that the
    search by name is made with a name or not at all. *)
Theorem extract_item_name_nonempty (message : Message) (n : string) :
  extract_item_name message = Some n → n ≠ EmptyString.
Proof.
  unfold extract_item_name.
  set (n1 := match msg_flavor message with
             | Some flavor =>
                 if truthy_str (Some flavor) then
                   match match_flavor flavor with
                   | Some name => Some name
                   | None => None
                   end
                 else None
             | None => None
             end).
  assert (H1 : ∀ x, n1 = Some x → x ≠ EmptyString).
  { subst n1. intros x. destruct (msg_flavor message) as [flavor|]; [|done].
    destruct (truthy_str (Some flavor)); [|done].
    destruct (match_flavor flavor) as [name|] eqn:E; [|done]. intros [= <-].
    destruct (first_match_Some _ _ _ E) as [s' Hs'].
    by apply flavor_at_nonempty in Hs'. }
  clearbody n1.
  set (n2 := match msg_content message with
             | Some content =>
                 if negb (truthy_str n1) && truthy_str (Some content) then
                   match match_uses (trim (strip_tags content)) with
                   | Some name => Some (trim name)
                   | None =>
                       match match_item_name content with
                       | Some name => Some name
                       | None => n1
                       end
                   end
                 else n1
             | None => n1
             end).
  assert (H2 : ∀ x, n2 = Some x → x ≠ EmptyString).
  { subst n2. intros x. destruct (msg_content message) as [content|]; [|apply H1].
    destruct (negb (truthy_str n1) && truthy_str (Some content)); [|apply H1].
    destruct (match_uses (trim (strip_tags content))) as [name|] eqn:E.
    - intros [= <-]. by apply (match_uses_trimmed _ _ E).
    - destruct (match_item_name content) as [name|] eqn:E'; [|apply H1].
      intros [= <-]. destruct (first_match_Some _ _ _ E') as [s' Hs'].
      by apply item_name_at_nonempty in Hs'. }
  clearbody n2.
  destruct (negb (truthy_str n2) && truthy_str (msg_origin_name message)) eqn:E;
    [|apply H2].
  apply andb_prop in E as [_ E]. intros Heq. rewrite Heq in E. cbn in E.
  intros ->. discriminate.
Qed.

Lemma extract_item_name_nonempty_witness :
  extract_item_name Sample.uses_potion = Some "Healing Potion"
  ∧ "Healing Potion" ≠ EmptyString.
Proof.
  assert (H : extract_item_name Sample.uses_potion = Some "Healing Potion")
    by (vm_compute; reflexivity).
  split; [exact H|].
  exact (extract_item_name_nonempty Sample.uses_potion "Healing Potion" H).
Defined.

(** ** The earlier version of the callbacks *)

(** X23.  The earlier version had no duplicate suppression: when one use
    of a consumable raises both the use and the consume notification, its
    callbacks invoke the attached macro once each, however close in time,
    and leave the suppressor's table and the timers untouched. *)
Theorem legacy_no_suppression (h : Host) (macros_get : string → option Macro)
    (item : Item) (actor : Actor) (ev tg id : string) (m : Macro)
    (g : Runtime) :
  item_type item = "consumable" →
  getFlag item MODULE_ID FLAG_MACRO_ID = Some id → id ≠ EmptyString →
  macros_get id = Some m →
  let g1 := run_alone h (legacy_useItem h macros_get item ev tg) g in
  let g2 := run_alone h (legacy_consumeItem h macros_get item actor) g1 in
  (∃ c1 c2, ctx_item c1 = DocItem item ∧ ctx_item c2 = DocItem item
            ∧ invocations g2 = (invocations g ++ [(m, c1); (m, c2)])%list)
  ∧ now g2 = now g
  ∧ recentlyExecuted g2 = recentlyExecuted g
  ∧ timers g2 = timers g.
Proof.
  intros Htype Hflag Hid Hget g1 g2. subst g2 g1.
  unfold legacy_useItem, legacy_consumeItem.
  rewrite Htype, Hflag, (truthy_str_Some id Hid), Hget.
  cbn [negb String.eqb Ascii.eqb Bool.eqb].
  split.
  - eexists _, _. split; [|split];
      [| |rewrite !invocations_try_execute, <- app_assoc; reflexivity];
      reflexivity.
  - cbn [try_execute run_alone].
    destruct (host_execute h m _) as [[| |e1]|];
      destruct (host_execute h m _) as [[| |e2]|];
      cbn; done.
Qed.

Lemma legacy_no_suppression_witness :
  let old := {| item_id := "i8"; item_name := "Bomb"; item_type := "consumable";
                item_quantity := Some 1%Z;
                item_flags := {[ MODULE_ID := {[ FLAG_MACRO_ID := "m1" ]} ]};
                item_parent := Some "a1" |} in
  let macros_get := λ i, if String.eqb i "m1" then Some Sample.heal else None in
  item_type old = "consumable"
  ∧ getFlag old MODULE_ID FLAG_MACRO_ID = Some "m1"
  ∧ "m1" ≠ EmptyString
  ∧ macros_get "m1" = Some Sample.heal
  ∧ length (invocations
              (run_alone Sample.host
                 (legacy_consumeItem Sample.host macros_get old Sample.hero)
                 (run_alone Sample.host
                    (legacy_useItem Sample.host macros_get old "ev" "tg") init)))
    = 2.
Proof.
  intros old macros_get.
  assert (H1 : item_type old = "consumable") by reflexivity.
  assert (H2 : getFlag old MODULE_ID FLAG_MACRO_ID = Some "m1")
    by (vm_compute; reflexivity).
  assert (H3 : "m1" ≠ EmptyString) by discriminate.
  assert (H4 : macros_get "m1" = Some Sample.heal) by reflexivity.
  repeat (split; [assumption|]).
  destruct (legacy_no_suppression Sample.host macros_get old Sample.hero
              "ev" "tg" "m1" Sample.heal init H1 H2 H3 H4)
    as [(c1 & c2 & _ & _ & Hinv) _].
  rewrite Hinv. reflexivity.
Defined.
